(** * Hybrid transpiler: the IR, the mappers and the pattern analyzers

    A shallow embedding of the analysis core of the hybrid transpiler
    (include/ir.h, src/ir/ir_builder.cpp, the type mapper, the STL
    container mapper, the exception analyzer, the thread analyzer and
    src/codegen/codegen_base.cpp), with the properties its specification
    states about them.

    Conventions.
    - [std::string] is [string]; [std::string::npos] results are [None].
    - [std::shared_ptr<T>] is [option T], [None] for a null pointer; where
      the code dereferences a pointer without a test, the operation
      returns an [option] and a null pointer makes it [None].
    - [std::vector<T>] is [list T], [push_back] appends at the end.
    - [std::map<std::string, V>] is [gmap string V].
    - [size_t] is [Z], taken modulo [2^64] where the code does arithmetic;
      [int] counters are [Z]. *)

From Stdlib Require Import ZArith String Ascii List Bool Lia DecimalString.
From stdpp Require Import base option list gmap strings.

Set Warnings "-register-all".

Open Scope string_scope.
Open Scope nat_scope.

(** ** Strings *)

Module Str.

(** [hay.find(needle) != std::string::npos] *)
Definition contains (hay needle : string) : bool :=
  match index 0 needle hay with
  | Some _ => true
  | None => false
  end.

(** [hay.find(needle)] *)
Definition find (hay needle : string) : option nat := index 0 needle hay.

(** [hay.find(c)] for a single character. *)
Fixpoint find_char (c : ascii) (s : string) : option nat :=
  match s with
  | EmptyString => None
  | String d s' =>
      if Ascii.eqb d c then Some 0 else option_map S (find_char c s')
  end.

(** [hay.rfind(c)], the last position of [c]. *)
Fixpoint rfind_char (c : ascii) (s : string) : option nat :=
  match s with
  | EmptyString => None
  | String d s' =>
      match rfind_char c s' with
      | Some i => Some (S i)
      | None => if Ascii.eqb d c then Some 0 else None
      end
  end.

(** membership of a character in the set given to [find_first_not_of] *)
Fixpoint mem (c : ascii) (set : string) : bool :=
  match set with
  | EmptyString => false
  | String d set' => Ascii.eqb c d || mem c set'
  end.

(** [s.find_first_not_of(set)] *)
Fixpoint find_first_not_of (set : string) (s : string) : option nat :=
  match s with
  | EmptyString => None
  | String c s' =>
      if mem c set then option_map S (find_first_not_of set s')
      else Some 0
  end.

(** [s.find_last_not_of(set)] *)
Fixpoint find_last_not_of (set : string) (s : string) : option nat :=
  match s with
  | EmptyString => None
  | String c s' =>
      match find_last_not_of set s' with
      | Some i => Some (S i)
      | None => if mem c set then None else Some 0
      end
  end.

(** [s.find_last_of(c)] for a one-character set is [rfind]. *)
Definition find_last_of (c : ascii) (s : string) : option nat := rfind_char c s.

(** [s.substr(pos)], for [pos <= s.length()] *)
Definition substr_from (pos : nat) (s : string) : string :=
  substring pos (String.length s - pos) s.

Definition is_empty (s : string) : bool :=
  match s with EmptyString => true | _ => false end.

End Str.

(** ** The IR data model (include/ir.h) *)

(** Modelled from the spec: the enumerators after [Template] are not in the
    header under src/; they are the container and synchronisation kinds that
    the mappers and the thread analyzer switch on. *)
Inductive TypeKind :=
| Void | Bool | Integer | Float | Pointer | Reference | Array | Struct
| Class | Enum | Function | Template
| StdVector | StdList | StdDeque | StdMap | StdUnorderedMap | StdSet
| StdUnorderedSet | StdString | StdPair | StdOptional
| StdThread | StdMutex | StdRecursiveMutex | StdSharedMutex
| StdConditionVariable | StdAtomic | StdLockGuard | StdUniqueLock
| StdSharedLock.

#[global] Instance TypeKind_eq_dec : EqDecision TypeKind.
Proof. solve_decision. Defined.

(** [class Type]; [explicit Type(TypeKind k)] is [new_Type]. *)
Inductive IRType : Type := mkType {
  ty_kind : TypeKind;
  ty_name : string;
  ty_is_const : bool;
  ty_is_mutable : bool;
  ty_element_type : option IRType;
  ty_template_args : list IRType;
  ty_size_bytes : Z;
  ty_alignment : Z
}.

Definition new_Type (k : TypeKind) : IRType :=
  {| ty_kind := k; ty_name := ""; ty_is_const := false; ty_is_mutable := true;
     ty_element_type := None; ty_template_args := [];
     ty_size_bytes := 0; ty_alignment := 0 |}.

Definition set_name (n : string) (t : IRType) : IRType :=
  {| ty_kind := ty_kind t; ty_name := n; ty_is_const := ty_is_const t;
     ty_is_mutable := ty_is_mutable t; ty_element_type := ty_element_type t;
     ty_template_args := ty_template_args t;
     ty_size_bytes := ty_size_bytes t; ty_alignment := ty_alignment t |}.

Definition set_is_const (b : bool) (t : IRType) : IRType :=
  {| ty_kind := ty_kind t; ty_name := ty_name t; ty_is_const := b;
     ty_is_mutable := ty_is_mutable t; ty_element_type := ty_element_type t;
     ty_template_args := ty_template_args t;
     ty_size_bytes := ty_size_bytes t; ty_alignment := ty_alignment t |}.

Definition set_element_type (e : option IRType) (t : IRType) : IRType :=
  {| ty_kind := ty_kind t; ty_name := ty_name t; ty_is_const := ty_is_const t;
     ty_is_mutable := ty_is_mutable t; ty_element_type := e;
     ty_template_args := ty_template_args t;
     ty_size_bytes := ty_size_bytes t; ty_alignment := ty_alignment t |}.

Definition set_template_args (l : list IRType) (t : IRType) : IRType :=
  {| ty_kind := ty_kind t; ty_name := ty_name t; ty_is_const := ty_is_const t;
     ty_is_mutable := ty_is_mutable t; ty_element_type := ty_element_type t;
     ty_template_args := l;
     ty_size_bytes := ty_size_bytes t; ty_alignment := ty_alignment t |}.

Definition set_size (sz al : Z) (t : IRType) : IRType :=
  {| ty_kind := ty_kind t; ty_name := ty_name t; ty_is_const := ty_is_const t;
     ty_is_mutable := ty_is_mutable t; ty_element_type := ty_element_type t;
     ty_template_args := ty_template_args t;
     ty_size_bytes := sz; ty_alignment := al |}.

(** ** TypeMapper *)

Module TypeMapper.

Definition builtin_map : gmap string TypeKind :=
  list_to_map
    [ ("void", Void); ("bool", Bool); ("char", Integer); ("short", Integer);
      ("int", Integer); ("long", Integer); ("long long", Integer);
      ("unsigned char", Integer); ("unsigned short", Integer);
      ("unsigned int", Integer); ("unsigned long", Integer);
      ("unsigned long long", Integer);
      ("int8_t", Integer); ("int16_t", Integer); ("int32_t", Integer);
      ("int64_t", Integer); ("uint8_t", Integer); ("uint16_t", Integer);
      ("uint32_t", Integer); ("uint64_t", Integer); ("size_t", Integer);
      ("float", Float); ("double", Float) ].

Definition size_map : gmap string Z :=
  list_to_map
    [ ("void", 0); ("bool", 1); ("char", 1); ("short", 2); ("int", 4);
      ("long", 8); ("long long", 8); ("unsigned char", 1);
      ("unsigned short", 2); ("unsigned int", 4); ("unsigned long", 8);
      ("unsigned long long", 8);
      ("int8_t", 1); ("int16_t", 2); ("int32_t", 4); ("int64_t", 8);
      ("uint8_t", 1); ("uint16_t", 2); ("uint32_t", 4); ("uint64_t", 8);
      ("size_t", 8); ("float", 4); ("double", 8) ]%Z.

Definition getSizeForType (type_name : string) : Z :=
  match size_map !! type_name with
  | Some sz => sz
  | None => 0%Z
  end.

Definition mapBuiltinType (cpp_type : string) : option IRType :=
  match builtin_map !! cpp_type with
  | Some k =>
      let type := new_Type k in
      let type := set_name cpp_type type in
      let sz := getSizeForType cpp_type in
      Some (set_size sz sz type)
  | None => None
  end.

Section Platform.

(** [sizeof(void* )], which the source marks as platform-dependent. *)
Variable sizeof_void_ptr : Z.

Definition size_t_wrap (z : Z) : Z := (z mod 2 ^ 64)%Z.

Definition mapPointerType (pointee : option IRType) : IRType :=
  let ptr_type := new_Type Pointer in
  let ptr_type := set_element_type pointee ptr_type in
  let ptr_type := set_size sizeof_void_ptr sizeof_void_ptr ptr_type in
  match pointee with
  | Some p => set_name (ty_name p ++ "*") ptr_type
  | None => ptr_type
  end.

Definition mapReferenceType (referred : option IRType) (is_const : bool)
  : IRType :=
  let ref_type := new_Type Reference in
  let ref_type := set_element_type referred ref_type in
  let ref_type := set_is_const is_const ref_type in
  let ref_type := set_size sizeof_void_ptr sizeof_void_ptr ref_type in
  match referred with
  | Some r => set_name (ty_name r ++ "&") ref_type
  | None => ref_type
  end.

(** [std::to_string(count)] *)
Definition to_string (count : Z) : string :=
  NilEmpty.string_of_uint (N.to_uint (Z.to_N count)).

Definition mapArrayType (element : option IRType) (count : Z) : IRType :=
  let array_type := new_Type Array in
  let array_type := set_element_type element array_type in
  match element with
  | Some e =>
      let array_type :=
        set_size (size_t_wrap (ty_size_bytes e * count)) (ty_alignment e)
          array_type in
      set_name (ty_name e ++ "[" ++ to_string count ++ "]") array_type
  | None => array_type
  end.

Definition mapSmartPointer (smart_ptr_name : string)
    (element : option IRType) : IRType :=
  let ptr_type := new_Type Pointer in
  let ptr_type := set_name smart_ptr_name ptr_type in
  let ptr_type := set_element_type element ptr_type in
  set_size sizeof_void_ptr sizeof_void_ptr ptr_type.

End Platform.

End TypeMapper.

(** The documented platform-independent size of a builtin name, as the
    specification calls it, written down on its own and not read off the
    table of the code: the size of the type in the LP64 data model, the
    same whatever the host. That is none for [void], one byte for [bool]
    and the character types, two for [short], four for [int] and [float],
    eight for [long], [long long], [size_t] and [double]; an unsigned type
    has the size of the signed one, and a fixed-width alias the width it
    is named after. The type-mapping test of the repository expects 4 for
    [int]. *)
Definition documented_sizes : list (Z * list string) :=
  [ (0, [ "void" ]);
    (1, [ "bool"; "char"; "unsigned char"; "int8_t"; "uint8_t" ]);
    (2, [ "short"; "unsigned short"; "int16_t"; "uint16_t" ]);
    (4, [ "int"; "unsigned int"; "int32_t"; "uint32_t"; "float" ]);
    (8, [ "long"; "long long"; "unsigned long"; "unsigned long long";
          "int64_t"; "uint64_t"; "size_t"; "double" ]) ]%Z.

Definition documented_size (name : string) : option Z :=
  fst <$> List.find (λ row, existsb (String.eqb name) row.2) documented_sizes.

(** ** MemoryPatternAnalyzer *)

Module MemoryPatternAnalyzer.

Inductive OwnershipPattern :=
| UniqueOwnership
| SharedOwnership
| BorrowedReference
| MutableBorrow
| RawPointer
| ValueSemantics.

#[global] Instance OwnershipPattern_eq_dec : EqDecision OwnershipPattern.
Proof. solve_decision. Defined.

Definition analyzePointerPattern (type : option IRType) : OwnershipPattern :=
  match type with
  | None => ValueSemantics
  | Some type =>
      if decide (ty_kind type = Pointer) then
        if Str.contains (ty_name type) "unique_ptr" then UniqueOwnership
        else if Str.contains (ty_name type) "shared_ptr" then SharedOwnership
        else RawPointer
      else if decide (ty_kind type = Reference) then
        if ty_is_const type then BorrowedReference else MutableBorrow
      else ValueSemantics
  end.

Definition getRustEquivalent (pattern : OwnershipPattern)
    (inner_type : string) : string :=
  match pattern with
  | UniqueOwnership => "Box<" ++ inner_type ++ ">"
  | SharedOwnership => "Rc<" ++ inner_type ++ ">"
  | BorrowedReference => "&" ++ inner_type
  | MutableBorrow => "&mut " ++ inner_type
  | RawPointer => "*const " ++ inner_type
  | ValueSemantics => inner_type
  end.

Definition getGoEquivalent (pattern : OwnershipPattern)
    (inner_type : string) : string :=
  match pattern with
  | UniqueOwnership | SharedOwnership | BorrowedReference
  | MutableBorrow | RawPointer => "*" ++ inner_type
  | ValueSemantics => inner_type
  end.

End MemoryPatternAnalyzer.

(** ** Declarations: variables, parameters, functions, classes *)

(** [class Variable]; [type] is a shared pointer, [None] when null. *)
Record IRVariable := mkVariable {
  var_name : string;
  var_type : option IRType;
  var_is_static : bool;
  var_is_const : bool;
  var_initializer : string
}.

Record IRParameter := mkParameter {
  param_name : string;
  param_type : option IRType;
  param_has_default : bool;
  param_default_value : string
}.

(** Modelled from the spec: the annotation records below ([ThreadInfo],
    [LockInfo], [AtomicInfo], [ConditionVariableInfo], [MutexInfo],
    [TryCatchBlock], [ExceptionSpec]) are declared in a header that is not
    under src/; their fields are the ones the analyzers read and write. *)
Record ThreadInfo := mkThreadInfo {
  thread_var_name : string;
  function_name : string;
  arguments : list string;
  detached : bool;
  joinable : bool
}.

Inductive LockType := LockGuard | UniqueLock | SharedLock.

Record LockInfo := mkLockInfo {
  lock_type : LockType;
  lock_var_name : string;
  mutex_name : string
}.

Record AtomicInfo := mkAtomicInfo {
  atomic_var_name : string;
  value_type : option IRType;
  operations : list string
}.

Record ConditionVariableInfo := mkConditionVariableInfo {
  cv_var_name : string;
  wait_conditions : list string
}.

Inductive MutexType := Mutex | RecursiveMutex | SharedMutex.

Record MutexInfo := mkMutexInfo {
  mutex_type : MutexType;
  mutex_var_name : string
}.

Record CatchClause := mkCatchClause {
  exception_type : string;
  exception_var : string;
  handler_body : string
}.

Record TryCatchBlock := mkTryCatchBlock {
  try_body : string;
  catch_clauses : list CatchClause
}.

Record ExceptionSpec := mkExceptionSpec {
  is_noexcept : bool;
  can_throw : bool
}.

(** [class Function], with the annotations the analyzers attach. *)
Record IRFunction := mkFunction {
  fn_name : string;
  fn_return_type : option IRType;
  fn_parameters : list IRParameter;
  fn_body : string;
  fn_is_const : bool;
  fn_is_static : bool;
  fn_is_virtual : bool;
  fn_is_pure_virtual : bool;
  fn_is_constructor : bool;
  fn_is_destructor : bool;
  moved_params : list string;
  borrowed_params : list string;
  (* exception analysis *)
  try_catch_blocks : list TryCatchBlock;
  exception_spec : ExceptionSpec;
  may_throw : bool;
  (* thread analysis *)
  threads_created : list ThreadInfo;
  lock_scopes : list LockInfo;
  atomic_operations : list AtomicInfo;
  condition_variables : list ConditionVariableInfo;
  uses_threading : bool
}.

Definition set_try_catch_blocks (v : list TryCatchBlock) (f : IRFunction) :=
  let 'mkFunction a b c d e g h i j k l m _ o p q r s t u := f in
  mkFunction a b c d e g h i j k l m v o p q r s t u.

Definition set_exception_spec (v : ExceptionSpec) (f : IRFunction) :=
  let 'mkFunction a b c d e g h i j k l m n _ p q r s t u := f in
  mkFunction a b c d e g h i j k l m n v p q r s t u.

Definition set_may_throw (v : bool) (f : IRFunction) :=
  let 'mkFunction a b c d e g h i j k l m n o _ q r s t u := f in
  mkFunction a b c d e g h i j k l m n o v q r s t u.

Definition set_threads_created (v : list ThreadInfo) (f : IRFunction) :=
  let 'mkFunction a b c d e g h i j k l m n o p _ r s t u := f in
  mkFunction a b c d e g h i j k l m n o p v r s t u.

Definition set_lock_scopes (v : list LockInfo) (f : IRFunction) :=
  let 'mkFunction a b c d e g h i j k l m n o p q _ s t u := f in
  mkFunction a b c d e g h i j k l m n o p q v s t u.

Definition set_atomic_operations (v : list AtomicInfo) (f : IRFunction) :=
  let 'mkFunction a b c d e g h i j k l m n o p q r _ t u := f in
  mkFunction a b c d e g h i j k l m n o p q r v t u.

Definition set_condition_variables (v : list ConditionVariableInfo)
    (f : IRFunction) :=
  let 'mkFunction a b c d e g h i j k l m n o p q r s _ u := f in
  mkFunction a b c d e g h i j k l m n o p q r s v u.

Definition set_uses_threading (v : bool) (f : IRFunction) :=
  let 'mkFunction a b c d e g h i j k l m n o p q r s t _ := f in
  mkFunction a b c d e g h i j k l m n o p q r s t v.

Inductive AccessLevel := Public | Protected | Private.

Record AccessSection := mkAccessSection {
  level : AccessLevel;
  members : list string
}.

(** [class ClassDecl], with the synchronisation inventory. *)
Record ClassDecl := mkClassDecl {
  cls_name : string;
  cls_is_struct : bool;
  cls_fields : list IRVariable;
  cls_methods : list IRFunction;
  cls_base_classes : list string;
  cls_is_template : bool;
  cls_template_params : list string;
  cls_access_sections : list AccessSection;
  mutexes : list MutexInfo;
  atomic_fields : list AtomicInfo;
  thread_safe : bool
}.

Definition set_mutexes (v : list MutexInfo) (c : ClassDecl) :=
  let 'mkClassDecl a b d e f g h i _ k l := c in
  mkClassDecl a b d e f g h i v k l.

Definition set_atomic_fields (v : list AtomicInfo) (c : ClassDecl) :=
  let 'mkClassDecl a b d e f g h i j _ l := c in
  mkClassDecl a b d e f g h i j v l.

Definition set_thread_safe (v : bool) (c : ClassDecl) :=
  let 'mkClassDecl a b d e f g h i j k _ := c in
  mkClassDecl a b d e f g h i j k v.

(** ** The IR container (src/ir/ir_builder.cpp) *)

(** The registry maps a name to a shared pointer, which may be null:
    [Some None] is a null pointer registered under the name. *)
Record IR := mkIR {
  classes_ : list ClassDecl;
  functions_ : list IRFunction;
  global_vars_ : list IRVariable;
  type_registry_ : gmap string (option IRType)
}.

Definition empty_IR : IR :=
  {| classes_ := []; functions_ := []; global_vars_ := [];
     type_registry_ := ∅ |}.

Definition registerType (name : string) (type : option IRType) (ir : IR) : IR :=
  {| classes_ := classes_ ir; functions_ := functions_ ir;
     global_vars_ := global_vars_ ir;
     type_registry_ := <[name := type]> (type_registry_ ir) |}.

Definition findType (name : string) (ir : IR) : option IRType :=
  match type_registry_ ir !! name with
  | Some it_second => it_second
  | None => None
  end.

Definition addClass (class_decl : ClassDecl) (ir : IR) : IR :=
  let ir := {| classes_ := classes_ ir ++ [class_decl];
               functions_ := functions_ ir;
               global_vars_ := global_vars_ ir;
               type_registry_ := type_registry_ ir |} in
  let type := new_Type Class in
  let type := set_name (cls_name class_decl) type in
  registerType (cls_name class_decl) (Some type) ir.

Definition addFunction (func : IRFunction) (ir : IR) : IR :=
  {| classes_ := classes_ ir; functions_ := functions_ ir ++ [func];
     global_vars_ := global_vars_ ir; type_registry_ := type_registry_ ir |}.

Definition addGlobalVariable (var : IRVariable) (ir : IR) : IR :=
  {| classes_ := classes_ ir; functions_ := functions_ ir;
     global_vars_ := global_vars_ ir ++ [var];
     type_registry_ := type_registry_ ir |}.

(** The registry invariant of the specification: every class in [classes_]
    has an entry under its name, holding a class-kind type of that name. *)
Definition registry_entry_ok (ir : IR) (c : ClassDecl) : Prop :=
  ∃ t, type_registry_ ir !! cls_name c = Some (Some t)
       ∧ ty_name t = cls_name c ∧ ty_kind t = Class.

Definition registry_invariant (ir : IR) : Prop :=
  ∀ c, c ∈ classes_ ir → registry_entry_ok ir c.

(** The weaker reading: every class name has some entry in the registry. *)
Definition registry_covers_classes (ir : IR) : Prop :=
  ∀ c, c ∈ classes_ ir → is_Some (type_registry_ ir !! cls_name c).

(** ** The code generator base (src/codegen/codegen_base.cpp) *)

(** The protected state of [CodeGenerator]: the output stream and the
    indent level (an [int]). *)
Record CodeGenerator := mkCodeGenerator {
  output_ : string;
  indent_level_ : Z
}.

(** [for (int i = 0; i < indent_level_; ++i) output_ << "    "] *)
Fixpoint write_indent_loop (n : nat) (out : string) : string :=
  match n with
  | O => out
  | S n' => write_indent_loop n' (out ++ "    ")
  end.

Definition writeIndent (g : CodeGenerator) : CodeGenerator :=
  {| output_ := write_indent_loop (Z.to_nat (indent_level_ g)) (output_ g);
     indent_level_ := indent_level_ g |}.

Definition writeLine (line : string) (g : CodeGenerator) : CodeGenerator :=
  let g :=
    if Str.is_empty line then g
    else let g := writeIndent g in
         {| output_ := output_ g ++ line; indent_level_ := indent_level_ g |} in
  {| output_ := output_ g ++ String "010" EmptyString;
     indent_level_ := indent_level_ g |}.

(** [!v.empty()] for a vector *)
Definition nonempty {A} (l : list A) : bool :=
  match l with [] => false | _ => true end.

(** ** A model of [std::regex] for the patterns of the analyzers

    The analyzers use [std::regex] with the default ECMAScript grammar:
    a backtracking matcher that returns, at the leftmost position where a
    match exists, the first match in priority order (greedy quantifiers try
    the longest repetition first). Every quantifier [*] or [+] in the
    source patterns applies to a one-character atom (an escape such as
    [\s], [\w] or a bracket class), so the syntax below gives [RStar] and
    [RPlus] a character class. [show] prints a pattern back in the concrete
    syntax, which ties each pattern below to the text in the source.

    The model gives the result of a search. It does not show the resources
    of the library's matcher, which recurses on the characters of a
    repetition and can exhaust the stack on a very long one: what is
    stated below of a result of an analyzer is stated of a run that
    returns. *)

Module Regex.

Definition ascii_in_range (lo hi c : ascii) : bool :=
  (N_of_ascii lo <=? N_of_ascii c)%N && (N_of_ascii c <=? N_of_ascii hi)%N.

(** [\s]: space, \t, \n, \v, \f, \r *)
Definition is_space (c : ascii) : bool :=
  Ascii.eqb c " " || ascii_in_range "009" "013" c.

(** [\w]: letters, digits and underscore *)
Definition is_word (c : ascii) : bool :=
  ascii_in_range "a" "z" c || ascii_in_range "A" "Z" c
  || ascii_in_range "0" "9" c || Ascii.eqb c "_".

(** one-character atoms: [\s], [\w] and the negated class [[^c]] *)
Inductive cclass :=
| CSpace
| CWord
| CNot (c : ascii).

Definition class_mem (cl : cclass) (d : ascii) : bool :=
  match cl with
  | CSpace => is_space d
  | CWord => is_word d
  | CNot c => negb (Ascii.eqb d c)
  end.

Inductive regex :=
| REps
| RChar (c : ascii)
| RSet (cl : cclass)
| RStar (cl : cclass)
| RPlus (cl : cclass)
| RSeq (r1 r2 : regex)
| RAlt (r1 r2 : regex)
| RNonCap (r : regex)             (* (?:r) *)
| ROpt (r : regex)                (* (?:r)? *)
| RGroup (n : nat) (r : regex).   (* (r), the n-th capture group *)

(** a literal run of characters *)
Fixpoint RLit (s : string) : regex :=
  match s with
  | EmptyString => REps
  | String c s' => RSeq (RChar c) (RLit s')
  end.

Fixpoint RSeqs (l : list regex) : regex :=
  match l with
  | [] => REps
  | r :: l' => RSeq r (RSeqs l')
  end.

(** *** Concrete syntax *)

Definition show_char (c : ascii) : string :=
  if Str.mem c "{}()." then String "\" (String c "") else String c "".

Definition show_class (cl : cclass) : string :=
  match cl with
  | CSpace => "\s"
  | CWord => "\w"
  | CNot c => "[^" ++ String c "]"
  end.

Fixpoint show (r : regex) : string :=
  match r with
  | REps => ""
  | RChar c => show_char c
  | RSet cl => show_class cl
  | RStar cl => show_class cl ++ "*"
  | RPlus cl => show_class cl ++ "+"
  | RSeq r1 r2 => show r1 ++ show r2
  | RAlt r1 r2 => show r1 ++ "|" ++ show r2
  | RNonCap r1 => "(?:" ++ show r1 ++ ")"
  | ROpt r1 => "(?:" ++ show r1 ++ ")?"
  | RGroup _ r1 => "(" ++ show r1 ++ ")"
  end.

(** capture groups are numbered by their opening parenthesis, from
    [next]; the result is the number after the last group *)
Fixpoint group_numbering (r : regex) (next : nat) : option nat :=
  match r with
  | REps | RChar _ | RSet _ | RStar _ | RPlus _ => Some next
  | RSeq r1 r2 | RAlt r1 r2 =>
      n ← group_numbering r1 next; group_numbering r2 n
  | RNonCap r1 | ROpt r1 => group_numbering r1 next
  | RGroup n r1 =>
      if Nat.eqb n next then group_numbering r1 (S next) else None
  end.

(** *** Matching *)

(** Sub-matches: group number and matched text, most recent first. A
    group that took no part in the match has no entry
    ([match[n].matched] is false). *)
Definition captures := list (nat * string).

Fixpoint group (n : nat) (caps : captures) : option string :=
  match caps with
  | [] => None
  | (m, s) :: caps' => if Nat.eqb n m then Some s else group n caps'
  end.

(** [match[n].str()]: the empty string for an unmatched group *)
Definition group_str (n : nat) (caps : captures) : string :=
  match group n caps with Some s => s | None => "" end.

(** the text consumed between the input [s] and its suffix [s'] *)
Definition consumed (s s' : string) : string :=
  substring 0 (String.length s - String.length s') s.

(** greedy repetition of a character class, with backtracking *)
Fixpoint star {R} (cl : cclass) (s : string)
    (k : string → option R) : option R :=
  match s with
  | EmptyString => k s
  | String c s' =>
      if class_mem cl c then
        match star cl s' k with
        | Some x => Some x
        | None => k s
        end
      else k s
  end.

Fixpoint rmatch {R} (r : regex) (s : string) (caps : captures)
    (k : string → captures → option R) : option R :=
  match r with
  | REps => k s caps
  | RChar c =>
      match s with
      | String d s' => if Ascii.eqb d c then k s' caps else None
      | EmptyString => None
      end
  | RSet cl =>
      match s with
      | String d s' => if class_mem cl d then k s' caps else None
      | EmptyString => None
      end
  | RStar cl => star cl s (λ s', k s' caps)
  | RPlus cl =>
      match s with
      | String d s' =>
          if class_mem cl d then star cl s' (λ s'', k s'' caps) else None
      | EmptyString => None
      end
  | RSeq r1 r2 => rmatch r1 s caps (λ s' caps', rmatch r2 s' caps' k)
  | RAlt r1 r2 =>
      match rmatch r1 s caps k with
      | Some x => Some x
      | None => rmatch r2 s caps k
      end
  | RNonCap r1 => rmatch r1 s caps k
  | ROpt r1 =>
      match rmatch r1 s caps k with
      | Some x => Some x
      | None => k s caps
      end
  | RGroup n r1 =>
      rmatch r1 s caps (λ s' caps', k s' ((n, consumed s s') :: caps'))
  end.

(** [std::smatch] after a successful search *)
Record smatch := mkSmatch {
  m_prefix : string;       (* match.prefix() *)
  m_str : string;          (* match[0] *)
  m_groups : captures;     (* match[1], match[2], ... *)
  m_suffix : string        (* match.suffix() *)
}.

Definition match_here (r : regex) (s : string) : option smatch :=
  rmatch r s []
    (λ s' caps, Some {| m_prefix := ""; m_str := consumed s s';
                        m_groups := caps; m_suffix := s' |}).

Definition shift_prefix (c : ascii) (m : smatch) : smatch :=
  {| m_prefix := String c (m_prefix m); m_str := m_str m;
     m_groups := m_groups m; m_suffix := m_suffix m |}.

(** [std::regex_search(first, last, match, r)]: the leftmost match *)
Fixpoint regex_search (r : regex) (s : string) : option smatch :=
  match match_here r s with
  | Some m => Some m
  | None =>
      match s with
      | EmptyString => None
      | String c s' => option_map (shift_prefix c) (regex_search r s')
      end
  end.

(** The loop
    [while (std::regex_search(search_start, end, match, r))
       { body; search_start = match.suffix().first; }]
    threading the state [A] that the body updates. The loop has no bound
    in the source; [fuel] bounds it here and [None] means the bound was
    reached. *)
Fixpoint search_loop {A} (fuel : nat) (r : regex) (body : smatch → A → A)
    (search_start : string) (acc : A) : option A :=
  match fuel with
  | O => None
  | S fuel' =>
      match regex_search r search_start with
      | None => Some acc
      | Some m => search_loop fuel' r body (m_suffix m) (body m acc)
      end
  end.

(** [std::regex_replace(s, r, fmt)] for a format without [$]: every
    match is replaced, the text between matches is copied. *)
Fixpoint regex_replace_loop (fuel : nat) (r : regex) (fmt : string)
    (s : string) : option string :=
  match fuel with
  | O => None
  | S fuel' =>
      match regex_search r s with
      | None => Some s
      | Some m =>
          rest ← regex_replace_loop fuel' r fmt (m_suffix m);
          Some (m_prefix m ++ fmt ++ rest)
      end
  end.

Definition regex_replace (r : regex) (fmt : string) (s : string)
  : option string :=
  regex_replace_loop (S (String.length s)) r fmt s.

(** patterns that cannot match the empty string *)
Fixpoint nonnull (r : regex) : bool :=
  match r with
  | REps => false
  | RChar _ | RSet _ | RPlus _ => true
  | RStar _ => false
  | RSeq r1 r2 => nonnull r1 || nonnull r2
  | RAlt r1 r2 => nonnull r1 && nonnull r2
  | RNonCap r1 => nonnull r1
  | ROpt _ => false
  | RGroup _ r1 => nonnull r1
  end.

End Regex.

(** ** Notions for reasoning about matches *)

Module RegexSpec.
Import Regex.

(** every character of [s] satisfies [p] *)
Fixpoint str_all (p : ascii → bool) (s : string) : bool :=
  match s with
  | EmptyString => true
  | String c s' => p c && str_all p s'
  end.

(** a repetition of [cl] cannot go on into [rest] *)
Definition stops (cl : cclass) (rest : string) : bool :=
  match rest with
  | EmptyString => true
  | String c _ => negb (class_mem cl c)
  end.

(** [r] on [s] hands [s'] and [caps'] to its continuation first: whenever
    the continuation succeeds there, that is the result of the match *)
Definition commits (r : regex) (s : string) (caps : captures)
    (s' : string) (caps' : captures) : Prop :=
  ∀ (R : Type) (k : string → captures → option R) (x : R),
    k s' caps' = Some x → rmatch r s caps k = Some x.

(** an over-approximation of the characters a match of [r] can begin with *)
Fixpoint can_start (r : regex) (d : ascii) : bool :=
  match r with
  | REps => false
  | RChar c => Ascii.eqb d c
  | RSet cl | RStar cl | RPlus cl => class_mem cl d
  | RSeq r1 r2 => can_start r1 d || (negb (nonnull r1) && can_start r2 d)
  | RAlt r1 r2 => can_start r1 d || can_start r2 d
  | RNonCap r1 | ROpt r1 | RGroup _ r1 => can_start r1 d
  end.

Definition add_prefix (pre : string) (m : smatch) : smatch :=
  {| m_prefix := pre ++ m_prefix m; m_str := m_str m;
     m_groups := m_groups m; m_suffix := m_suffix m |}.

(** the search in [s] succeeds with the sub-matches [caps] and leaves
    [rest] after the match *)
Definition finds (r : regex) (s : string) (caps : captures) (rest : string)
  : Prop :=
  ∃ m, regex_search r s = Some m ∧ m_groups m = caps ∧ m_suffix m = rest.

Definition not_word (c : ascii) : bool := negb (is_word c).

Definition not_rbrace (c : ascii) : bool := negb (Ascii.eqb c "}").

(** [r] can take [s] to [s'], turning the sub-matches [caps] into
    [caps']: the matches the backtracking search chooses among *)
Fixpoint derives (r : regex) (s : string) (caps : captures)
    (s' : string) (caps' : captures) : Prop :=
  match r with
  | REps => s' = s ∧ caps' = caps
  | RChar c => s = String c s' ∧ caps' = caps
  | RSet cl => ∃ d, s = String d s' ∧ class_mem cl d = true ∧ caps' = caps
  | RStar cl =>
      ∃ b, s = b ++ s' ∧ str_all (class_mem cl) b = true ∧ caps' = caps
  | RPlus cl =>
      ∃ d b, s = String d b ++ s'
             ∧ str_all (class_mem cl) (String d b) = true ∧ caps' = caps
  | RSeq r1 r2 =>
      ∃ s1 caps1, derives r1 s caps s1 caps1 ∧ derives r2 s1 caps1 s' caps'
  | RAlt r1 r2 => derives r1 s caps s' caps' ∨ derives r2 s caps s' caps'
  | RNonCap r1 => derives r1 s caps s' caps'
  | ROpt r1 => derives r1 s caps s' caps' ∨ (s' = s ∧ caps' = caps)
  | RGroup n r1 =>
      ∃ caps1, derives r1 s caps s' caps1
               ∧ caps' = (n, consumed s s') :: caps1
  end.

(** no match of [r] begins at a position of [pre] in the text [pre ++ s] *)
Fixpoint none_begins (r : regex) (pre s : string) : bool :=
  match pre with
  | EmptyString => true
  | String c pre' =>
      match match_here r (pre ++ s) with
      | Some _ => false
      | None => none_begins r pre' s
      end
  end.


(** the bodies of the groups numbered [n] in [r] *)
Fixpoint group_bodies (n : nat) (r : regex) : list regex :=
  match r with
  | REps | RChar _ | RSet _ | RStar _ | RPlus _ => []
  | RSeq r1 r2 | RAlt r1 r2 => group_bodies n r1 ++ group_bodies n r2
  | RNonCap r1 | ROpt r1 => group_bodies n r1
  | RGroup m r1 => (if Nat.eqb n m then [r1] else []) ++ group_bodies n r1
  end.

(** group [n] takes part in every match of [r] *)
Fixpoint always_sets (n : nat) (r : regex) : bool :=
  match r with
  | REps | RChar _ | RSet _ | RStar _ | RPlus _ => false
  | RSeq r1 r2 => always_sets n r1 || always_sets n r2
  | RAlt r1 r2 => always_sets n r1 && always_sets n r2
  | RNonCap r1 => always_sets n r1
  | ROpt _ => false
  | RGroup m r1 => Nat.eqb n m || always_sets n r1
  end.

(** [w] is a text that [body] can match *)
Definition captured_by (body : regex) (w : string) : Prop :=
  ∃ t caps t' caps', derives body t caps t' caps' ∧ w = consumed t t'.

End RegexSpec.

(** ** ExceptionAnalyzer *)

Module ExceptionAnalyzer.
Import Regex.

Definition try_catch_pattern : regex :=
  RSeqs [ RLit "try"; RStar CSpace; RChar "{";
          RGroup 1 (RStar (CNot "}")); RChar "}"; RStar CSpace;
          RLit "catch"; RStar CSpace; RChar "(";
          RGroup 2 (RPlus (CNot ")")); RChar ")"; RStar CSpace;
          RChar "{"; RGroup 3 (RStar (CNot "}")); RChar "}" ].

Definition const_pattern : regex :=
  RSeqs [ RStar CSpace; RLit "const"; RStar CSpace ].

Definition amp_pattern : regex :=
  RSeqs [ RStar CSpace; RChar "&"; RStar CSpace ].

Definition spaces_pattern : regex := RPlus CSpace.

Definition throw_pattern : regex := RSeqs [ RLit "throw"; RPlus CSpace ].

(** the character set of the trimming calls: space, tab, newline *)
Definition trim_set : string :=
  String " " (String "009" (String "010" EmptyString)).

(** [s.erase(0, s.find_first_not_of(set))]; with [npos] the whole
    string is erased. *)
Definition erase_leading (s : string) : string :=
  match Str.find_first_not_of trim_set s with
  | Some n => Str.substr_from n s
  | None => ""
  end.

(** [s.erase(s.find_last_not_of(set) + 1)]; [npos + 1] is [0]. *)
Definition erase_trailing (s : string) : string :=
  match Str.find_last_not_of trim_set s with
  | Some n => substring 0 (S n) s
  | None => ""
  end.

(** [parseCatchParameter(param, type, var)], returning [(type, var)] *)
Definition parseCatchParameter (param : string) : option (string * string) :=
  if String.eqb param "..." then Some ("...", "")
  else
    cleaned ← regex_replace const_pattern " " param;
    cleaned ← regex_replace amp_pattern " " cleaned;
    cleaned ← regex_replace spaces_pattern " " cleaned;
    let '(type, var) :=
      match Str.find_last_of " " cleaned with
      | Some last_space =>
          (substring 0 last_space cleaned,
           Str.substr_from (S last_space) cleaned)
      | None => (cleaned, "e")
      end in
    Some (erase_trailing (erase_leading type),
          erase_trailing (erase_leading var)).

(** the body of the loop of [detectTryCatchBlocks] *)
Definition try_catch_step (m : smatch)
    (blocks : option (list TryCatchBlock)) : option (list TryCatchBlock) :=
  blocks ← blocks;
  let catch_param := group_str 2 (m_groups m) in
  '(type, var) ← parseCatchParameter catch_param;
  let clause :=
    {| exception_type := type; exception_var := var;
       handler_body := group_str 3 (m_groups m) |} in
  let block :=
    {| try_body := group_str 1 (m_groups m); catch_clauses := [clause] |} in
  Some (blocks ++ [block])%list.

Definition detectTryCatchBlocks (func : IRFunction) : option IRFunction :=
  let body := fn_body func in
  r ← search_loop (S (String.length body)) try_catch_pattern try_catch_step
        body (Some (try_catch_blocks func));
  blocks ← r;
  Some (set_try_catch_blocks blocks func).

Definition detectThrowStatements (func : IRFunction) : IRFunction :=
  match regex_search throw_pattern (fn_body func) with
  | Some _ =>
      set_exception_spec
        {| is_noexcept := is_noexcept (exception_spec func);
           can_throw := true |} func
  | None => func
  end.

Definition containsThrowStatement (body : string) : bool :=
  Str.contains body "throw ".

Definition analyzeExceptionSpec (func : IRFunction) : IRFunction :=
  if Str.contains (fn_name func) "noexcept" then
    set_exception_spec {| is_noexcept := true; can_throw := false |} func
  else func.

Definition analyzeFunction (func : IRFunction) : option IRFunction :=
  func ← detectTryCatchBlocks func;
  let func := detectThrowStatements func in
  let func := analyzeExceptionSpec func in
  Some (set_may_throw
          (can_throw (exception_spec func)
           || nonempty (try_catch_blocks func)
           || containsThrowStatement (fn_body func))
          func).

(** every catch clause recorded for a function, in order *)
Definition all_catch_clauses (func : IRFunction) : list CatchClause :=
  concat (map catch_clauses (try_catch_blocks func)).

End ExceptionAnalyzer.

(** ** ExceptionTypeMapper *)

Module ExceptionTypeMapper.

Definition exception_map : gmap string string :=
  list_to_map
    [ ("std::exception", "Standard exception");
      ("std::runtime_error", "Runtime error");
      ("std::logic_error", "Logic error");
      ("std::invalid_argument", "Invalid argument");
      ("std::out_of_range", "Out of range");
      ("std::overflow_error", "Overflow error");
      ("std::underflow_error", "Underflow error");
      ("std::range_error", "Range error");
      ("std::bad_alloc", "Memory allocation failed");
      ("std::bad_cast", "Bad cast");
      ("std::bad_typeid", "Bad typeid");
      ("std::ios_base::failure", "I/O error");
      ("...", "Unknown error") ].

Definition getErrorDescription (exception_type : string) : string :=
  match exception_map !! exception_type with
  | Some d => d
  | None => "Error: " ++ exception_type
  end.

Definition getRustErrorType (exception_type : string) : string :=
  if String.eqb exception_type "std::exception"
     || String.eqb exception_type "std::runtime_error"
  then "Box<dyn std::error::Error>"
  else if String.eqb exception_type "std::invalid_argument"
  then "std::io::Error"
  else if String.eqb exception_type "..."
  then "Box<dyn std::error::Error>"
  else "String".

(** [getGoErrorType]: Go has one error interface for every exception *)
Definition getGoErrorType (exception_type : string) : string := "error".

End ExceptionTypeMapper.

(** ** ExceptionStrategySelector *)

Inductive ExceptionStrategy :=
| ResultType
| ErrorReturn
| Panic
| Ignore.

Module ExceptionStrategySelector.

Definition selectStrategy (func : IRFunction) (target_lang : string)
  : ExceptionStrategy :=
  if negb (may_throw func) && negb (nonempty (try_catch_blocks func)) then
    Ignore
  else if is_noexcept (exception_spec func)
          && nonempty (try_catch_blocks func) then
    if String.eqb target_lang "rust" then ResultType else ErrorReturn
  else if may_throw func then
    if String.eqb target_lang "rust" then ResultType else ErrorReturn
  else Ignore.

End ExceptionStrategySelector.

(** ** ThreadAnalyzer *)

Module ThreadAnalyzer.
Import Regex.

(** the character set of [trim]: space, tab, newline, carriage return *)
Definition trim_set : string :=
  String " " (String "009" (String "010" (String "013" EmptyString))).

Definition trim (str : string) : string :=
  match Str.find_first_not_of trim_set str with
  | None => ""
  | Some first =>
      match Str.find_last_not_of trim_set str with
      | Some last => substring first (last - first + 1) str
      | None => ""
      end
  end.

(** the optional argument tail of the thread patterns: a comma, spaces,
    and the third group, any run of characters other than [close] *)
Definition args_tail (close : ascii) : regex :=
  ROpt (RSeqs [ RChar ","; RStar CSpace; RGroup 3 (RStar (CNot close)) ]).

Definition thread_pattern1 : regex :=
  RSeqs [ RLit "std::thread"; RPlus CSpace; RGroup 1 (RPlus CWord);
          RStar CSpace; RChar "("; RStar CSpace; RGroup 2 (RPlus CWord);
          RStar CSpace; args_tail ")"; RChar ")" ].

Definition thread_pattern2 : regex :=
  RSeqs [ RLit "std::thread"; RPlus CSpace; RGroup 1 (RPlus CWord);
          RStar CSpace; RChar "{"; RStar CSpace; RGroup 2 (RPlus CWord);
          RStar CSpace; args_tail "}"; RChar "}" ].

Definition thread_pattern3 : regex :=
  RSeqs [ RNonCap (RAlt (RLit "auto") (RLit "std::thread")); RPlus CSpace;
          RGroup 1 (RPlus CWord); RStar CSpace; RChar "="; RStar CSpace;
          RLit "std::thread"; RStar CSpace; RChar "("; RStar CSpace;
          RGroup 2 (RPlus CWord); RStar CSpace; args_tail ")"; RChar ")" ].

Definition detach_pattern : regex :=
  RSeqs [ RGroup 1 (RPlus CWord); RLit ".detach"; RStar CSpace;
          RChar "("; RChar ")" ].

Definition lock_pattern (guard : string) : regex :=
  RSeqs [ RLit "std::"; RLit guard; RChar "<"; RPlus (CNot ">"); RChar ">";
          RPlus CSpace; RGroup 1 (RPlus CWord); RStar CSpace; RChar "(";
          RStar CSpace; RGroup 2 (RPlus CWord); RStar CSpace; RChar ")" ].

Definition lock_guard_pattern : regex := lock_pattern "lock_guard".
Definition unique_lock_pattern : regex := lock_pattern "unique_lock".
Definition shared_lock_pattern : regex := lock_pattern "shared_lock".

Definition atomic_pattern : regex :=
  RSeqs [ RLit "std::atomic<"; RGroup 1 (RPlus (CNot ">")); RChar ">";
          RPlus CSpace; RGroup 2 (RPlus CWord) ].

Fixpoint RAlts (l : list string) : regex :=
  match l with
  | [] => REps
  | [s] => RLit s
  | s :: l' => RAlt (RLit s) (RAlts l')
  end.

Definition atomic_op_pattern : regex :=
  RSeqs [ RGroup 1 (RPlus CWord); RChar ".";
          RGroup 2 (RAlts [ "load"; "store"; "fetch_add"; "fetch_sub";
                            "exchange"; "compare_exchange_weak";
                            "compare_exchange_strong" ]);
          RStar CSpace; RChar "(" ].

Definition cv_pattern : regex :=
  RSeqs [ RLit "std::condition_variable"; RPlus CSpace;
          RGroup 1 (RPlus CWord) ].

Definition cv_op_pattern : regex :=
  RSeqs [ RGroup 1 (RPlus CWord); RChar ".";
          RGroup 2 (RAlts [ "wait"; "notify_one"; "notify_all"; "wait_for";
                            "wait_until" ]);
          RStar CSpace; RChar "(" ].

Definition push_arg (current_arg : string) (arguments : list string)
  : list string :=
  let trimmed := trim current_arg in
  if Str.is_empty trimmed then arguments else (arguments ++ [trimmed])%list.

(** the [for (char c : args_str)] loop of [parseArguments] and the code
    after it; the two depths are [int] counters *)
Fixpoint parseArguments_loop (rest : string) (current_arg : string)
    (paren_depth bracket_depth : Z) (arguments : list string)
  : list string :=
  match rest with
  | EmptyString => push_arg current_arg arguments
  | String c rest' =>
      let current_arg' := current_arg ++ String c "" in
      if Ascii.eqb c "(" || Ascii.eqb c "{" then
        parseArguments_loop rest' current_arg' (paren_depth + 1)
          bracket_depth arguments
      else if Ascii.eqb c ")" || Ascii.eqb c "}" then
        parseArguments_loop rest' current_arg' (paren_depth - 1)
          bracket_depth arguments
      else if Ascii.eqb c "[" then
        parseArguments_loop rest' current_arg' paren_depth
          (bracket_depth + 1) arguments
      else if Ascii.eqb c "]" then
        parseArguments_loop rest' current_arg' paren_depth
          (bracket_depth - 1) arguments
      else if Ascii.eqb c "," && (paren_depth =? 0)%Z
              && (bracket_depth =? 0)%Z then
        parseArguments_loop rest' "" paren_depth bracket_depth
          (push_arg current_arg arguments)
      else
        parseArguments_loop rest' current_arg' paren_depth bracket_depth
          arguments
  end.

Definition parseArguments (args_str : string) (arguments : list string)
  : list string :=
  if Str.is_empty args_str then arguments
  else parseArguments_loop args_str "" 0 0 arguments.

(** the [for (auto& thread : func.threads_created)] loop of the detach
    scan: the first thread of that name is marked, then [break] *)
Fixpoint mark_detached (thread_var : string) (threads : list ThreadInfo)
  : list ThreadInfo :=
  match threads with
  | [] => []
  | thread :: rest =>
      if String.eqb (thread_var_name thread) thread_var then
        {| thread_var_name := thread_var_name thread;
           function_name := function_name thread;
           arguments := arguments thread;
           detached := true; joinable := false |} :: rest
      else thread :: mark_detached thread_var rest
  end.

Section Defaults.

(** Modelled from the spec: the default member initialisers of
    [ThreadInfo::detached] and [ThreadInfo::joinable], declared in a
    header that is not under src/, are taken as parameters. *)
Variables default_detached default_joinable : bool.

(** the body shared by the three thread-creation loops *)
Definition thread_step (m : smatch) (threads : list ThreadInfo)
  : list ThreadInfo :=
  let args :=
    match group 3 (m_groups m) with
    | Some a => parseArguments a []
    | None => []
    end in
  (threads ++
   [ {| thread_var_name := group_str 1 (m_groups m);
        function_name := group_str 2 (m_groups m);
        arguments := args;
        detached := default_detached;
        joinable := default_joinable |} ])%list.

Definition detach_step (m : smatch) (threads : list ThreadInfo)
  : list ThreadInfo :=
  mark_detached (group_str 1 (m_groups m)) threads.

Definition detectThreadCreation (func : IRFunction) : option IRFunction :=
  let body := fn_body func in
  let fuel := S (String.length body) in
  ts ← search_loop fuel thread_pattern1 thread_step body
         (threads_created func);
  ts ← search_loop fuel thread_pattern2 thread_step body ts;
  ts ← search_loop fuel thread_pattern3 thread_step body ts;
  ts ← search_loop fuel detach_pattern detach_step body ts;
  Some (set_threads_created ts func).

Definition lock_step (ty : LockType) (m : smatch) (locks : list LockInfo)
  : list LockInfo :=
  (locks ++ [ {| lock_type := ty;
                 lock_var_name := group_str 1 (m_groups m);
                 mutex_name := group_str 2 (m_groups m) |} ])%list.

Definition detectMutexUsage (func : IRFunction) : option IRFunction :=
  let body := fn_body func in
  let fuel := S (String.length body) in
  ls ← search_loop fuel lock_guard_pattern (lock_step LockGuard) body
         (lock_scopes func);
  ls ← search_loop fuel unique_lock_pattern (lock_step UniqueLock) body ls;
  ls ← search_loop fuel shared_lock_pattern (lock_step SharedLock) body ls;
  Some (set_lock_scopes ls func).

Definition atomic_decl_step (m : smatch) (atomics : list AtomicInfo)
  : list AtomicInfo :=
  let value_type := set_name (group_str 1 (m_groups m)) (new_Type Integer) in
  (atomics ++ [ {| atomic_var_name := group_str 2 (m_groups m);
                   value_type := Some value_type;
                   operations := [] |} ])%list.

(** find the first record of that name and append the operation, or
    report that none was found *)
Fixpoint add_atomic_op (var_name operation : string)
    (atomics : list AtomicInfo) : option (list AtomicInfo) :=
  match atomics with
  | [] => None
  | atomic :: rest =>
      if String.eqb (atomic_var_name atomic) var_name then
        Some ({| atomic_var_name := atomic_var_name atomic;
                 value_type := value_type atomic;
                 operations := operations atomic ++ [operation] |} :: rest)
      else option_map (cons atomic) (add_atomic_op var_name operation rest)
  end.

Definition atomic_op_step (m : smatch) (atomics : list AtomicInfo)
  : list AtomicInfo :=
  let var_name := group_str 1 (m_groups m) in
  let operation := group_str 2 (m_groups m) in
  match add_atomic_op var_name operation atomics with
  | Some atomics' => atomics'
  | None =>
      (atomics ++ [ {| atomic_var_name := var_name; value_type := None;
                       operations := [operation] |} ])%list
  end.

Definition detectAtomicOperations (func : IRFunction) : option IRFunction :=
  let body := fn_body func in
  let fuel := S (String.length body) in
  a ← search_loop fuel atomic_pattern atomic_decl_step body
        (atomic_operations func);
  a ← search_loop fuel atomic_op_pattern atomic_op_step body a;
  Some (set_atomic_operations a func).

Definition cv_decl_step (m : smatch) (cvs : list ConditionVariableInfo)
  : list ConditionVariableInfo :=
  (cvs ++ [ {| cv_var_name := group_str 1 (m_groups m);
               wait_conditions := [] |} ])%list.

Fixpoint add_cv_op (cv_var operation : string)
    (cvs : list ConditionVariableInfo)
  : option (list ConditionVariableInfo) :=
  match cvs with
  | [] => None
  | cv :: rest =>
      if String.eqb (cv_var_name cv) cv_var then
        Some ({| cv_var_name := cv_var_name cv;
                 wait_conditions := wait_conditions cv ++ [operation] |}
              :: rest)
      else option_map (cons cv) (add_cv_op cv_var operation rest)
  end.

Definition cv_op_step (m : smatch) (cvs : list ConditionVariableInfo)
  : list ConditionVariableInfo :=
  let cv_var := group_str 1 (m_groups m) in
  let operation := group_str 2 (m_groups m) in
  match add_cv_op cv_var operation cvs with
  | Some cvs' => cvs'
  | None =>
      (cvs ++ [ {| cv_var_name := cv_var;
                   wait_conditions := [operation] |} ])%list
  end.

Definition detectConditionVariables (func : IRFunction)
  : option IRFunction :=
  let body := fn_body func in
  let fuel := S (String.length body) in
  c ← search_loop fuel cv_pattern cv_decl_step body
        (condition_variables func);
  c ← search_loop fuel cv_op_pattern cv_op_step body c;
  Some (set_condition_variables c func).

Definition analyzeFunction (func : IRFunction) : option IRFunction :=
  func ← detectThreadCreation func;
  func ← detectMutexUsage func;
  func ← detectAtomicOperations func;
  func ← detectConditionVariables func;
  Some (set_uses_threading
          (nonempty (threads_created func) || nonempty (lock_scopes func)
           || nonempty (atomic_operations func)
           || nonempty (condition_variables func))
          func).

End Defaults.

(** *** Classes *)

(** [field.type->kind] dereferences the shared pointer of the field; on a
    null pointer the behaviour is undefined, which is [None] here. *)
Fixpoint detectMutexMembers_loop (fields : list IRVariable)
    (mutexes : list MutexInfo) : option (list MutexInfo) :=
  match fields with
  | [] => Some mutexes
  | field :: rest =>
      type ← var_type field;
      if decide (ty_kind type = StdMutex) then
        detectMutexMembers_loop rest
          (mutexes ++ [ {| mutex_type := Mutex;
                           mutex_var_name := var_name field |} ])
      else if decide (ty_kind type = StdRecursiveMutex) then
        detectMutexMembers_loop rest
          (mutexes ++ [ {| mutex_type := RecursiveMutex;
                           mutex_var_name := var_name field |} ])
      else if decide (ty_kind type = StdSharedMutex) then
        detectMutexMembers_loop rest
          (mutexes ++ [ {| mutex_type := SharedMutex;
                           mutex_var_name := var_name field |} ])
      else detectMutexMembers_loop rest mutexes
  end.

Definition detectMutexMembers (class_decl : ClassDecl) : option ClassDecl :=
  ms ← detectMutexMembers_loop (cls_fields class_decl) (mutexes class_decl);
  Some (set_mutexes ms class_decl).

Fixpoint detectAtomicMembers_loop (fields : list IRVariable)
    (atomics : list AtomicInfo) : option (list AtomicInfo) :=
  match fields with
  | [] => Some atomics
  | field :: rest =>
      type ← var_type field;
      if decide (ty_kind type = StdAtomic) then
        detectAtomicMembers_loop rest
          (atomics ++ [ {| atomic_var_name := var_name field;
                           value_type := ty_element_type type;
                           operations := [] |} ])
      else detectAtomicMembers_loop rest atomics
  end.

Definition detectAtomicMembers (class_decl : ClassDecl) : option ClassDecl :=
  a ← detectAtomicMembers_loop (cls_fields class_decl)
        (atomic_fields class_decl);
  Some (set_atomic_fields a class_decl).

Definition analyzeClass (class_decl : ClassDecl) : option ClassDecl :=
  class_decl ← detectMutexMembers class_decl;
  class_decl ← detectAtomicMembers class_decl;
  Some (set_thread_safe
          (nonempty (mutexes class_decl)
           || nonempty (atomic_fields class_decl))
          class_decl).

(** the kinds [detectMutexMembers] recognises *)
Definition is_mutex_kind (k : TypeKind) : bool :=
  match k with
  | StdMutex | StdRecursiveMutex | StdSharedMutex => true
  | _ => false
  end.

Definition is_atomic_kind (k : TypeKind) : bool :=
  match k with
  | StdAtomic => true
  | _ => false
  end.

Definition field_has_kind (p : TypeKind → bool) (field : IRVariable) : bool :=
  match var_type field with
  | Some type => p (ty_kind type)
  | None => false
  end.

(** the contract of the front end: every field carries its type *)
Definition typed_fields (c : ClassDecl) : Prop :=
  Forall (λ field, is_Some (var_type field)) (cls_fields c).

End ThreadAnalyzer.

(** ** ThreadingTypeMapper *)

Module ThreadingTypeMapper.

Definition unknown_threading_type : string := "/* Unknown threading type */".

Definition getRustThreadingType (kind : TypeKind) : string :=
  match kind with
  | StdThread => "std::thread::JoinHandle"
  | StdMutex => "std::sync::Mutex"
  | StdRecursiveMutex => "parking_lot::ReentrantMutex"
  | StdSharedMutex => "std::sync::RwLock"
  | StdConditionVariable => "std::sync::Condvar"
  | StdAtomic => "std::sync::atomic::Atomic"
  | StdLockGuard => "MutexGuard"
  | StdUniqueLock => "MutexGuard"
  | StdSharedLock => "RwLockReadGuard"
  | _ => unknown_threading_type
  end.

Definition getGoThreadingType (kind : TypeKind) : string :=
  match kind with
  | StdThread => "goroutine"
  | StdMutex => "sync.Mutex"
  | StdRecursiveMutex => "sync.Mutex"
  | StdSharedMutex => "sync.RWMutex"
  | StdConditionVariable => "sync.Cond"
  | StdAtomic => "atomic"
  | StdLockGuard => "defer unlock"
  | StdUniqueLock => "defer unlock"
  | StdSharedLock => "defer RUnlock"
  | _ => unknown_threading_type
  end.

Definition getRustAtomicType (cpp_type : string) : string :=
  if String.eqb cpp_type "int" || String.eqb cpp_type "int32_t"
  then "AtomicI32"
  else if String.eqb cpp_type "long" || String.eqb cpp_type "int64_t"
  then "AtomicI64"
  else if String.eqb cpp_type "unsigned int" || String.eqb cpp_type "uint32_t"
  then "AtomicU32"
  else if String.eqb cpp_type "unsigned long" || String.eqb cpp_type "uint64_t"
  then "AtomicU64"
  else if String.eqb cpp_type "bool" then "AtomicBool"
  else if String.eqb cpp_type "size_t" || String.eqb cpp_type "usize"
  then "AtomicUsize"
  else if String.eqb cpp_type "ptrdiff_t" || String.eqb cpp_type "isize"
  then "AtomicIsize"
  else "AtomicUsize".

Definition getGoAtomicType (cpp_type : string) : string :=
  if String.eqb cpp_type "int" || String.eqb cpp_type "int32_t"
  then "atomic.Int32"
  else if String.eqb cpp_type "long" || String.eqb cpp_type "int64_t"
  then "atomic.Int64"
  else if String.eqb cpp_type "unsigned int" || String.eqb cpp_type "uint32_t"
  then "atomic.Uint32"
  else if String.eqb cpp_type "unsigned long" || String.eqb cpp_type "uint64_t"
  then "atomic.Uint64"
  else if String.eqb cpp_type "bool" then "atomic.Bool"
  else if Str.contains cpp_type "*" then "atomic.Pointer"
  else "atomic.Value".

End ThreadingTypeMapper.

(** ** STLContainerMapper *)

Module STLContainerMapper.

(** the character set of [trim]: space, tab, newline, carriage return *)
Definition trim_set : string := ThreadAnalyzer.trim_set.

Definition trim (str : string) : string :=
  match Str.find_first_not_of trim_set str with
  | None => ""
  | Some start =>
      match Str.find_last_not_of trim_set str with
      | Some end_ => substring start (end_ - start + 1) str
      | None => ""
      end
  end.

Definition extractContainerName (type_str : string) : string :=
  match Str.find_char "<" type_str with
  | Some pos =>
      let name := substring 0 pos type_str in
      if bool_decide (Str.find name "std::" = Some 0)
      then Str.substr_from 5 name
      else name
  | None => type_str
  end.

Definition push_arg (arg : string) (args : list string) : list string :=
  let arg := trim arg in
  if Str.is_empty arg then args else (args ++ [arg])%list.

(** The [for (size_t i = 0; i < args_str.length(); ++i)] loop of
    [extractTemplateArgs] and the code after it. [rest] is the part of
    [args_str] from index [i] on; [depth] is an [int]. *)
Fixpoint split_loop (args_str : string) (rest : string) (i : nat)
    (depth : Z) (last : nat) (args : list string) : list string :=
  match rest with
  | EmptyString => push_arg (Str.substr_from last args_str) args
  | String c rest' =>
      if Ascii.eqb c "<" then
        split_loop args_str rest' (S i) (depth + 1) last args
      else if Ascii.eqb c ">" then
        split_loop args_str rest' (S i) (depth - 1) last args
      else if Ascii.eqb c "," && (depth =? 0)%Z then
        let args := push_arg (substring last (i - last) args_str) args in
        split_loop args_str rest' (S i) depth (S i) args
      else split_loop args_str rest' (S i) depth last args
  end.

Definition extractTemplateArgs (type_str : string) : list string :=
  match Str.find_char "<" type_str, Str.rfind_char ">" type_str with
  | Some start, Some end_ =>
      if (end_ <=? start)%nat then []
      else
        let args_str := substring (start + 1) (end_ - start - 1) type_str in
        split_loop args_str args_str 0 0 0 []
  | _, _ => []
  end.

(** *** What the specification calls a top-level argument list *)

(** Scan of one argument: [Some d] is the nesting depth reached; the
    scan fails on a comma at depth 0 and on a closing bracket that
    nothing opened. *)
Fixpoint arg_scan (s : string) (depth : nat) : option nat :=
  match s with
  | EmptyString => Some depth
  | String c s' =>
      if Ascii.eqb c "<" then arg_scan s' (S depth)
      else if Ascii.eqb c ">" then
        match depth with
        | O => None
        | S d => arg_scan s' d
        end
      else if Ascii.eqb c "," then
        match depth with
        | O => None
        | S _ => arg_scan s' depth
        end
      else arg_scan s' depth
  end.

Fixpoint is_blank (s : string) : bool :=
  match s with
  | EmptyString => true
  | String c s' => Str.mem c trim_set && is_blank s'
  end.

(** An argument: angle brackets properly nested, every comma inside a
    bracket pair, and some character that is not white space. *)
Definition is_template_arg (s : string) : Prop :=
  arg_scan s 0 = Some 0 ∧ is_blank s = false.

(** the arguments written one after the other, separated by commas *)
Fixpoint join_args (args : list string) : string :=
  match args with
  | [] => ""
  | [a] => a
  | a :: args' => a ++ "," ++ join_args args'
  end.

(** *** Mapping a container type *)

Definition containers : list string :=
  [ "std::vector"; "vector"; "std::list"; "list"; "std::deque"; "deque";
    "std::map"; "map"; "std::unordered_map"; "unordered_map";
    "std::set"; "set"; "std::unordered_set"; "unordered_set";
    "std::string"; "string"; "std::pair"; "pair";
    "std::optional"; "optional" ].

Definition isSTLContainer (type_name : string) : bool :=
  existsb (λ container, Str.contains type_name container) containers.

Definition kind_map : gmap string TypeKind :=
  list_to_map
    [ ("vector", StdVector); ("list", StdList); ("deque", StdDeque);
      ("map", StdMap); ("unordered_map", StdUnorderedMap); ("set", StdSet);
      ("unordered_set", StdUnorderedSet); ("string", StdString);
      ("pair", StdPair); ("optional", StdOptional) ].

Definition getSTLContainerKind (name : string) : TypeKind :=
  match kind_map !! name with
  | Some k => k
  | None => Template
  end.

(** the private table of the container mapper, smaller than the one of
    the type mapper *)
Definition builtin_map : gmap string TypeKind :=
  list_to_map
    [ ("int", Integer); ("unsigned int", Integer); ("long", Integer);
      ("unsigned long", Integer); ("short", Integer);
      ("unsigned short", Integer); ("char", Integer);
      ("unsigned char", Integer); ("float", Float); ("double", Float);
      ("bool", Bool); ("void", Void) ].

(** the private [mapBuiltinType]: an unknown name becomes a class *)
Definition mapBuiltinType (type_name : string) : IRType :=
  match builtin_map !! type_name with
  | Some k => set_name type_name (new_Type k)
  | None => set_name type_name (new_Type Class)
  end.

(** [mapTypeRecursive], given the function to call for a container *)
Definition mapTypeRecursive_with (container : string → option (option IRType))
    (type_str : string) : option (option IRType) :=
  let trimmed := trim type_str in
  if isSTLContainer trimmed then container trimmed
  else Some (Some (mapBuiltinType trimmed)).

(** the [for (const auto& arg : template_args)] loop of [mapSTLContainer]:
    an argument that maps to null is left out *)
Fixpoint map_args (container : string → option (option IRType))
    (template_args : list string) (mapped : list IRType)
  : option (list IRType) :=
  match template_args with
  | [] => Some mapped
  | arg :: rest =>
      arg_type ← mapTypeRecursive_with container arg;
      map_args container rest
        (match arg_type with
         | Some t => mapped ++ [t]
         | None => mapped
         end)
  end.

(** [mapSTLContainer] and [mapTypeRecursive] call each other on the
    template arguments; [fuel] bounds the depth of the calls and the outer
    [None] means the bound was reached. The inner [None] is the null
    pointer returned for an unknown container. *)
Fixpoint mapSTLContainer_fuel (fuel : nat) (cpp_type : string)
  : option (option IRType) :=
  match fuel with
  | O => None
  | S fuel' =>
      let container_name := extractContainerName cpp_type in
      let template_args := extractTemplateArgs cpp_type in
      let kind := getSTLContainerKind container_name in
      if decide (kind = Template) then Some None
      else
        let type := set_name container_name (new_Type kind) in
        args ← map_args (mapSTLContainer_fuel fuel') template_args [];
        Some (Some (set_template_args args type))
  end.

Definition mapSTLContainer (cpp_type : string) : option (option IRType) :=
  mapSTLContainer_fuel (S (String.length cpp_type)) cpp_type.

Definition mapTypeRecursive (type_str : string) : option (option IRType) :=
  mapTypeRecursive_with mapSTLContainer type_str.

(** *** Target types *)

Definition rust_integer (name : string) : string :=
  if String.eqb name "int" then "i32"
  else if String.eqb name "unsigned int" then "u32"
  else if String.eqb name "long" then "i64"
  else if String.eqb name "unsigned long" then "u64"
  else if String.eqb name "short" then "i16"
  else if String.eqb name "unsigned short" then "u16"
  else if String.eqb name "char" then "i8"
  else if String.eqb name "unsigned char" then "u8"
  else if Str.contains name "int8_t" then "i8"
  else if Str.contains name "int16_t" then "i16"
  else if Str.contains name "int32_t" then "i32"
  else if Str.contains name "int64_t" then "i64"
  else if Str.contains name "uint8_t" then "u8"
  else if Str.contains name "uint16_t" then "u16"
  else if Str.contains name "uint32_t" then "u32"
  else if Str.contains name "uint64_t" then "u64"
  else if Str.contains name "size_t" then "usize"
  else "i32".

Definition go_integer (name : string) : string :=
  if String.eqb name "int" then "int32"
  else if String.eqb name "unsigned int" then "uint32"
  else if String.eqb name "long" then "int64"
  else if String.eqb name "unsigned long" then "uint64"
  else if String.eqb name "short" then "int16"
  else if String.eqb name "unsigned short" then "uint16"
  else if String.eqb name "char" then "int8"
  else if String.eqb name "unsigned char" then "uint8"
  else if Str.contains name "size_t" then "uint64"
  else "int32".

(** [getRustEquivalent] on a type that is not null. The elements of
    [template_args] are not null: [mapSTLContainer] pushes no null
    pointer. *)
Fixpoint getRustEquivalent_type (type : IRType) : string :=
  let arg0 :=
    match ty_template_args type with
    | a :: _ => Some (getRustEquivalent_type a)
    | [] => None
    end in
  let arg01 :=
    match ty_template_args type with
    | a :: b :: _ => Some (getRustEquivalent_type a, getRustEquivalent_type b)
    | _ => None
    end in
  let one (open : string) : string :=
    match arg0 with
    | Some a => open ++ a ++ ">"
    | None => open ++ "()>"
    end in
  match ty_kind type with
  | StdVector => one "Vec<"
  | StdList => one "std::collections::LinkedList<"
  | StdDeque => one "std::collections::VecDeque<"
  | StdMap =>
      match arg01 with
      | Some (a, b) => "std::collections::BTreeMap<" ++ a ++ ", " ++ b ++ ">"
      | None => "std::collections::BTreeMap<(), ()>"
      end
  | StdUnorderedMap =>
      match arg01 with
      | Some (a, b) => "std::collections::HashMap<" ++ a ++ ", " ++ b ++ ">"
      | None => "std::collections::HashMap<(), ()>"
      end
  | StdSet => one "std::collections::BTreeSet<"
  | StdUnorderedSet => one "std::collections::HashSet<"
  | StdString => "String"
  | StdPair =>
      match arg01 with
      | Some (a, b) => "(" ++ a ++ ", " ++ b ++ ")"
      | None => "((), ())"
      end
  | StdOptional => one "Option<"
  | Integer => rust_integer (ty_name type)
  | Float =>
      if String.eqb (ty_name type) "float" then "f32"
      else if String.eqb (ty_name type) "double" then "f64"
      else "f64"
  | Bool => "bool"
  | Void => "()"
  | _ => ty_name type
  end.

Definition getRustEquivalent (type : option IRType) : string :=
  match type with
  | None => "()"
  | Some type => getRustEquivalent_type type
  end.

Fixpoint getGoEquivalent_type (type : IRType) : string :=
  let arg0 :=
    match ty_template_args type with
    | a :: _ => Some (getGoEquivalent_type a)
    | [] => None
    end in
  let arg01 :=
    match ty_template_args type with
    | a :: b :: _ => Some (getGoEquivalent_type a, getGoEquivalent_type b)
    | _ => None
    end in
  match ty_kind type with
  | StdVector | StdList | StdDeque =>
      match arg0 with
      | Some a => "[]" ++ a
      | None => "[]interface{}"
      end
  | StdMap | StdUnorderedMap =>
      match arg01 with
      | Some (a, b) => "map[" ++ a ++ "]" ++ b
      | None => "map[interface{}]interface{}"
      end
  | StdSet | StdUnorderedSet =>
      match arg0 with
      | Some a => "map[" ++ a ++ "]bool"
      | None => "map[interface{}]bool"
      end
  | StdString => "string"
  | StdPair =>
      match arg01 with
      | Some (a, b) => "struct { First " ++ a ++ "; Second " ++ b ++ " }"
      | None => "struct { First interface{}; Second interface{} }"
      end
  | StdOptional =>
      match arg0 with
      | Some a => "*" ++ a
      | None => "*interface{}"
      end
  | Integer => go_integer (ty_name type)
  | Float =>
      if String.eqb (ty_name type) "float" then "float32"
      else if String.eqb (ty_name type) "double" then "float64"
      else "float64"
  | Bool => "bool"
  | Void => "interface{}"
  | _ => ty_name type
  end.

Definition getGoEquivalent (type : option IRType) : string :=
  match type with
  | None => "interface{}"
  | Some type => getGoEquivalent_type type
  end.

End STLContainerMapper.

(** a type as the container mapper builds it: a container whose kind is
    the one the kind table gives for its name, with arguments built the
    same way, or a leaf without arguments whose name is not taken for a
    container and whose kind is the builtin kind of the name, [Class] for
    a name that is not builtin *)
Inductive mapped_type : IRType → Prop :=
| mapped_container (t : IRType) :
    STLContainerMapper.kind_map !! ty_name t = Some (ty_kind t) →
    Forall mapped_type (ty_template_args t) →
    mapped_type t
| mapped_leaf (t : IRType) :
    STLContainerMapper.isSTLContainer (ty_name t) = false →
    ty_kind t = default Class (STLContainerMapper.builtin_map !! ty_name t) →
    ty_template_args t = [] →
    mapped_type t.

(** ** The writes of a generator *)

Module Emission.

(** Modelled from the spec: the generators of the two targets are not
    under src/. What a generator does with the base class is a sequence of
    steps: it writes a line with [writeLine], writes to the stream
    directly, or changes the indent level. *)
Inductive step :=
| Line (text : string)     (* writeLine(text) *)
| Write (text : string)    (* output_ << text *)
| Indent                   (* ++indent_level_ *)
| Dedent.                  (* --indent_level_ *)

Definition run_step (st : step) (g : CodeGenerator) : CodeGenerator :=
  match st with
  | Line text => writeLine text g
  | Write text => {| output_ := output_ g ++ text;
                     indent_level_ := indent_level_ g |}
  | Indent => {| output_ := output_ g;
                 indent_level_ := (indent_level_ g + 1)%Z |}
  | Dedent => {| output_ := output_ g;
                 indent_level_ := (indent_level_ g - 1)%Z |}
  end.

Definition run (steps : list step) (g : CodeGenerator) : CodeGenerator :=
  fold_left (λ g st, run_step st g) steps g.

(** the text a run appends, as a function of the entry indent level *)
Fixpoint indent_text (n : nat) : string :=
  match n with
  | O => ""
  | S n' => "    " ++ indent_text n'
  end.

Definition line_text (level : Z) (text : string) : string :=
  (if Str.is_empty text then "" else indent_text (Z.to_nat level) ++ text)
  ++ String "010" "".

Fixpoint render (level : Z) (steps : list step) : string :=
  match steps with
  | [] => ""
  | Line text :: steps' => line_text level text ++ render level steps'
  | Write text :: steps' => text ++ render level steps'
  | Indent :: steps' => render (level + 1) steps'
  | Dedent :: steps' => render (level - 1) steps'
  end.

End Emission.

(** ** Notions used to state what the analyzers record *)

Module Recorded.
Import Regex RegexSpec.

(** a non-empty run of identifier characters *)
Definition is_identifier (s : string) : bool :=
  negb (Str.is_empty s) && str_all is_word s.

Definition has_char (c : ascii) (s : string) : bool :=
  negb (str_all (λ d, negb (Ascii.eqb d c)) s).

(** the scan [parseArguments] makes of one argument: the two depths
    after it, or [None] when a comma is met while both depths are 0 *)
Fixpoint arg_scan (s : string) (paren_depth bracket_depth : Z)
  : option (Z * Z) :=
  match s with
  | EmptyString => Some (paren_depth, bracket_depth)
  | String c s' =>
      if Ascii.eqb c "(" || Ascii.eqb c "{" then
        arg_scan s' (paren_depth + 1) bracket_depth
      else if Ascii.eqb c ")" || Ascii.eqb c "}" then
        arg_scan s' (paren_depth - 1) bracket_depth
      else if Ascii.eqb c "[" then
        arg_scan s' paren_depth (bracket_depth + 1)
      else if Ascii.eqb c "]" then
        arg_scan s' paren_depth (bracket_depth - 1)
      else if Ascii.eqb c "," && (paren_depth =? 0)%Z
              && (bracket_depth =? 0)%Z then None
      else arg_scan s' paren_depth bracket_depth
    end.

(** an argument of a call: both depths are back at 0 at its end, every
    comma in it is met at another depth, and it is not blank *)
Definition is_call_arg (s : string) : Prop :=
  arg_scan s 0 0 = Some (0%Z, 0%Z) ∧ STLContainerMapper.is_blank s = false.

(** the first or last character of [s] is white space *)
Definition starts_blank (s : string) : bool :=
  match s with
  | String c _ => Str.mem c ThreadAnalyzer.trim_set
  | EmptyString => false
  end.

Fixpoint ends_blank (s : string) : bool :=
  match s with
  | EmptyString => false
  | String c EmptyString => Str.mem c ThreadAnalyzer.trim_set
  | String _ s' => ends_blank s'
  end.

(** the text without its leading white space, and without its trailing
    white space *)
Fixpoint ltrim (s : string) : string :=
  match s with
  | EmptyString => ""
  | String c s' => if Str.mem c ThreadAnalyzer.trim_set then ltrim s' else s
  end.

Fixpoint rtrim (s : string) : string :=
  match s with
  | EmptyString => ""
  | String c s' =>
      match rtrim s' with
      | EmptyString =>
          if Str.mem c ThreadAnalyzer.trim_set then "" else String c ""
      | t => String c t
      end
  end.

(** a text that [trim] leaves as it is and that is not empty *)
Definition is_trimmed (s : string) : Prop :=
  Str.is_empty s = false ∧ starts_blank s = false ∧ ends_blank s = false.

(** a text without white space at its ends, not empty, that occurs in
    [text] *)
Definition trimmed_piece (text arg : string) : Prop :=
  is_trimmed arg ∧ Str.contains text arg = true.

(** the operations the two operation patterns look for *)
Definition atomic_operation_names : list string :=
  [ "load"; "store"; "fetch_add"; "fetch_sub"; "exchange";
    "compare_exchange_weak"; "compare_exchange_strong" ].

Definition cv_operation_names : list string :=
  [ "wait"; "notify_one"; "notify_all"; "wait_for"; "wait_until" ].

(** what the patterns of the thread analyzer guarantee of a record *)
Definition thread_ok (t : ThreadInfo) : Prop :=
  is_identifier (thread_var_name t) = true
  ∧ is_identifier (function_name t) = true
  ∧ Forall is_trimmed (arguments t)
  ∧ (Forall (λ arg, has_char ")" arg = false) (arguments t)
     ∨ Forall (λ arg, has_char "}" arg = false) (arguments t)).

Definition lock_ok (l : LockInfo) : Prop :=
  is_identifier (lock_var_name l) = true
  ∧ is_identifier (mutex_name l) = true.

Definition atomic_ok (a : AtomicInfo) : Prop :=
  is_identifier (atomic_var_name a) = true
  ∧ Forall (λ op, In op atomic_operation_names) (operations a)
  ∧ match value_type a with
    | Some t => ty_kind t = Integer ∧ Str.is_empty (ty_name t) = false
    | None => operations a ≠ []
    end.

Definition cv_ok (c : ConditionVariableInfo) : Prop :=
  is_identifier (cv_var_name c) = true
  ∧ Forall (λ op, In op cv_operation_names) (wait_conditions c).

Definition recorded_ok (func : IRFunction) : Prop :=
  Forall thread_ok (threads_created func)
  ∧ Forall lock_ok (lock_scopes func)
  ∧ Forall atomic_ok (atomic_operations func)
  ∧ Forall cv_ok (condition_variables func).

(** characters other than [&], and characters that are no white space
    other than the space character *)
Definition not_amp (c : ascii) : bool := negb (Ascii.eqb c "&").

Definition plain_space (c : ascii) : bool :=
  negb (is_space c) || Ascii.eqb c " ".

(** a character of a type name or a variable name in a catch clause:
    no white space and no [&] *)
Definition token_char (c : ascii) : bool := negb (is_space c) && not_amp c.

(** a text of such characters, not empty, in which [const] does not
    occur *)
Definition is_token (s : string) : Prop :=
  Str.is_empty s = false ∧ str_all token_char s = true
  ∧ Str.contains s "const" = false.

(** the flags of a thread record: those a new record gets, or those the
    detach scan sets *)
Definition flags_ok (default_detached default_joinable : bool)
    (t : ThreadInfo) : Prop :=
  (detached t = default_detached ∧ joinable t = default_joinable)
  ∨ (detached t = true ∧ joinable t = false).

(** a thread record without its flags *)
Definition thread_site (t : ThreadInfo) : string * string * list string :=
  (thread_var_name t, function_name t, arguments t).

(** what the try/catch pattern guarantees of a block *)
Definition block_ok (b : TryCatchBlock) : Prop :=
  has_char "}" (try_body b) = false
  ∧ ∃ clause, catch_clauses b = [ clause ]
              ∧ has_char "}" (handler_body clause) = false.

End Recorded.

(** ** Sample inputs *)

(** a class without fields, and a type of another kind and name *)
Definition point_class : ClassDecl :=
  {| cls_name := "Point"; cls_is_struct := false; cls_fields := [];
     cls_methods := []; cls_base_classes := []; cls_is_template := false;
     cls_template_params := []; cls_access_sections := [];
     mutexes := []; atomic_fields := []; thread_safe := false |}.

Definition int_type : IRType := set_name "int" (new_Type Integer).

(** the programs built from the empty one without [registerType] *)
Inductive built : IR → Prop :=
| built_empty : built empty_IR
| built_class ir cd : built ir → built (addClass cd ir)
| built_function ir f : built ir → built (addFunction f ir)
| built_global ir v : built ir → built (addGlobalVariable v ir).

(** a function as the front end hands it over: a name and a body, no
    annotation yet *)
Definition plain_function (name body : string) : IRFunction :=
  {| fn_name := name; fn_return_type := None; fn_parameters := [];
     fn_body := body; fn_is_const := false; fn_is_static := false;
     fn_is_virtual := false; fn_is_pure_virtual := false;
     fn_is_constructor := false; fn_is_destructor := false;
     moved_params := []; borrowed_params := [];
     try_catch_blocks := [];
     exception_spec := {| is_noexcept := false; can_throw := false |};
     may_throw := false;
     threads_created := []; lock_scopes := []; atomic_operations := [];
     condition_variables := []; uses_threading := false |}.

(** a field of a given kind *)
Definition field_of_kind (name : string) (k : TypeKind) : IRVariable :=
  {| var_name := name; var_type := Some (new_Type k); var_is_static := false;
     var_is_const := false; var_initializer := "" |}.

(** a class with one mutex field and one atomic field *)
Definition counter_class : ClassDecl :=
  {| cls_name := "Counter"; cls_is_struct := false;
     cls_fields := [ field_of_kind "mtx" StdMutex;
                     field_of_kind "count" StdAtomic ];
     cls_methods := []; cls_base_classes := []; cls_is_template := false;
     cls_template_params := []; cls_access_sections := [];
     mutexes := []; atomic_fields := []; thread_safe := false |}.

(** the nested text of the specification, with protected body [B] and
    handler [H]: an inner try with a typed handler inside an outer try with
    a catch-all handler *)
Definition nested_try_catch (B H : string) : string :=
  "try { try {" ++ B ++ "} catch(RuntimeError e){" ++ H ++ "} } catch(...) {}".

(** a single try with a catch-all handler *)
Definition catch_all_try (B H : string) : string :=
  "try {" ++ B ++ "} catch(...) {" ++ H ++ "}".




(** a text in the shape of the try/catch pattern, followed by [rest] *)
Definition try_catch_text (ws1 tb ws2 ws3 cp ws4 hb rest : string) : string :=
  "try" ++ ws1 ++ "{" ++ tb ++ "}" ++ ws2 ++ "catch" ++ ws3 ++ "(" ++ cp
  ++ ")" ++ ws4 ++ "{" ++ hb ++ "}" ++ rest.

(** ** Notions about the text of a body *)

Module Surface.
Import Regex RegexSpec.

(** [needle] occurs in [text] *)
Definition occurs (needle text : string) : Prop :=
  ∃ a b, text = a ++ needle ++ b.

(** the keyword [throw] followed by a white-space character occurs in
    [body] *)
Definition throw_then_space (body : string) : Prop :=
  ∃ a c b, body = a ++ "throw" ++ String c b ∧ is_space c = true.

(** a try/catch statement occurs in [body], as the detector reads one:
    [try], an opening brace, a protected text without a closing brace,
    the closing brace, [catch], a parameter between parentheses that is
    not empty and has no closing parenthesis, and a handler between braces
    without a closing brace, with any white space between the parts *)
Definition try_catch_region (body : string) : Prop :=
  ∃ pre ws1 B ws2 ws3 P ws4 H rest,
    body = pre ++ try_catch_text ws1 B ws2 ws3 P ws4 H rest
    ∧ Forall (λ ws, str_all is_space ws = true) [ ws1; ws2; ws3; ws4 ]
    ∧ str_all not_rbrace B = true ∧ str_all not_rbrace H = true
    ∧ Str.is_empty P = false ∧ Recorded.has_char ")" P = false.




End Surface.

(** * Properties *)

(** ** Facts about strings *)

Section StringFacts.

Lemma sapp_cons (c : ascii) (s t : string) :
  String c s ++ t = String c (s ++ t).
Proof. reflexivity. Qed.

Lemma sapp_nil_l (s : string) : "" ++ s = s.
Proof. reflexivity. Qed.

Lemma sapp_nil_r (s : string) : s ++ "" = s.
Proof. induction s as [ | c s IH ]; [ done | ]. by rewrite sapp_cons, IH. Qed.

Lemma sapp_assoc (s t u : string) : (s ++ t) ++ u = s ++ t ++ u.
Proof.
  induction s as [ | c s IH ]; [ done | ]. by rewrite !sapp_cons, IH.
Qed.

Lemma slength_app (s t : string) :
  String.length (s ++ t) = String.length s + String.length t.
Proof.
  induction s as [ | c s IH ]; [ done | ].
  rewrite sapp_cons. cbn. by rewrite IH.
Qed.

Lemma substring_0_app (s t : string) :
  substring 0 (String.length s) (s ++ t) = s.
Proof.
  induction s as [ | c s IH ]; cbn.
  - by destruct t.
  - rewrite sapp_cons. cbn. by rewrite IH.
Qed.

Lemma substring_skip (s t : string) (n : nat) :
  substring (String.length s) n (s ++ t) = substring 0 n t.
Proof.
  induction s as [ | c s IH ]; [ done | ]. rewrite sapp_cons. cbn. apply IH.
Qed.

Lemma substring_all (s : string) : substring 0 (String.length s) s = s.
Proof. rewrite <- (sapp_nil_r s) at 2. apply substring_0_app. Qed.

End StringFacts.

(** ** The builtin type table *)

Section BuiltinTypes.
Import TypeMapper.

Lemma mapBuiltinType_fields (name : string) (k : TypeKind) :
  builtin_map !! name = Some k →
  mapBuiltinType name
  = Some {| ty_kind := k; ty_name := name; ty_is_const := false;
            ty_is_mutable := true; ty_element_type := None;
            ty_template_args := [];
            ty_size_bytes := getSizeForType name;
            ty_alignment := getSizeForType name |}.
Proof. intros H. unfold mapBuiltinType. by rewrite H. Qed.

(** every name of the kind table has a row in the size table *)
Lemma builtin_map_sized (name : string) (k : TypeKind) :
  builtin_map !! name = Some k →
  size_map !! name = Some (getSizeForType name).
Proof.
  intros H. apply elem_of_list_to_map_2 in H.
  repeat (apply elem_of_cons in H as [H | H];
          [ injection H as -> _; vm_compute; reflexivity | ]).
  by apply elem_of_nil in H.
Qed.

(** C3: for every name of the builtin table, [mapBuiltinType] succeeds
    with the kind of the table and that name, [size_bytes] is the
    documented size of the name (0, 1, 2, 4 or 8 bytes, by the width the
    name stands for), [alignment] equals [size_bytes], and mapping the name
    of the result gives the same type again (kind, name, size and
    alignment, and every other field). *)
Theorem mapBuiltinType_size_idempotent (name : string) (k : TypeKind) :
  builtin_map !! name = Some k →
  ∃ t, mapBuiltinType name = Some t
       ∧ ty_kind t = k
       ∧ ty_name t = name
       ∧ documented_size name = Some (ty_size_bytes t)
       ∧ ty_alignment t = ty_size_bytes t
       ∧ mapBuiltinType (ty_name t) = Some t.
Proof.
  intros H. eexists. split; [ by apply mapBuiltinType_fields | ].
  cbn. repeat split; try done.
  - apply elem_of_list_to_map_2 in H.
    repeat (apply elem_of_cons in H as [H | H];
            [ injection H as -> _; vm_compute; reflexivity | ]).
    by apply elem_of_nil in H.
  - by apply mapBuiltinType_fields.
Qed.

Lemma mapBuiltinType_size_idempotent_witness :
  builtin_map !! "int" = Some Integer
  ∧ ∃ t, mapBuiltinType "int" = Some t
         ∧ ty_kind t = Integer
         ∧ ty_name t = "int"
         ∧ documented_size "int" = Some (ty_size_bytes t)
         ∧ ty_size_bytes t = 4%Z
         ∧ ty_alignment t = 4%Z
         ∧ mapBuiltinType (ty_name t) = Some t.
Proof.
  split; [ reflexivity | ].
  destruct (mapBuiltinType_size_idempotent "int" Integer eq_refl)
    as (t & Hm & Hk & Hn & Hs & Ha & Hi).
  change (documented_size "int") with (Some 4%Z) in Hs.
  injection Hs as Hs. exists t. rewrite Ha, <- Hs. by repeat split.
Defined.

(** the sizes of the table, read off by width *)
Example builtin_sizes :
  map getSizeForType
    [ "void"; "bool"; "char"; "short"; "int"; "long"; "long long";
      "unsigned char"; "unsigned short"; "unsigned int"; "unsigned long";
      "unsigned long long"; "int8_t"; "int16_t"; "int32_t"; "int64_t";
      "uint8_t"; "uint16_t"; "uint32_t"; "uint64_t"; "size_t"; "float";
      "double" ]
  = [ 0; 1; 1; 2; 4; 8; 8; 1; 2; 4; 8; 8; 1; 2; 4; 8; 1; 2; 4; 8; 8; 4; 8 ]%Z.
Proof. vm_compute. reflexivity. Qed.

(** the checks of the type-mapping tests of the repository *)
Example type_mapping_tests (w : Z) :
  let int_type := mapBuiltinType "int" in
  (ty_kind <$> int_type = Some Integer
   ∧ ty_name <$> int_type = Some "int"
   ∧ ty_size_bytes <$> int_type = Some 4%Z)
  ∧ (ty_kind (mapPointerType w int_type) = Pointer
     ∧ ty_element_type (mapPointerType w int_type) = int_type)
  ∧ (ty_kind (mapReferenceType w int_type true) = Reference
     ∧ ty_is_const (mapReferenceType w int_type true) = true
     ∧ ty_element_type (mapReferenceType w int_type true) = int_type)
  ∧ (ty_kind (mapArrayType int_type 10) = Array
     ∧ ty_element_type (mapArrayType int_type 10) = int_type
     ∧ ty_size_bytes (mapArrayType int_type 10) = 40%Z
     ∧ ty_name (mapArrayType int_type 10) = "int[10]")
  ∧ (ty_kind (mapSmartPointer w "unique_ptr<int>" int_type) = Pointer
     ∧ ty_element_type (mapSmartPointer w "unique_ptr<int>" int_type)
       = int_type).
Proof. vm_compute. repeat split. Qed.

(** a name outside the table yields no type *)
Example mapBuiltinType_unknown : mapBuiltinType "Point" = None.
Proof. vm_compute. reflexivity. Qed.

End BuiltinTypes.

(** ** Ownership classification *)

Section Ownership.
Import MemoryPatternAnalyzer.

(** C5: [analyzePointerPattern] assigns one pattern to every type. For a
    pointer the name decides: the unique-pointer marker gives
    [UniqueOwnership]; otherwise the shared-pointer marker gives
    [SharedOwnership]; otherwise [RawPointer]. For a reference the
    constness decides: [BorrowedReference] exactly when [is_const] is
    set, [MutableBorrow] exactly when it is not. Every other kind, and
    the null type, gives [ValueSemantics]. *)
Theorem analyzePointerPattern_classification (t : IRType) :
  let p := analyzePointerPattern (Some t) in
  match ty_kind t with
  | Pointer =>
      if Str.contains (ty_name t) "unique_ptr" then p = UniqueOwnership
      else if Str.contains (ty_name t) "shared_ptr" then p = SharedOwnership
      else p = RawPointer
  | Reference =>
      (p = BorrowedReference ↔ ty_is_const t = true)
      ∧ (p = MutableBorrow ↔ ty_is_const t = false)
      ∧ (p = BorrowedReference ∨ p = MutableBorrow)
      ∧ ¬ (p = BorrowedReference ∧ p = MutableBorrow)
  | _ => p = ValueSemantics
  end.
Proof.
  destruct t as [k n c m e a sz al]; cbn.
  destruct k; cbn; try reflexivity.
  - destruct (Str.contains n "unique_ptr"); [ reflexivity | ].
    destruct (Str.contains n "shared_ptr"); reflexivity.
  - destruct c; repeat split; try done; try (by left); try (by right);
      intros [? ?]; done.
Qed.

Lemma analyzePointerPattern_null : analyzePointerPattern None = ValueSemantics.
Proof. reflexivity. Qed.

(** the smart pointers built by the type mapper are classified by name *)
Example analyzePointerPattern_smart (w : Z) (e : option IRType) :
  analyzePointerPattern (Some (TypeMapper.mapSmartPointer w "unique_ptr<int>" e))
  = UniqueOwnership
  ∧ analyzePointerPattern
      (Some (TypeMapper.mapSmartPointer w "std::shared_ptr<int>" e))
    = SharedOwnership
  ∧ analyzePointerPattern
      (Some (TypeMapper.mapPointerType w (TypeMapper.mapBuiltinType "int")))
    = RawPointer
  ∧ analyzePointerPattern
      (Some (TypeMapper.mapReferenceType w (TypeMapper.mapBuiltinType "int") true))
    = BorrowedReference
  ∧ analyzePointerPattern
      (Some (TypeMapper.mapReferenceType w (TypeMapper.mapBuiltinType "int") false))
    = MutableBorrow.
Proof. repeat split. Qed.

(** the unique-pointer marker is looked for first *)
Example analyzePointerPattern_both_markers (w : Z) :
  analyzePointerPattern
    (Some (TypeMapper.mapSmartPointer w "shared_ptr<unique_ptr<int>>" None))
  = UniqueOwnership.
Proof. reflexivity. Qed.

End Ownership.

(** ** The IR container and its registry *)

Section Registry.

Lemma findType_registerType (name : string) (type : option IRType) (ir : IR) :
  findType name (registerType name type ir) = type.
Proof. unfold findType, registerType; cbn. by rewrite lookup_insert_eq. Qed.

Lemma findType_registerType_ne (name name' : string) (type : option IRType)
    (ir : IR) :
  name ≠ name' →
  findType name' (registerType name type ir) = findType name' ir.
Proof.
  intros Hne. unfold findType, registerType; cbn.
  by rewrite lookup_insert_ne.
Qed.

Lemma registry_entry_ok_registerType_ne (name : string)
    (type : option IRType) (ir : IR) (c : ClassDecl) :
  name ≠ cls_name c →
  registry_entry_ok ir c → registry_entry_ok (registerType name type ir) c.
Proof.
  intros Hne (t & Ht & Hn & Hk). exists t.
  unfold registerType; cbn. by rewrite lookup_insert_ne.
Qed.

Lemma registry_invariant_empty : registry_invariant empty_IR.
Proof. intros c Hc. cbn in Hc. by apply elem_of_nil in Hc. Qed.

Lemma registry_invariant_addClass (cd : ClassDecl) (ir : IR) :
  registry_invariant ir → registry_invariant (addClass cd ir).
Proof.
  intros Hinv c Hc. unfold addClass, registerType in *; cbn in *.
  unfold registry_entry_ok; cbn.
  destruct (decide (cls_name cd = cls_name c)) as [Heq | Hne].
  - rewrite Heq, lookup_insert_eq. eexists. split; [ reflexivity | ]. done.
  - rewrite lookup_insert_ne by done.
    apply elem_of_app in Hc as [Hc | Hc].
    + apply (Hinv c Hc).
    + apply list_elem_of_singleton in Hc. by subst.
Qed.

Lemma registry_invariant_registerType (name : string)
    (type : option IRType) (ir : IR) :
  (∀ c, c ∈ classes_ ir → cls_name c = name →
        ∃ t, type = Some t ∧ ty_name t = name ∧ ty_kind t = Class) →
  registry_invariant ir → registry_invariant (registerType name type ir).
Proof.
  intros Hok Hinv c Hc. cbn in Hc.
  destruct (decide (name = cls_name c)) as [Heq | Hne].
  - destruct (Hok c Hc (eq_sym Heq)) as (t & -> & Hn & Hk).
    exists t. unfold registerType; cbn. subst name.
    by rewrite lookup_insert_eq.
  - apply registry_entry_ok_registerType_ne; [ done | by apply Hinv ].
Qed.

Lemma registry_covers_registerType (name : string) (type : option IRType)
    (ir : IR) :
  registry_covers_classes ir →
  registry_covers_classes (registerType name type ir).
Proof.
  intros Hinv c Hc. cbn in *.
  destruct (decide (name = cls_name c)) as [<- | Hne].
  - by rewrite lookup_insert_eq.
  - rewrite lookup_insert_ne by done. by apply Hinv.
Qed.

Lemma registry_covers_addClass (cd : ClassDecl) (ir : IR) :
  registry_covers_classes ir → registry_covers_classes (addClass cd ir).
Proof.
  intros Hinv c Hc. unfold addClass, registerType in *; cbn in *.
  destruct (decide (cls_name cd = cls_name c)) as [Heq | Hne].
  - by rewrite Heq, lookup_insert_eq.
  - rewrite lookup_insert_ne by done.
    apply elem_of_app in Hc as [Hc | Hc]; [ by apply Hinv | ].
    apply list_elem_of_singleton in Hc. by subst.
Qed.

(** C8, as stated, fails: [registerType] is an operation of the
    container, and registering a type of another name and kind under the
    name of a class breaks the invariant that held before the call. *)
Lemma registerType_breaks_invariant :
  registry_invariant (addClass point_class empty_IR)
  ∧ ¬ registry_invariant
        (registerType "Point" (Some int_type)
           (addClass point_class empty_IR)).
Proof.
  split.
  - exact (registry_invariant_addClass _ _ registry_invariant_empty).
  - intros H. destruct (H point_class) as (t & Ht & Hn & Hk).
    + cbn. apply list_elem_of_singleton. reflexivity.
    + cbn in Ht. rewrite lookup_insert_eq in Ht.
      injection Ht as <-. discriminate Hk.
Qed.

(** C8, amended: [addClass], [addFunction] and [addGlobalVariable]
    preserve the invariant that every class of [classes_] has a registry
    entry under its name holding a class-kind type of that name;
    [registerType] preserves it when the name is not that of a class or
    the new type is a class-kind type of that name, and in every case
    keeps an entry under every class name. [addClass] appends the class
    and registers such a type under its name; [addFunction] and
    [addGlobalVariable] append to their list and leave classes and
    registry unchanged; [registerType] overwrites the entry of the name
    and no other; [findType] returns the registered pointer, and null
    for a name never registered. *)
Theorem registry_invariant_operations (ir : IR) :
  registry_invariant ir →
  (∀ cd, registry_invariant (addClass cd ir)
         ∧ classes_ (addClass cd ir) = (classes_ ir ++ [cd])%list
         ∧ findType (cls_name cd) (addClass cd ir)
           = Some (set_name (cls_name cd) (new_Type Class)))
  ∧ (∀ f, registry_invariant (addFunction f ir)
          ∧ functions_ (addFunction f ir) = (functions_ ir ++ [f])%list
          ∧ classes_ (addFunction f ir) = classes_ ir
          ∧ type_registry_ (addFunction f ir) = type_registry_ ir)
  ∧ (∀ v, registry_invariant (addGlobalVariable v ir)
          ∧ global_vars_ (addGlobalVariable v ir) = (global_vars_ ir ++ [v])%list
          ∧ classes_ (addGlobalVariable v ir) = classes_ ir
          ∧ type_registry_ (addGlobalVariable v ir) = type_registry_ ir)
  ∧ (∀ name type,
       ((∀ c, c ∈ classes_ ir → cls_name c = name →
              ∃ t, type = Some t ∧ ty_name t = name ∧ ty_kind t = Class) →
        registry_invariant (registerType name type ir))
       ∧ registry_covers_classes (registerType name type ir)
       ∧ classes_ (registerType name type ir) = classes_ ir
       ∧ findType name (registerType name type ir) = type
       ∧ (∀ name', name ≠ name' →
                   findType name' (registerType name type ir)
                   = findType name' ir))
  ∧ (∀ name, type_registry_ ir !! name = None → findType name ir = None).
Proof.
  intros Hinv. repeat split.
  - by apply registry_invariant_addClass.
  - apply findType_registerType.
  - exact Hinv.
  - exact Hinv.
  - intros Hok. by apply registry_invariant_registerType.
  - apply registry_covers_registerType. intros c Hc.
    destruct (Hinv c Hc) as (t & Ht & _). by rewrite Ht.
  - apply findType_registerType.
  - intros name' Hne. by apply findType_registerType_ne.
  - intros name Hnone. unfold findType. by rewrite Hnone.
Qed.

Lemma registry_invariant_operations_witness :
  registry_invariant (addClass point_class empty_IR)
  ∧ findType "Point" (addClass point_class (addClass point_class empty_IR))
    = Some (set_name "Point" (new_Type Class))
  ∧ findType "Point"
      (registerType "Point" (Some int_type) (addClass point_class empty_IR))
    = Some int_type.
Proof.
  assert (Hinv : registry_invariant (addClass point_class empty_IR))
    by exact (registry_invariant_addClass _ _ registry_invariant_empty).
  pose proof (registry_invariant_operations _ Hinv) as (Hc & _ & _ & Hr & _).
  split; [ exact Hinv | ]. split.
  - exact (proj2 (proj2 (Hc point_class))).
  - exact (proj1 (proj2 (proj2 (proj2 (Hr "Point" (Some int_type)))))).
Defined.

(** every program built from the empty one by [addClass], [addFunction]
    and [addGlobalVariable] satisfies the invariant *)
Lemma built_registry_invariant (ir : IR) : built ir → registry_invariant ir.
Proof.
  induction 1 as [ | ir cd _ IH | ir f _ IH | ir v _ IH ].
  - apply registry_invariant_empty.
  - by apply registry_invariant_addClass.
  - exact IH.
  - exact IH.
Qed.

End Registry.

(** ** The writes of a generator *)

Section Generator.
Import Emission.

Lemma write_indent_loop_text (n : nat) (out : string) :
  write_indent_loop n out = out ++ indent_text n.
Proof.
  revert out. induction n as [ | n IH ]; intros out; cbn.
  - by rewrite sapp_nil_r.
  - by rewrite IH, sapp_assoc.
Qed.

(** [writeLine] appends a text that depends on the indent level and the
    line only, and keeps the indent level *)
Lemma writeLine_appends (line : string) (g : CodeGenerator) :
  writeLine line g
  = {| output_ := output_ g ++ line_text (indent_level_ g) line;
       indent_level_ := indent_level_ g |}.
Proof.
  unfold writeLine, line_text, writeIndent.
  destruct line as [ | c line ]; cbn.
  - reflexivity.
  - by rewrite write_indent_loop_text, !sapp_assoc.
Qed.

Lemma run_appends (steps : list step) (g : CodeGenerator) :
  output_ (run steps g) = output_ g ++ render (indent_level_ g) steps.
Proof.
  revert g. induction steps as [ | st steps IH ]; intros g.
  - cbn. by rewrite sapp_nil_r.
  - change (run (st :: steps) g) with (run steps (run_step st g)).
    rewrite IH. destruct st; cbn [run_step render].
    + rewrite writeLine_appends; cbn [output_ indent_level_].
      by rewrite sapp_assoc.
    + cbn [output_ indent_level_]. by rewrite sapp_assoc.
    + reflexivity.
    + reflexivity.
Qed.

(** the state a sequence of writes starts from matters to the text only
    through the indent level: it appends to the buffer, never rewrites
    it, and what it appends is the same whatever the buffer holds *)
Lemma run_output_frame (steps : list step) (out out' : string) (level : Z) :
  ∃ text,
    output_ (run steps {| output_ := out; indent_level_ := level |})
    = out ++ text
    ∧ output_ (run steps {| output_ := out'; indent_level_ := level |})
      = out' ++ text.
Proof. exists (render level steps). by rewrite !run_appends. Qed.

Example writeLine_indented :
  output_ (run [ Line "pub struct Point {"; Indent; Line "x: i32,"; Line "";
                 Dedent; Write "}"; Line "" ]
             {| output_ := ""; indent_level_ := 0 |})
  = "pub struct Point {" ++ String "010" ("    x: i32," ++ String "010"
      (String "010" ("}" ++ String "010" ""))).
Proof. vm_compute. reflexivity. Qed.

End Generator.

(** ** The synchronisation inventory of a class *)

Section ClassInventory.
Import ThreadAnalyzer.

Lemma detectMutexMembers_loop_names (fields : list IRVariable)
    (acc : list MutexInfo) :
  Forall (λ field, is_Some (var_type field)) fields →
  ∃ ms, detectMutexMembers_loop fields acc = Some (acc ++ ms)%list
        ∧ map mutex_var_name ms
          = map var_name (List.filter (field_has_kind is_mutex_kind) fields).
Proof.
  intros Hall. revert acc.
  induction Hall as [ | field fields [ty Hty] _ IH ]; intros acc.
  - exists []. split; [ by rewrite List.app_nil_r | done ].
  - cbn [detectMutexMembers_loop List.filter].
    unfold field_has_kind at 1. rewrite Hty.
    destruct (ty_kind ty) eqn:Hk; cbn; rewrite ?Hk;
      repeat case_decide; try discriminate; try congruence; cbn.
    all: first
      [ edestruct IH as (ms & -> & Hms);
        eexists (_ :: ms); split;
        [ by rewrite <- List.app_assoc | cbn; by rewrite Hms ]
      | edestruct IH as (ms & -> & Hms); by exists ms ].
Qed.

Lemma detectAtomicMembers_loop_names (fields : list IRVariable)
    (acc : list AtomicInfo) :
  Forall (λ field, is_Some (var_type field)) fields →
  ∃ ats, detectAtomicMembers_loop fields acc = Some (acc ++ ats)%list
         ∧ map atomic_var_name ats
           = map var_name (List.filter (field_has_kind is_atomic_kind) fields).
Proof.
  intros Hall. revert acc.
  induction Hall as [ | field fields [ty Hty] _ IH ]; intros acc.
  - exists []. split; [ by rewrite List.app_nil_r | done ].
  - cbn [detectAtomicMembers_loop List.filter].
    unfold field_has_kind at 1. rewrite Hty.
    destruct (ty_kind ty) eqn:Hk; cbn; rewrite ?Hk;
      repeat case_decide; try discriminate; try congruence; cbn.
    all: first
      [ edestruct IH as (ats & -> & Hats);
        eexists (_ :: ats); split;
        [ by rewrite <- List.app_assoc | cbn; by rewrite Hats ]
      | edestruct IH as (ats & -> & Hats); by exists ats ].
Qed.

Lemma nonempty_true {A} (l : list A) : nonempty l = true ↔ l ≠ [].
Proof. destruct l; cbn; split; congruence. Qed.

(** C7: for a class handed over without annotations and whose fields all
    carry a type, [analyzeClass] returns with the mutex inventory naming
    exactly the fields of a mutex, recursive-mutex or shared-mutex kind,
    in declaration order, the atomic inventory naming exactly the fields
    of atomic kind, and [thread_safe] set if and only if one of the two
    inventories is not empty. *)
Theorem analyzeClass_inventory (c : ClassDecl) :
  typed_fields c → mutexes c = [] → atomic_fields c = [] →
  ∃ c', analyzeClass c = Some c'
        ∧ map mutex_var_name (mutexes c')
          = map var_name
              (List.filter (field_has_kind is_mutex_kind) (cls_fields c))
        ∧ map atomic_var_name (atomic_fields c')
          = map var_name
              (List.filter (field_has_kind is_atomic_kind) (cls_fields c))
        ∧ (thread_safe c' = true
           ↔ mutexes c' ≠ [] ∨ atomic_fields c' ≠ [])
        ∧ cls_name c' = cls_name c
        ∧ cls_fields c' = cls_fields c.
Proof.
  intros Hall Hm Ha.
  destruct (detectMutexMembers_loop_names (cls_fields c) [] Hall)
    as (ms & Hms & Hmn).
  destruct (detectAtomicMembers_loop_names (cls_fields c) [] Hall)
    as (ats & Hats & Han).
  destruct c as [n st fs me bc it tp acs mx af ts]; cbn in *. subst mx af.
  unfold analyzeClass, detectMutexMembers, detectAtomicMembers; cbn.
  rewrite Hms; cbn. rewrite Hats; cbn.
  eexists. split; [ reflexivity | ]. cbn.
  repeat split; try done.
  - rewrite orb_true_iff, !nonempty_true. tauto.
  - rewrite orb_true_iff, !nonempty_true. tauto.
Qed.

Lemma analyzeClass_inventory_witness :
  ∃ c', analyzeClass counter_class = Some c'
        ∧ map mutex_var_name (mutexes c') = [ "mtx" ]
        ∧ map atomic_var_name (atomic_fields c') = [ "count" ]
        ∧ thread_safe c' = true.
Proof.
  destruct (analyzeClass_inventory counter_class)
    as (c' & Hc' & Hm & Ha & Hts & _).
  - repeat constructor; by eexists.
  - reflexivity.
  - reflexivity.
  - exists c'. repeat split; try assumption.
    apply Hts. left. intros Hnil. rewrite Hnil in Hm. discriminate Hm.
Defined.

(** the inventories grow: a second analysis of the same class appends
    the same names again *)
Example analyzeClass_twice :
  (c ← analyzeClass counter_class; c ← analyzeClass c;
   Some (map mutex_var_name (mutexes c)))
  = Some [ "mtx"; "mtx" ].
Proof. vm_compute. reflexivity. Qed.

(** a field without a type stops the analysis *)
Example analyzeClass_null_field :
  analyzeClass
    (set_mutexes []
       {| cls_name := "C"; cls_is_struct := false;
          cls_fields := [ {| var_name := "x"; var_type := None;
                             var_is_static := false; var_is_const := false;
                             var_initializer := "" |} ];
          cls_methods := []; cls_base_classes := []; cls_is_template := false;
          cls_template_params := []; cls_access_sections := [];
          mutexes := []; atomic_fields := []; thread_safe := false |})
  = None.
Proof. reflexivity. Qed.

End ClassInventory.

(** ** Facts about the regex model *)

Section RegexFacts.
Import Regex.

(** a successful repetition hands the continuation a suffix of the input *)
Lemma star_shrinks {R} (cl : cclass) (s : string) (k : string → option R)
    (x : R) :
  star cl s k = Some x →
  ∃ s', k s' = Some x ∧ String.length s' ≤ String.length s.
Proof.
  induction s as [ | c s IH ]; cbn.
  - intros H. by exists "".
  - destruct (class_mem cl c).
    + destruct (star cl s k) as [y | ] eqn:Hs.
      * intros [= ->]. destruct (IH eq_refl) as (s' & Hk & Hle).
        exists s'. split; [ done | lia ].
      * intros H. exists (String c s). split; [ done | cbn; lia ].
    + intros H. exists (String c s). split; [ done | cbn; lia ].
Qed.

(** the same for a pattern; a pattern that cannot match the empty string
    hands over a strictly shorter suffix *)
Lemma rmatch_shrinks {R} (r : regex) :
  ∀ (s : string) (caps : captures) (k : string → captures → option R) (x : R),
    rmatch r s caps k = Some x →
    ∃ s' caps', k s' caps' = Some x
                ∧ String.length s' ≤ String.length s
                ∧ (nonnull r = true → String.length s' < String.length s).
Proof.
  induction r as [ | c | cl | cl | cl | r1 IH1 r2 IH2 | r1 IH1 r2 IH2
                 | r1 IH1 | r1 IH1 | n r1 IH1 ];
    intros s caps k x; cbn [rmatch nonnull].
  - intros H. exists s, caps. repeat split; [ done | lia | done ].
  - destruct s as [ | d s ]; [ done | ].
    destruct (Ascii.eqb d c); [ | done ].
    intros H. exists s, caps. cbn. repeat split; [ done | lia | lia ].
  - destruct s as [ | d s ]; [ done | ].
    destruct (class_mem cl d); [ | done ].
    intros H. exists s, caps. cbn. repeat split; [ done | lia | lia ].
  - intros H. apply star_shrinks in H as (s' & Hk & Hle).
    exists s', caps. repeat split; [ done | lia | done ].
  - destruct s as [ | d s ]; [ done | ].
    destruct (class_mem cl d); [ | done ].
    intros H. apply star_shrinks in H as (s' & Hk & Hle).
    exists s', caps. cbn. repeat split; [ done | lia | lia ].
  - intros H. apply IH1 in H as (s1 & caps1 & H & Hle1 & Hlt1).
    apply IH2 in H as (s2 & caps2 & H & Hle2 & Hlt2).
    exists s2, caps2. repeat split; [ done | lia | ].
    intros [Hn | Hn]%orb_true_iff; [ specialize (Hlt1 Hn) | specialize (Hlt2 Hn) ];
      lia.
  - destruct (rmatch r1 s caps k) as [y | ] eqn:H1.
    + intros [= ->]. apply IH1 in H1 as (s' & caps' & H & Hle & Hlt).
      exists s', caps'. repeat split; [ done | lia | ].
      intros [Hn _]%andb_true_iff. auto.
    + intros H. apply IH2 in H as (s' & caps' & H & Hle & Hlt).
      exists s', caps'. repeat split; [ done | lia | ].
      intros [_ Hn]%andb_true_iff. auto.
  - apply IH1.
  - destruct (rmatch r1 s caps k) as [y | ] eqn:H1.
    + intros [= ->]. apply IH1 in H1 as (s' & caps' & H & Hle & _).
      exists s', caps'. repeat split; [ done | lia | done ].
    + intros H. exists s, caps. repeat split; [ done | lia | done ].
  - intros H. apply IH1 in H as (s' & caps' & H & Hle & Hlt).
    eexists s', _. repeat split; [ exact H | lia | done ].
Qed.

Lemma match_here_shrinks (r : regex) (s : string) (m : smatch) :
  match_here r s = Some m →
  String.length (m_suffix m) ≤ String.length s
  ∧ (nonnull r = true → String.length (m_suffix m) < String.length s).
Proof.
  unfold match_here. intros H.
  apply rmatch_shrinks in H as (s' & caps' & [= <-] & Hle & Hlt). by cbn.
Qed.

Lemma regex_search_shrinks (r : regex) (s : string) (m : smatch) :
  regex_search r s = Some m →
  String.length (m_suffix m) ≤ String.length s
  ∧ (nonnull r = true → String.length (m_suffix m) < String.length s).
Proof.
  revert m. induction s as [ | c s IH ]; intros m; cbn [regex_search].
  - destruct (match_here r "") as [m' | ] eqn:Hm; [ | done ].
    intros [= <-]. by apply match_here_shrinks.
  - destruct (match_here r (String c s)) as [m' | ] eqn:Hm.
    + intros [= <-]. by apply match_here_shrinks.
    + destruct (regex_search r s) as [m' | ]; [ | done ].
      intros [= <-]. destruct (IH m' eq_refl) as [Hle Hlt].
      cbn. split; [ lia | ]. intros Hn. specialize (Hlt Hn). lia.
Qed.

(** With a pattern that cannot match the empty string the search loop
    ends before [fuel] does, as soon as [fuel] exceeds the length of the
    text; the result is then the same for every such [fuel]. *)
Lemma search_loop_terminates {A} (r : regex) (body : smatch → A → A) :
  nonnull r = true →
  ∀ (fuel : nat) (s : string) (acc : A),
    String.length s < fuel →
    ∃ res, search_loop fuel r body s acc = Some res
           ∧ ∀ fuel', String.length s < fuel' →
                      search_loop fuel' r body s acc = Some res.
Proof.
  intros Hn fuel. induction fuel as [ | fuel IH ]; intros s acc Hlt; [ lia | ].
  cbn [search_loop].
  destruct (regex_search r s) as [m | ] eqn:Hm.
  - apply regex_search_shrinks in Hm as Hs. destruct Hs as [_ Hs].
    specialize (Hs Hn).
    destruct (IH (m_suffix m) (body m acc)) as (res & Hres & Hany); [ lia | ].
    exists res. split; [ done | ].
    intros [ | fuel' ] Hlt'; [ lia | ]. cbn [search_loop]. rewrite Hm.
    apply Hany. lia.
  - exists acc. split; [ done | ].
    intros [ | fuel' ] Hlt'; [ lia | ]. cbn [search_loop]. by rewrite Hm.
Qed.

Lemma regex_replace_loop_terminates (r : regex) (fmt : string) :
  nonnull r = true →
  ∀ (fuel : nat) (s : string),
    String.length s < fuel → is_Some (regex_replace_loop fuel r fmt s).
Proof.
  intros Hn fuel. induction fuel as [ | fuel IH ]; intros s Hlt; [ lia | ].
  cbn [regex_replace_loop].
  destruct (regex_search r s) as [m | ] eqn:Hm; [ | done ].
  apply regex_search_shrinks in Hm as [_ Hs]. specialize (Hs Hn).
  destruct (IH (m_suffix m)) as [rest ->]; [ lia | ]. done.
Qed.

Lemma regex_replace_terminates (r : regex) (fmt s : string) :
  nonnull r = true → is_Some (regex_replace r fmt s).
Proof.
  intros Hn. apply regex_replace_loop_terminates; [ done | lia ].
Qed.

End RegexFacts.

(** ** The exception analyzer *)

Section Exceptions.
Import Regex ExceptionAnalyzer.

(** the patterns are those of the source *)
Example exception_patterns_source :
  show try_catch_pattern
  = "try\s*\{([^}]*)\}\s*catch\s*\(([^)]+)\)\s*\{([^}]*)\}"
  ∧ group_numbering try_catch_pattern 1 = Some 4
  ∧ show const_pattern = "\s*const\s*"
  ∧ show amp_pattern = "\s*&\s*"
  ∧ show spaces_pattern = "\s+"
  ∧ show throw_pattern = "throw\s+".
Proof. repeat split. Qed.

Lemma parseCatchParameter_terminates (param : string) :
  is_Some (parseCatchParameter param).
Proof.
  unfold parseCatchParameter.
  destruct (String.eqb param "..."); [ done | ].
  destruct (regex_replace_terminates const_pattern " " param eq_refl)
    as [c1 ->]; cbn [mbind option_bind].
  destruct (regex_replace_terminates amp_pattern " " c1 eq_refl)
    as [c2 ->]; cbn [mbind option_bind].
  destruct (regex_replace_terminates spaces_pattern " " c2 eq_refl)
    as [c3 ->]; cbn [mbind option_bind].
  by destruct (Str.find_last_of " " c3).
Qed.

Lemma try_catch_step_appends (m : smatch) (blocks : list TryCatchBlock) :
  ∃ block, try_catch_step m (Some blocks) = Some (blocks ++ [block])%list.
Proof.
  unfold try_catch_step; cbn.
  destruct (parseCatchParameter_terminates (group_str 2 (m_groups m)))
    as [[type var] ->]; cbn.
  by eexists.
Qed.

(** the scan ends and appends the blocks it finds to those recorded; it
    finds none exactly when the pattern matches nowhere in the text *)
Lemma try_catch_scan_appends (fuel : nat) :
  ∀ (s : string) (blocks : list TryCatchBlock),
    String.length s < fuel →
    ∃ found,
      search_loop fuel try_catch_pattern try_catch_step s (Some blocks)
      = Some (Some (blocks ++ found)%list)
      ∧ (found = [] ↔ regex_search try_catch_pattern s = None).
Proof.
  induction fuel as [ | fuel IH ]; intros s blocks Hlt; [ lia | ].
  cbn [search_loop].
  destruct (regex_search try_catch_pattern s) as [m | ] eqn:Hm.
  - apply regex_search_shrinks in Hm as [_ Hs]. specialize (Hs eq_refl).
    destruct (try_catch_step_appends m blocks) as [block ->].
    destruct (IH (m_suffix m) (blocks ++ [block])%list) as (found & -> & _);
      [ lia | ].
    exists (block :: found). split; [ by rewrite <- List.app_assoc | done ].
  - exists []. split; [ by rewrite List.app_nil_r | done ].
Qed.

Lemma detectTryCatchBlocks_appends (func : IRFunction) :
  ∃ found,
    detectTryCatchBlocks func
    = Some (set_try_catch_blocks (try_catch_blocks func ++ found) func)
    ∧ (found = [] ↔ regex_search try_catch_pattern (fn_body func) = None).
Proof.
  unfold detectTryCatchBlocks.
  destruct (try_catch_scan_appends (S (String.length (fn_body func)))
              (fn_body func) (try_catch_blocks func)) as (found & -> & Hiff);
    [ lia | ].
  by exists found.
Qed.

Lemma set_try_catch_blocks_fields (v : list TryCatchBlock) (f : IRFunction) :
  fn_body (set_try_catch_blocks v f) = fn_body f
  ∧ fn_name (set_try_catch_blocks v f) = fn_name f
  ∧ try_catch_blocks (set_try_catch_blocks v f) = v
  ∧ exception_spec (set_try_catch_blocks v f) = exception_spec f.
Proof. by destruct f. Qed.

Lemma set_exception_spec_fields (v : ExceptionSpec) (f : IRFunction) :
  fn_body (set_exception_spec v f) = fn_body f
  ∧ fn_name (set_exception_spec v f) = fn_name f
  ∧ try_catch_blocks (set_exception_spec v f) = try_catch_blocks f
  ∧ exception_spec (set_exception_spec v f) = v.
Proof. by destruct f. Qed.

Lemma set_may_throw_fields (v : bool) (f : IRFunction) :
  fn_body (set_may_throw v f) = fn_body f
  ∧ try_catch_blocks (set_may_throw v f) = try_catch_blocks f
  ∧ exception_spec (set_may_throw v f) = exception_spec f
  ∧ may_throw (set_may_throw v f) = v.
Proof. by destruct f. Qed.

Lemma detectThrowStatements_fields (f : IRFunction) :
  fn_body (detectThrowStatements f) = fn_body f
  ∧ fn_name (detectThrowStatements f) = fn_name f
  ∧ try_catch_blocks (detectThrowStatements f) = try_catch_blocks f
  ∧ can_throw (exception_spec (detectThrowStatements f))
    = match regex_search throw_pattern (fn_body f) with
      | Some _ => true
      | None => can_throw (exception_spec f)
      end.
Proof.
  unfold detectThrowStatements.
  destruct (regex_search throw_pattern (fn_body f)); [ | done ].
  by destruct (set_exception_spec_fields
                 {| is_noexcept := is_noexcept (exception_spec f);
                    can_throw := true |} f) as (-> & -> & -> & ->).
Qed.

Lemma analyzeExceptionSpec_fields (f : IRFunction) :
  fn_body (analyzeExceptionSpec f) = fn_body f
  ∧ try_catch_blocks (analyzeExceptionSpec f) = try_catch_blocks f
  ∧ can_throw (exception_spec (analyzeExceptionSpec f))
    = if Str.contains (fn_name f) "noexcept" then false
      else can_throw (exception_spec f).
Proof.
  unfold analyzeExceptionSpec.
  destruct (Str.contains (fn_name f) "noexcept"); [ | done ].
  by destruct (set_exception_spec_fields
                 {| is_noexcept := true; can_throw := false |} f)
       as (-> & _ & -> & ->).
Qed.

(** the exception specification after the analysis: a name that mentions
    [noexcept] clears [can_throw]; otherwise a throw statement sets it *)
Lemma analyzeFunction_can_throw (func func' : IRFunction) :
  analyzeFunction func = Some func' →
  can_throw (exception_spec func')
  = if Str.contains (fn_name func) "noexcept" then false
    else match regex_search throw_pattern (fn_body func) with
         | Some _ => true
         | None => can_throw (exception_spec func)
         end.
Proof.
  destruct (detectTryCatchBlocks_appends func) as (found & Hd & Hfound).
  unfold analyzeFunction. rewrite Hd; cbn [mbind option_bind]. intros [= <-].
  set (f1 := set_try_catch_blocks (try_catch_blocks func ++ found) func).
  destruct (set_try_catch_blocks_fields (try_catch_blocks func ++ found) func)
    as (Hb1 & Hn1 & _ & He1).
  destruct (detectThrowStatements_fields f1) as (_ & Hn2 & _ & Hc2).
  destruct (analyzeExceptionSpec_fields (detectThrowStatements f1))
    as (_ & _ & Hc3).
  match goal with
  | |- context [ set_may_throw ?v ?f ] =>
      destruct (set_may_throw_fields v f) as (_ & _ & -> & _)
  end.
  fold f1 in Hb1, Hn1, He1.
  rewrite Hc3, Hn2, Hn1, Hc2, Hb1, He1. reflexivity.
Qed.

Example analyzeFunction_plain :
  may_throw <$> analyzeFunction (plain_function "f" "return 1;") = Some false
  ∧ may_throw <$> analyzeFunction (plain_function "f" "throw E();") = Some true
  ∧ may_throw <$> analyzeFunction
                    (plain_function "f" "try { g(); } catch (E& e) { }")
    = Some true.
Proof. vm_compute. repeat split. Qed.

End Exceptions.

(** ** Template arguments *)

Section TemplateArgs.
Import STLContainerMapper.

Lemma substring_skip_add (pre s : string) (k n : nat) :
  substring (String.length pre + k) n (pre ++ s) = substring k n s.
Proof.
  induction pre as [ | c pre IH ]; [ done | ]. rewrite sapp_cons. cbn. apply IH.
Qed.

Lemma substr_from_app (pre s : string) :
  Str.substr_from (String.length pre) (pre ++ s) = s.
Proof.
  unfold Str.substr_from. rewrite slength_app.
  replace (String.length pre + String.length s - String.length pre)
    with (String.length s) by lia.
  rewrite substring_skip. apply substring_all.
Qed.

Lemma substring_mid (pre a post : string) :
  substring (String.length pre) (String.length a) (pre ++ a ++ post) = a.
Proof. rewrite substring_skip. apply substring_0_app. Qed.

Lemma find_char_app (c : ascii) (name rest : string) :
  Str.find_char c name = None →
  Str.find_char c (name ++ String c rest) = Some (String.length name).
Proof.
  induction name as [ | d name IH ].
  - intros _. rewrite sapp_nil_l. cbn. by rewrite Ascii.eqb_refl.
  - rewrite sapp_cons. cbn. destruct (Ascii.eqb d c); [ done | ].
    destruct (Str.find_char c name); [ done | ].
    intros _. by rewrite IH.
Qed.

Lemma rfind_char_none (c : ascii) (s : string) :
  Str.find_char c s = None → Str.rfind_char c s = None.
Proof.
  induction s as [ | d s IH ]; [ done | ]. cbn.
  destruct (Ascii.eqb d c); [ done | ].
  destruct (Str.find_char c s); [ done | ].
  intros _. by rewrite IH.
Qed.

Lemma rfind_char_app (c : ascii) (pre tail : string) :
  Str.find_char c tail = None →
  Str.rfind_char c (pre ++ String c tail) = Some (String.length pre).
Proof.
  intros Hnone. induction pre as [ | d pre IH ].
  - rewrite sapp_nil_l. cbn. rewrite (rfind_char_none _ _ Hnone).
    by rewrite Ascii.eqb_refl.
  - rewrite sapp_cons. cbn. by rewrite IH.
Qed.

(** *** Trimming an argument that is not blank leaves something *)

Lemma find_first_not_of_nonblank (s : string) :
  is_blank s = false →
  ∃ first, Str.find_first_not_of trim_set s = Some first
           ∧ first < String.length s.
Proof.
  induction s as [ | c s IH ]; [ done | ]. cbn [is_blank Str.find_first_not_of].
  destruct (Str.mem c trim_set); cbn.
  - intros Hb. destruct (IH Hb) as (first & -> & Hlt).
    exists (S first). split; [ done | lia ].
  - intros _. exists 0. split; [ done | lia ].
Qed.

Lemma find_last_not_of_nonblank (s : string) :
  is_blank s = false → is_Some (Str.find_last_not_of trim_set s).
Proof.
  induction s as [ | c s IH ]; [ done | ]. cbn [is_blank Str.find_last_not_of].
  destruct (Str.find_last_not_of trim_set s); [ done | ].
  destruct (Str.mem c trim_set); cbn; [ | done ].
  intros Hb. by destruct (IH Hb).
Qed.

Lemma substring_nonempty (s : string) (n m : nat) :
  n < String.length s → Str.is_empty (substring n (S m) s) = false.
Proof.
  revert n. induction s as [ | c s IH ]; intros n; cbn; [ lia | ].
  destruct n as [ | n ]; [ done | ]. intros Hlt. apply IH. lia.
Qed.

Lemma trim_nonblank (s : string) :
  is_blank s = false → Str.is_empty (trim s) = false.
Proof.
  intros Hb. unfold trim.
  destruct (find_first_not_of_nonblank s Hb) as (first & -> & Hlt).
  destruct (find_last_not_of_nonblank s Hb) as [last ->].
  replace (last - first + 1) with (S (last - first)) by lia.
  by apply substring_nonempty.
Qed.

Lemma push_arg_nonblank (a : string) (acc : list string) :
  is_blank a = false → push_arg a acc = (acc ++ [trim a])%list.
Proof. intros Hb. unfold push_arg. by rewrite trim_nonblank. Qed.

(** *** The loop over one argument, then over the list *)

(** Scanning an argument whose brackets are nested and whose commas are
    inside brackets moves the index past it, and leaves the depth at 0 and
    the start of the current argument and the arguments found alone. *)
Lemma split_loop_arg (args_str : string) (a : string) :
  ∀ (rest : string) (i : nat) (depth : nat) (last : nat) (acc : list string),
    arg_scan a depth = Some 0 →
    split_loop args_str (a ++ rest) i (Z.of_nat depth) last acc
    = split_loop args_str rest (i + String.length a) 0 last acc.
Proof.
  induction a as [ | c a IH ]; intros rest i depth last acc.
  - cbn. intros [= ->]. rewrite sapp_nil_l. by replace (i + 0) with i by lia.
  - rewrite sapp_cons. cbn [arg_scan split_loop String.length].
    replace (i + S (String.length a)) with (S i + String.length a) by lia.
    destruct (Ascii.eqb c "<").
    { intros H. rewrite <- (IH rest (S i) (S depth) last acc H).
      f_equal. lia. }
    destruct (Ascii.eqb c ">").
    { destruct depth as [ | d ]; [ done | ].
      intros H. rewrite <- (IH rest (S i) d last acc H). f_equal. lia. }
    destruct (Ascii.eqb c ",").
    { destruct depth as [ | d ]; [ done | ].
      intros H. cbn. by apply IH. }
    cbn. apply IH.
Qed.

Lemma split_loop_join (args : list string) :
  ∀ (pre : string) (acc : list string),
    Forall is_template_arg args → args ≠ [] →
    split_loop (pre ++ join_args args) (join_args args)
      (String.length pre) 0 (String.length pre) acc
    = (acc ++ map trim args)%list.
Proof.
  induction args as [ | a args IH ]; intros pre acc Hall Hne; [ done | ].
  apply Forall_cons in Hall as [[Hscan Hblank] Hall].
  destruct args as [ | b args ].
  - cbn [join_args map].
    rewrite <- (sapp_nil_r a) at 2.
    rewrite (split_loop_arg _ a "" _ 0 _ _ Hscan). cbn [split_loop].
    rewrite substr_from_app. by apply push_arg_nonblank.
  - change (join_args (a :: b :: args))
      with (a ++ "," ++ join_args (b :: args)).
    rewrite (split_loop_arg _ a _ _ 0 _ _ Hscan).
    rewrite (sapp_cons "," "" (join_args (b :: args))), sapp_nil_l.
    cbn [split_loop Ascii.eqb Bool.eqb andb Z.eqb].
    replace (String.length pre + String.length a - String.length pre)
      with (String.length a) by lia.
    rewrite substring_mid, push_arg_nonblank by done.
    specialize (IH (pre ++ a ++ ",") (acc ++ [trim a])%list Hall).
    rewrite !sapp_assoc, !slength_app in IH.
    change (String.length ",") with 1 in IH.
    replace (String.length pre + (String.length a + 1))
      with (S (String.length pre + String.length a)) in IH by lia.
    rewrite (sapp_cons "," "" (join_args (b :: args))), sapp_nil_l in IH.
    rewrite IH by done.
    by rewrite <- List.app_assoc.
Qed.

(** C4: a type string whose first [<] and last [>] enclose the arguments
    [args], written one after the other and separated by commas, where
    each argument has its brackets nested, its commas inside brackets, and
    is not blank, yields exactly these arguments, trimmed: as many elements
    as there are arguments, whatever brackets and commas they contain. *)
Theorem extractTemplateArgs_top_level (name tail : string)
    (args : list string) :
  Str.find_char "<" name = None →
  Str.find_char ">" tail = None →
  Forall is_template_arg args →
  extractTemplateArgs (name ++ "<" ++ join_args args ++ ">" ++ tail)
  = map trim args
  ∧ length (extractTemplateArgs
              (name ++ "<" ++ join_args args ++ ">" ++ tail))
    = length args.
Proof.
  intros Hname Htail Hall.
  assert (Heq : extractTemplateArgs
                  (name ++ "<" ++ join_args args ++ ">" ++ tail)
                = map trim args).
  { unfold extractTemplateArgs.
    rewrite (sapp_cons "<" "" _), sapp_nil_l.
    rewrite (find_char_app "<" name _ Hname).
    rewrite (sapp_cons ">" "" tail), sapp_nil_l.
    change (name ++ String "<" (join_args args ++ String ">" tail))
      with (name ++ (String "<" (join_args args)) ++ String ">" tail).
    rewrite <- sapp_assoc.
    rewrite (rfind_char_app ">" _ tail Htail).
    rewrite slength_app. cbn [String.length].
    destruct (Nat.leb_spec (String.length name + S (String.length (join_args args)))
                (String.length name)) as [Hle | _]; [ lia | ].
    rewrite sapp_assoc.
    replace (String.length name + S (String.length (join_args args))
             - String.length name - 1)
      with (String.length (join_args args)) by lia.
    rewrite substring_skip_add, sapp_cons. cbn [substring].
    rewrite substring_0_app.
    destruct args as [ | a args ]; [ done | ].
    apply (split_loop_join (a :: args) "" []); done. }
  split; [ exact Heq | ]. rewrite Heq. apply length_map.
Qed.

Lemma extractTemplateArgs_top_level_witness :
  extractTemplateArgs "map<string, vector<pair<int,int>>>"
  = [ "string"; "vector<pair<int,int>>" ]
  ∧ length (extractTemplateArgs "map<string, vector<pair<int,int>>>") = 2.
Proof.
  apply (extractTemplateArgs_top_level "map" ""
           [ "string"; " vector<pair<int,int>>" ]).
  - reflexivity.
  - reflexivity.
  - repeat constructor.
Defined.

(** blank arguments are dropped, and a closing bracket that nothing
    opened hides the commas after it *)
Example extractTemplateArgs_degenerate :
  extractTemplateArgs "map<int,,int>" = [ "int"; "int" ]
  ∧ extractTemplateArgs "vector< >" = []
  ∧ extractTemplateArgs "foo<a>,b>" = [ "a>,b" ]
  ∧ extractTemplateArgs "foo" = [].
Proof. vm_compute. repeat split. Qed.

End TemplateArgs.

(** ** Matches that are decided by a prefix of the text *)

Section Commits.
Import Regex RegexSpec.

Lemma str_all_app (p : ascii → bool) (s t : string) :
  str_all p (s ++ t) = str_all p s && str_all p t.
Proof.
  induction s as [ | c s IH ]; [ done | ].
  rewrite sapp_cons. cbn. by rewrite IH, andb_assoc.
Qed.

Lemma consumed_app (b rest : string) : consumed (b ++ rest) rest = b.
Proof.
  unfold consumed. rewrite slength_app.
  replace (String.length b + String.length rest - String.length rest)
    with (String.length b) by lia.
  apply substring_0_app.
Qed.

Lemma star_stops {R} (cl : cclass) (rest : string) (k : string → option R) :
  stops cl rest = true → star cl rest k = k rest.
Proof.
  destruct rest as [ | c rest ]; [ done | ]. cbn.
  by intros ->%negb_true_iff.
Qed.

(** a greedy repetition takes the whole run when what follows succeeds *)
Lemma star_greedy {R} (cl : cclass) (b rest : string)
    (k : string → option R) (x : R) :
  str_all (class_mem cl) b = true → stops cl rest = true →
  k rest = Some x → star cl (b ++ rest) k = Some x.
Proof.
  intros Hb Hstop Hk. induction b as [ | c b IH ].
  - rewrite sapp_nil_l. by rewrite star_stops.
  - rewrite sapp_cons. cbn in Hb |- *.
    apply andb_true_iff in Hb as [-> Hb]. by rewrite (IH Hb).
Qed.

Lemma commits_eps (s : string) (caps : captures) : commits REps s caps s caps.
Proof. intros R k x Hk. exact Hk. Qed.

Lemma commits_char (c : ascii) (s : string) (caps : captures) :
  commits (RChar c) (String c s) caps s caps.
Proof. intros R k x Hk. cbn. by rewrite Ascii.eqb_refl. Qed.

Lemma commits_seq (r1 r2 : regex) (s s1 s2 : string)
    (caps caps1 caps2 : captures) :
  commits r1 s caps s1 caps1 → commits r2 s1 caps1 s2 caps2 →
  commits (RSeq r1 r2) s caps s2 caps2.
Proof. intros H1 H2 R k x Hk. cbn. apply H1. by apply H2. Qed.

Lemma commits_lit (lit s : string) (caps : captures) :
  commits (RLit lit) (lit ++ s) caps s caps.
Proof.
  induction lit as [ | c lit IH ].
  - apply commits_eps.
  - rewrite sapp_cons. cbn [RLit].
    eapply commits_seq; [ apply commits_char | apply IH ].
Qed.

Lemma commits_star (cl : cclass) (b rest : string) (caps : captures) :
  str_all (class_mem cl) b = true → stops cl rest = true →
  commits (RStar cl) (b ++ rest) caps rest caps.
Proof. intros Hb Hstop R k x Hk. cbn. by apply star_greedy. Qed.

Lemma commits_plus (cl : cclass) (c : ascii) (b rest : string)
    (caps : captures) :
  str_all (class_mem cl) (String c b) = true → stops cl rest = true →
  commits (RPlus cl) (String c b ++ rest) caps rest caps.
Proof.
  intros Hb Hstop R k x Hk. rewrite sapp_cons. cbn in Hb |- *.
  apply andb_true_iff in Hb as [-> Hb]. by apply star_greedy.
Qed.

Lemma commits_group (n : nat) (r : regex) (b rest : string)
    (caps caps' : captures) :
  commits r (b ++ rest) caps rest caps' →
  commits (RGroup n r) (b ++ rest) caps rest ((n, b) :: caps').
Proof.
  intros H R k x Hk. cbn. apply H. by rewrite consumed_app.
Qed.


Lemma commits_noncap (r : regex) (s s' : string) (caps caps' : captures) :
  commits r s caps s' caps' → commits (RNonCap r) s caps s' caps'.
Proof. intros H R k x Hk. cbn. by apply H. Qed.

Lemma commits_alt_l (r1 r2 : regex) (s s' : string) (caps caps' : captures) :
  commits r1 s caps s' caps' → commits (RAlt r1 r2) s caps s' caps'.
Proof. intros H R k x Hk. cbn. by rewrite (H R k x Hk). Qed.

Lemma match_here_commits (r : regex) (b rest : string) (caps : captures) :
  commits r (b ++ rest) [] rest caps →
  match_here r (b ++ rest)
  = Some {| m_prefix := ""; m_str := b; m_groups := caps; m_suffix := rest |}.
Proof.
  intros H. unfold match_here. apply H. by rewrite consumed_app.
Qed.

Lemma regex_search_here (r : regex) (s : string) (m : smatch) :
  match_here r s = Some m → regex_search r s = Some m.
Proof. intros H. destruct s; cbn; by rewrite H. Qed.

(** *** Positions where no match can begin *)

Lemma rmatch_cannot_start {R} (r : regex) (d : ascii) :
  can_start r d = false →
  ∀ (s : string) (caps : captures) (k : string → captures → option R),
    nonnull r = true ∨ (∀ caps', k (String d s) caps' = None) →
    rmatch r (String d s) caps k = None.
Proof.
  induction r as [ | c | cl | cl | cl | r1 IH1 r2 IH2 | r1 IH1 r2 IH2
                 | r1 IH1 | r1 IH1 | n r1 IH1 ];
    cbn [can_start nonnull rmatch]; intros Hc s caps k Hk.
  - destruct Hk as [ | Hk ]; [ done | apply Hk ].
  - by rewrite Hc.
  - by rewrite Hc.
  - cbn. rewrite Hc. destruct Hk as [ | Hk ]; [ done | apply Hk ].
  - by rewrite Hc.
  - apply orb_false_iff in Hc as [Hc1 Hc2].
    apply IH1; [ done | ].
    destruct (nonnull r1) eqn:Hn1; [ by left | right ].
    cbn in Hc2. intros caps'. apply IH2; [ done | ].
    destruct Hk as [ Hk | Hk ]; [ by left | by right ].
  - apply orb_false_iff in Hc as [Hc1 Hc2].
    rewrite IH1; [ apply IH2; [ done | ] | done | ].
    + destruct Hk as [ [_ Hk]%andb_true_iff | Hk ]; [ by left | by right ].
    + destruct Hk as [ [Hk _]%andb_true_iff | Hk ]; [ by left | by right ].
  - by apply IH1.
  - destruct Hk as [ | Hk ]; [ done | ].
    rewrite IH1; [ apply Hk | done | by right ].
  - apply IH1; [ done | ].
    destruct Hk as [ Hk | Hk ]; [ by left | right ].
    intros caps'. apply Hk.
Qed.

Lemma match_here_cannot_start (r : regex) (d : ascii) (s : string) :
  nonnull r = true → can_start r d = false →
  match_here r (String d s) = None.
Proof.
  intros Hn Hc. unfold match_here. apply rmatch_cannot_start; auto.
Qed.

Lemma match_here_empty (r : regex) :
  nonnull r = true → match_here r "" = None.
Proof.
  intros Hn. destruct (match_here r "") as [m | ] eqn:Hm; [ | done ].
  apply match_here_shrinks in Hm as [_ Hlt]. specialize (Hlt Hn). cbn in Hlt.
  lia.
Qed.

(** the search runs over a stretch where no match can begin *)
Lemma regex_search_skip (r : regex) (pre s : string) :
  nonnull r = true →
  str_all (λ c, negb (can_start r c)) pre = true →
  regex_search r (pre ++ s) = add_prefix pre <$> regex_search r s.
Proof.
  intros Hn. induction pre as [ | c pre IH ]; intros Hpre.
  - rewrite sapp_nil_l. by destruct (regex_search r s) as [[] | ].
  - cbn in Hpre. apply andb_true_iff in Hpre as [Hc%negb_true_iff Hpre].
    rewrite sapp_cons. cbn [regex_search].
    rewrite (match_here_cannot_start r c _ Hn Hc), (IH Hpre).
    by destruct (regex_search r s) as [[] | ].
Qed.

Lemma regex_search_nowhere (r : regex) (s : string) :
  nonnull r = true →
  str_all (λ c, negb (can_start r c)) s = true →
  regex_search r s = None.
Proof.
  intros Hn Hs. rewrite <- (sapp_nil_r s), (regex_search_skip r s "" Hn Hs).
  cbn. by rewrite (match_here_empty r Hn).
Qed.

(** *** One turn of the search loop *)

Lemma search_loop_found {A} (r : regex) (body : smatch → A → A)
    (fuel : nat) (s : string) (acc : A) (m : smatch) :
  nonnull r = true → String.length s < fuel →
  regex_search r s = Some m →
  search_loop fuel r body s acc
  = search_loop (S (String.length (m_suffix m))) r body (m_suffix m)
      (body m acc).
Proof.
  intros Hn Hlt Hm. destruct fuel as [ | fuel ]; [ lia | ].
  apply regex_search_shrinks in Hm as Hs. destruct Hs as [_ Hs].
  specialize (Hs Hn).
  destruct (search_loop_terminates r body Hn fuel (m_suffix m) (body m acc))
    as (res & Hres & Hany); [ lia | ].
  rewrite (Hany (S (String.length (m_suffix m)))) by lia.
  cbn [search_loop]. by rewrite Hm.
Qed.

Lemma search_loop_done {A} (r : regex) (body : smatch → A → A)
    (fuel : nat) (s : string) (acc : A) :
  regex_search r s = None →
  search_loop (S fuel) r body s acc = Some acc.
Proof. intros Hm. cbn. by rewrite Hm. Qed.

End Commits.

(** ** Nested try/catch *)

Section NestedTryCatch.
Import Regex RegexSpec ExceptionAnalyzer.

Lemma commits_char_app (c : ascii) (s : string) (caps : captures) :
  commits (RChar c) (String c "" ++ s) caps s caps.
Proof. apply commits_char. Qed.

(** the match the pattern commits to on a text of its shape: the protected
    body runs to the first closing brace, the parameter to the first
    closing parenthesis, the handler to the next closing brace *)
Lemma try_catch_pattern_commits (ws1 tb ws2 ws3 cp ws4 hb rest : string) :
  str_all is_space ws1 = true → str_all is_space ws2 = true →
  str_all is_space ws3 = true → str_all is_space ws4 = true →
  str_all not_rbrace tb = true → str_all not_rbrace hb = true →
  str_all (class_mem (CNot ")")) cp = true → cp ≠ "" →
  commits try_catch_pattern (try_catch_text ws1 tb ws2 ws3 cp ws4 hb rest) []
    rest [ (3, hb); (2, cp); (1, tb) ].
Proof.
  intros H1 H2 H3 H4 Htb Hhb Hcp Hne.
  destruct cp as [ | c cp ]; [ done | ].
  unfold try_catch_pattern, try_catch_text. cbn [RSeqs].
  eapply commits_seq; [ apply commits_lit | ].
  eapply commits_seq; [ by apply commits_star | ].
  eapply commits_seq; [ apply commits_char_app | ].
  eapply commits_seq; [ apply commits_group; by apply commits_star | ].
  eapply commits_seq; [ apply commits_char_app | ].
  eapply commits_seq; [ by apply commits_star | ].
  eapply commits_seq; [ apply commits_lit | ].
  eapply commits_seq; [ by apply commits_star | ].
  eapply commits_seq; [ apply commits_char_app | ].
  eapply commits_seq; [ apply commits_group; by apply commits_plus | ].
  eapply commits_seq; [ apply commits_char_app | ].
  eapply commits_seq; [ by apply commits_star | ].
  eapply commits_seq; [ apply commits_char_app | ].
  eapply commits_seq; [ apply commits_group; by apply commits_star | ].
  eapply commits_seq; [ apply commits_char_app | ].
  apply commits_eps.
Qed.

Lemma regex_search_commits (r : regex) (s rest : string) (caps : captures) :
  commits r s [] rest caps →
  regex_search r s
  = Some {| m_prefix := ""; m_str := consumed s rest; m_groups := caps;
            m_suffix := rest |}.
Proof. intros H. apply regex_search_here. unfold match_here. by apply H. Qed.

(** one turn of the scan of [detectTryCatchBlocks] on such a text *)
Lemma try_catch_scan_turn (ws1 tb ws2 ws3 cp ws4 hb rest : string)
    (type var : string) (blocks : list TryCatchBlock) (fuel : nat) :
  str_all is_space ws1 = true → str_all is_space ws2 = true →
  str_all is_space ws3 = true → str_all is_space ws4 = true →
  str_all not_rbrace tb = true → str_all not_rbrace hb = true →
  str_all (class_mem (CNot ")")) cp = true → cp ≠ "" →
  parseCatchParameter cp = Some (type, var) →
  String.length (try_catch_text ws1 tb ws2 ws3 cp ws4 hb rest) < fuel →
  search_loop fuel try_catch_pattern try_catch_step
    (try_catch_text ws1 tb ws2 ws3 cp ws4 hb rest) (Some blocks)
  = search_loop (S (String.length rest)) try_catch_pattern try_catch_step rest
      (Some (blocks ++
             [ {| try_body := tb;
                  catch_clauses :=
                    [ {| exception_type := type; exception_var := var;
                         handler_body := hb |} ] |} ])%list).
Proof.
  intros H1 H2 H3 H4 Htb Hhb Hcp Hne Hparse Hfuel.
  pose proof (regex_search_commits _ _ _ _
                (try_catch_pattern_commits ws1 tb ws2 ws3 cp ws4 hb rest
                   H1 H2 H3 H4 Htb Hhb Hcp Hne)) as Hm.
  rewrite (search_loop_found try_catch_pattern _ _ _ _ _ eq_refl Hfuel Hm).
  cbn [m_suffix]. f_equal.
  unfold try_catch_step. cbn [mbind option_bind m_groups].
  change (group_str 2 [ (3, hb); (2, cp); (1, tb) ]) with cp.
  rewrite Hparse. reflexivity.
Qed.

Lemma analyzeFunction_blocks (func : IRFunction)
    (blocks : list TryCatchBlock) :
  search_loop (S (String.length (fn_body func))) try_catch_pattern
    try_catch_step (fn_body func) (Some (try_catch_blocks func))
  = Some (Some blocks) →
  ∃ func', analyzeFunction func = Some func'
           ∧ try_catch_blocks func' = blocks.
Proof.
  intros Hscan. unfold analyzeFunction, detectTryCatchBlocks.
  rewrite Hscan. cbn [mbind option_bind].
  eexists. split; [ reflexivity | ].
  match goal with
  | |- context [ set_may_throw ?v ?f ] =>
      destruct (set_may_throw_fields v f) as (_ & -> & _)
  end.
  destruct (analyzeExceptionSpec_fields
              (detectThrowStatements (set_try_catch_blocks blocks func)))
    as (_ & -> & _).
  destruct (detectThrowStatements_fields (set_try_catch_blocks blocks func))
    as (_ & _ & -> & _).
  by destruct (set_try_catch_blocks_fields blocks func) as (_ & _ & -> & _).
Qed.

(** C1, as stated, fails on the text of the specification: one clause is
    recorded, not two, and no clause has the type ["*"]. *)
Lemma nested_try_catch_not_two_clauses :
  ∃ func',
    analyzeFunction
      (plain_function "f"
         "try { try {...} catch(RuntimeError e){ rethrow } } catch(...) {}")
    = Some func'
    ∧ length (all_catch_clauses func') = 1
    ∧ ¬ (∃ h1 h2,
           all_catch_clauses func'
           = [ {| exception_type := "RuntimeError"; exception_var := "e";
                  handler_body := h1 |};
               {| exception_type := "*"; exception_var := "";
                  handler_body := h2 |} ]).
Proof.
  eexists. split; [ vm_compute; reflexivity | ].
  split; [ reflexivity | ]. intros (h1 & h2 & H). discriminate H.
Qed.

(** the mappers know the ellipsis as the catch-all type, not ["*"] *)
Example catch_all_type_is_ellipsis :
  parseCatchParameter "..." = Some ("...", "")
  ∧ ExceptionTypeMapper.getErrorDescription "..." = "Unknown error"
  ∧ ExceptionTypeMapper.getErrorDescription "*" = "Error: *"
  ∧ ExceptionTypeMapper.getRustErrorType "..." = "Box<dyn std::error::Error>"
  ∧ ExceptionTypeMapper.getRustErrorType "*" = "String".
Proof. vm_compute. repeat split. Qed.

End NestedTryCatch.

(** ** Thread creation and detach *)

Section Threads.
Import Regex RegexSpec ThreadAnalyzer.

(** the patterns are those of the source *)
Example thread_patterns_source :
  show thread_pattern1
  = "std::thread\s+(\w+)\s*\(\s*(\w+)\s*(?:,\s*([^)]*))?\)"
  ∧ show thread_pattern2
    = "std::thread\s+(\w+)\s*\{\s*(\w+)\s*(?:,\s*([^}]*))?\}"
  ∧ show thread_pattern3
    = "(?:auto|std::thread)\s+(\w+)\s*=\s*std::thread\s*\(\s*(\w+)\s*(?:,\s*([^)]*))?\)"
  ∧ show detach_pattern = "(\w+)\.detach\s*\(\)"
  ∧ show lock_guard_pattern
    = "std::lock_guard<[^>]+>\s+(\w+)\s*\(\s*(\w+)\s*\)"
  ∧ show unique_lock_pattern
    = "std::unique_lock<[^>]+>\s+(\w+)\s*\(\s*(\w+)\s*\)"
  ∧ show shared_lock_pattern
    = "std::shared_lock<[^>]+>\s+(\w+)\s*\(\s*(\w+)\s*\)"
  ∧ show atomic_pattern = "std::atomic<([^>]+)>\s+(\w+)"
  ∧ show atomic_op_pattern
    = "(\w+)\.(load|store|fetch_add|fetch_sub|exchange|compare_exchange_weak|compare_exchange_strong)\s*\("
  ∧ show cv_pattern = "std::condition_variable\s+(\w+)"
  ∧ show cv_op_pattern
    = "(\w+)\.(wait|notify_one|notify_all|wait_for|wait_until)\s*\("
  ∧ map (λ r, group_numbering r 1)
      [ thread_pattern1; thread_pattern2; thread_pattern3; detach_pattern;
        lock_guard_pattern; atomic_pattern; atomic_op_pattern; cv_pattern;
        cv_op_pattern ]
    = [ Some 4; Some 4; Some 4; Some 2; Some 3; Some 3; Some 3; Some 2;
        Some 3 ].
Proof. vm_compute. repeat split. Qed.

Lemma str_all_impl (p q : ascii → bool) (s : string) :
  (∀ c, p c = true → q c = true) → str_all p s = true → str_all q s = true.
Proof.
  intros Hpq. induction s as [ | c s IH ]; [ done | ]. cbn.
  intros [Hc Hs]%andb_true_iff. by rewrite (Hpq c Hc), (IH Hs).
Qed.

(** *** Searches that find nothing, or something further on *)

Lemma regex_search_none_cons (r : regex) (c : ascii) (s : string) :
  match_here r (String c s) = None → regex_search r s = None →
  regex_search r (String c s) = None.
Proof. intros Hm Hs. cbn [regex_search]. by rewrite Hm, Hs. Qed.

Lemma regex_search_none_app (r : regex) (pre s : string) :
  nonnull r = true →
  str_all (λ c, negb (can_start r c)) pre = true →
  regex_search r s = None → regex_search r (pre ++ s) = None.
Proof. intros Hn Hpre Hs. by rewrite regex_search_skip, Hs. Qed.

Lemma finds_here (r : regex) (s rest : string) (caps : captures) :
  commits r s [] rest caps → finds r s caps rest.
Proof. intros H. eexists. split; [ by apply regex_search_commits | done ]. Qed.

Lemma finds_cons (r : regex) (c : ascii) (s rest : string) (caps : captures) :
  match_here r (String c s) = None → finds r s caps rest →
  finds r (String c s) caps rest.
Proof.
  intros Hm (m & Hs & Hg & Hr). exists (shift_prefix c m).
  cbn [regex_search]. by rewrite Hm, Hs.
Qed.

Lemma finds_app (r : regex) (pre s rest : string) (caps : captures) :
  nonnull r = true →
  str_all (λ c, negb (can_start r c)) pre = true →
  finds r s caps rest → finds r (pre ++ s) caps rest.
Proof.
  intros Hn Hpre (m & Hs & Hg & Hr). exists (add_prefix pre m).
  by rewrite regex_search_skip, Hs.
Qed.

Lemma search_loop_finds {A} (r : regex) (body : smatch → A → A)
    (fuel : nat) (s rest : string) (caps : captures) (acc acc' : A) :
  nonnull r = true → String.length s < fuel →
  finds r s caps rest →
  (∀ m, m_groups m = caps → body m acc = acc') →
  search_loop fuel r body s acc
  = search_loop (S (String.length rest)) r body rest acc'.
Proof.
  intros Hn Hlt (m & Hs & Hg & Hr) Hbody.
  rewrite (search_loop_found r body fuel s acc m Hn Hlt Hs).
  by rewrite Hr, (Hbody m Hg).
Qed.

(** *** The spawn and the detach call *)



(** *** The passes of [analyzeFunction] *)

Lemma thread_setters_fields (f : IRFunction) :
  (∀ v, threads_created (set_threads_created v f) = v
        ∧ fn_body (set_threads_created v f) = fn_body f)
  ∧ (∀ v, threads_created (set_lock_scopes v f) = threads_created f)
  ∧ (∀ v, threads_created (set_atomic_operations v f) = threads_created f)
  ∧ (∀ v, threads_created (set_condition_variables v f) = threads_created f)
  ∧ (∀ v, threads_created (set_uses_threading v f) = threads_created f).
Proof. by destruct f. Qed.

Lemma search_loop_total {A} (r : regex) (body : smatch → A → A)
    (s : string) (acc : A) :
  nonnull r = true →
  is_Some (search_loop (S (String.length s)) r body s acc).
Proof.
  intros Hn.
  destruct (search_loop_terminates r body Hn (S (String.length s)) s acc)
    as (res & -> & _); [ lia | done ].
Qed.

Lemma detectMutexUsage_total (f : IRFunction) :
  ∃ ls, detectMutexUsage f = Some (set_lock_scopes ls f).
Proof.
  unfold detectMutexUsage.
  destruct (search_loop_total lock_guard_pattern (lock_step LockGuard)
              (fn_body f) (lock_scopes f) eq_refl) as [l1 ->].
  cbn [mbind option_bind].
  destruct (search_loop_total unique_lock_pattern (lock_step UniqueLock)
              (fn_body f) l1 eq_refl) as [l2 ->].
  cbn [mbind option_bind].
  destruct (search_loop_total shared_lock_pattern (lock_step SharedLock)
              (fn_body f) l2 eq_refl) as [l3 ->].
  by exists l3.
Qed.

Lemma detectAtomicOperations_total (f : IRFunction) :
  ∃ a, detectAtomicOperations f = Some (set_atomic_operations a f).
Proof.
  unfold detectAtomicOperations.
  destruct (search_loop_total atomic_pattern atomic_decl_step
              (fn_body f) (atomic_operations f) eq_refl) as [a1 ->].
  cbn [mbind option_bind].
  destruct (search_loop_total atomic_op_pattern atomic_op_step
              (fn_body f) a1 eq_refl) as [a2 ->].
  by exists a2.
Qed.

Lemma detectConditionVariables_total (f : IRFunction) :
  ∃ c, detectConditionVariables f = Some (set_condition_variables c f).
Proof.
  unfold detectConditionVariables.
  destruct (search_loop_total cv_pattern cv_decl_step
              (fn_body f) (condition_variables f) eq_refl) as [c1 ->].
  cbn [mbind option_bind].
  destruct (search_loop_total cv_op_pattern cv_op_step
              (fn_body f) c1 eq_refl) as [c2 ->].
  by exists c2.
Qed.

(** the later passes leave the threads recorded by the first alone *)
Lemma analyzeFunction_threads (dd dj : bool) (f f1 : IRFunction) :
  detectThreadCreation dd dj f = Some f1 →
  ∃ f', analyzeFunction dd dj f = Some f'
        ∧ threads_created f' = threads_created f1.
Proof.
  intros H1. unfold analyzeFunction. rewrite H1. cbn [mbind option_bind].
  destruct (detectMutexUsage_total f1) as [ls ->].
  cbn [mbind option_bind].
  destruct (detectAtomicOperations_total (set_lock_scopes ls f1)) as [a ->].
  cbn [mbind option_bind].
  destruct (detectConditionVariables_total
              (set_atomic_operations a (set_lock_scopes ls f1))) as [c ->].
  cbn [mbind option_bind].
  eexists. split; [ reflexivity | ].
  repeat match goal with
         | |- context [ threads_created (?set ?v ?f) ] =>
             let H := fresh in
             pose proof (thread_setters_fields f) as (_ & H1' & H2' & H3' & H4');
             first [ rewrite (H4' v) | rewrite (H3' v) | rewrite (H2' v)
                   | rewrite (H1' v) ];
             clear H1' H2' H3' H4'
         end.
  reflexivity.
Qed.


(** the detach call marks the thread whose name is the whole identifier
    before the dot *)
Example detach_of_longer_name :
  threads_created
  <$> analyzeFunction false true
        (plain_function "f" "std::thread t(worker, 10); xt.detach();")
  = Some [ {| thread_var_name := "t"; function_name := "worker";
              arguments := [ "10" ]; detached := false; joinable := true |} ].
Proof. vm_compute. reflexivity. Qed.

End Threads.


(** * Further properties of the code *)

(** ** The strategy for a function *)

Section Strategy.
Import ExceptionAnalyzer ExceptionStrategySelector.

(** The decision table: [selectStrategy] never chooses [Panic]. It
    chooses [Ignore] exactly when the function may not throw and either
    has no try/catch block or is not marked noexcept; otherwise the
    target alone decides, [ResultType] for ["rust"] and [ErrorReturn] for
    any other target. *)
Theorem selectStrategy_table (func : IRFunction) (target_lang : string) :
  let s := selectStrategy func target_lang in
  s ≠ Panic
  ∧ (s = Ignore
     ↔ may_throw func = false
       ∧ (try_catch_blocks func = []
          ∨ is_noexcept (exception_spec func) = false))
  ∧ (s = ResultType ↔ s ≠ Ignore ∧ target_lang = "rust")
  ∧ (s = ErrorReturn ↔ s ≠ Ignore ∧ target_lang ≠ "rust").
Proof.
  unfold selectStrategy.
  destruct (may_throw func), (try_catch_blocks func) as [ | b bs ],
    (is_noexcept (exception_spec func)),
    (String.eqb_spec target_lang "rust") as [Ht | Ht]; cbn;
    intuition congruence.
Qed.

Lemma analyzeFunction_flags (func func' : IRFunction) :
  analyzeFunction func = Some func' →
  may_throw func'
  = can_throw (exception_spec func') || nonempty (try_catch_blocks func')
    || containsThrowStatement (fn_body func').
Proof.
  destruct (detectTryCatchBlocks_appends func) as (found & Hd & _).
  unfold analyzeFunction. rewrite Hd; cbn [mbind option_bind]. intros [= <-].
  match goal with
  | |- context [ set_may_throw ?v ?f ] =>
      by destruct (set_may_throw_fields v f) as (-> & -> & -> & ->)
  end.
Qed.

(** X1: after [analyzeFunction] the strategy depends on [may_throw] and
    the target only: a function with a try/catch block always has
    [may_throw] set, so [Ignore] is chosen exactly when [may_throw] is
    false, and the noexcept case never decides. *)
Theorem selectStrategy_after_analysis (func func' : IRFunction)
    (target_lang : string) :
  analyzeFunction func = Some func' →
  selectStrategy func' target_lang
  = if may_throw func' then
      if String.eqb target_lang "rust" then ResultType else ErrorReturn
    else Ignore.
Proof.
  intros H%analyzeFunction_flags. unfold selectStrategy.
  destruct (may_throw func'); [ | ].
  - cbn. by destruct (is_noexcept (exception_spec func')
                      && nonempty (try_catch_blocks func')).
  - symmetry in H. apply orb_false_iff in H as [H _].
    apply orb_false_iff in H as [_ ->]. reflexivity.
Qed.

Lemma selectStrategy_after_analysis_witness :
  ∃ func',
    analyzeFunction (plain_function "f noexcept" "try { g(); } catch (E& e) { }")
    = Some func'
    ∧ selectStrategy func' "rust" = ResultType
    ∧ selectStrategy func' "go" = ErrorReturn.
Proof.
  eexists. split; [ vm_compute; reflexivity | ].
  split.
  - apply (selectStrategy_after_analysis
             (plain_function "f noexcept" "try { g(); } catch (E& e) { }")).
    vm_compute. reflexivity.
  - apply (selectStrategy_after_analysis
             (plain_function "f noexcept" "try { g(); } catch (E& e) { }")).
    vm_compute. reflexivity.
Defined.

End Strategy.

(** ** Tables of target names *)

Section Tables.
Import ExceptionTypeMapper ThreadingTypeMapper ThreadAnalyzer.

(** X2: the two exception tables agree: every exception type with a
    Rust error type of its own has a description in the table, and a type
    without a description is rendered as ["Error: "] followed by the type
    and gets the fallback Rust type [String]. *)
Theorem exception_tables_agree (exception_type : string) :
  (getRustErrorType exception_type ≠ "String" →
   is_Some (exception_map !! exception_type))
  ∧ (exception_map !! exception_type = None →
     getErrorDescription exception_type = "Error: " ++ exception_type
     ∧ getRustErrorType exception_type = "String").
Proof.
  assert (H : getRustErrorType exception_type ≠ "String" →
              is_Some (exception_map !! exception_type)).
  { unfold getRustErrorType.
    destruct (String.eqb_spec exception_type "std::exception") as [-> | _];
      [ by eexists | ].
    destruct (String.eqb_spec exception_type "std::runtime_error")
      as [-> | _]; [ by eexists | ].
    destruct (String.eqb_spec exception_type "std::invalid_argument")
      as [-> | _]; [ by eexists | ].
    destruct (String.eqb_spec exception_type "...") as [-> | _];
      [ by eexists | ].
    done. }
  split; [ exact H | ]. intros Hnone. split.
  - unfold getErrorDescription. by rewrite Hnone.
  - destruct (decide (getRustErrorType exception_type = "String"))
      as [ | Hne ]; [ done | ].
    destruct (H Hne) as [d Hd]. congruence.
Qed.

(** X3: the Rust and the Go table of threading types know the same
    kinds, and they know every kind that [analyzeClass] puts in the
    inventory of a class. *)
Theorem threading_tables_agree (kind : TypeKind) :
  (getRustThreadingType kind = unknown_threading_type
   ↔ getGoThreadingType kind = unknown_threading_type)
  ∧ (is_mutex_kind kind || is_atomic_kind kind = true →
     getRustThreadingType kind ≠ unknown_threading_type
     ∧ getGoThreadingType kind ≠ unknown_threading_type).
Proof.
  unfold unknown_threading_type.
  destruct kind; cbn; (split; [ split | ]); try done.
Qed.

End Tables.

(** ** Renderings of an ownership pattern *)

Section OwnershipRendering.
Import MemoryPatternAnalyzer.

Lemma sapp_not_self (pre s : string) : pre ≠ "" → pre ++ s ≠ s.
Proof.
  intros Hne H. apply (f_equal String.length) in H.
  rewrite slength_app in H. destruct pre; [ done | cbn in H; lia ].
Qed.

Lemma wrap_not_self (pre post s : string) : pre ≠ "" → pre ++ s ++ post ≠ s.
Proof.
  intros Hne H. apply (f_equal String.length) in H.
  rewrite !slength_app in H. destruct pre; [ done | cbn in H; lia ].
Qed.

(** X4: the Rust rendering tells the patterns apart: for the same inner
    type two patterns have the same rendering only if they are the same
    pattern. The Go rendering keeps one distinction only, that between
    [ValueSemantics] and all the others. *)
Theorem ownership_renderings (p q : OwnershipPattern) (inner : string) :
  (getRustEquivalent p inner = getRustEquivalent q inner → p = q)
  ∧ (getGoEquivalent p inner = getGoEquivalent q inner
     ↔ (p = ValueSemantics ↔ q = ValueSemantics)).
Proof.
  split.
  - destruct p, q; cbn [getRustEquivalent]; intros H; try reflexivity;
      exfalso;
      first
        [ by apply wrap_not_self in H
        | by symmetry in H; apply wrap_not_self in H
        | by apply sapp_not_self in H
        | by symmetry in H; apply sapp_not_self in H
        | rewrite !sapp_cons in H; congruence
        | rewrite !sapp_cons in H; injection H as H;
          first [ by apply (sapp_not_self "mut ") in H
                | by symmetry in H; apply (sapp_not_self "mut ") in H ] ].
  - destruct p, q; cbn [getGoEquivalent]; split; intros H;
      try reflexivity; try (split; congruence);
      try (exfalso;
           first [ by apply sapp_not_self in H
                 | by symmetry in H; apply sapp_not_self in H
                 | destruct H as [H1 H2];
                   first [ by specialize (H1 eq_refl)
                         | by specialize (H2 eq_refl) ] ]).
Qed.

End OwnershipRendering.

(** ** The registry of a program built by the front end *)

Section BuiltRegistry.

(** X5: in a program built from the empty one by [addClass],
    [addFunction] and [addGlobalVariable], [findType] finds exactly the
    names of the classes added, and what it finds is the bare class type
    of that name: no fields, no size, whatever the class declares. *)
Theorem findType_built (ir : IR) :
  built ir →
  ∀ name,
    (findType name ir ≠ None ↔ name ∈ map cls_name (classes_ ir))
    ∧ (∀ t, findType name ir = Some t → t = set_name name (new_Type Class)).
Proof.
  induction 1 as [ | ir cd _ IH | ir f _ IH | ir v _ IH ]; intros name.
  - split; [ | done ]. cbn. split; [ done | ]. by intros H%elem_of_nil.
  - destruct (IH name) as [IH1 IH2].
    destruct (decide (cls_name cd = name)) as [<- | Hne].
    + unfold addClass. rewrite findType_registerType. split.
      * split; [ | done ]. intros _. cbn. rewrite map_app.
        apply elem_of_app. right. cbn. apply list_elem_of_singleton.
        reflexivity.
      * by intros t [= <-].
    + unfold addClass. rewrite findType_registerType_ne by done.
      split.
      * cbn [classes_ registerType]. rewrite map_app, elem_of_app. cbn.
        rewrite list_elem_of_singleton.
        change (findType name
                  {| classes_ := classes_ ir ++ [cd];
                     functions_ := functions_ ir;
                     global_vars_ := global_vars_ ir;
                     type_registry_ := type_registry_ ir |})
          with (findType name ir).
        rewrite IH1. intuition congruence.
      * exact IH2.
  - exact (IH name).
  - exact (IH name).
Qed.

Lemma findType_built_witness :
  findType "Point" (addFunction (plain_function "f" "")
                      (addClass point_class empty_IR))
  = Some (set_name "Point" (new_Type Class))
  ∧ findType "f" (addFunction (plain_function "f" "")
                    (addClass point_class empty_IR)) = None.
Proof.
  pose proof (findType_built
                (addFunction (plain_function "f" "")
                   (addClass point_class empty_IR))
                (built_function _ _ (built_class _ _ built_empty))) as H.
  split.
  - destruct (findType "Point" _) as [t | ] eqn:Ht.
    + f_equal. exact (proj2 (H "Point") t Ht).
    + vm_compute in Ht. discriminate Ht.
  - destruct (findType "f" _) as [t | ] eqn:Ht; [ | reflexivity ].
    vm_compute in Ht. discriminate Ht.
Defined.

End BuiltRegistry.
(** ** Searching a string for another *)

Section StringSearch.

Lemma prefix_iff (n s : string) :
  String.prefix n s = true ↔ ∃ post, s = n ++ post.
Proof.
  revert n. induction s as [ | d s IH ]; intros [ | c n ]; cbn.
  - split; [ intros _; by exists "" | done ].
  - split; [ done | intros [post H]; rewrite sapp_cons in H; discriminate H ].
  - split; [ intros _; by exists (String d s) | done ].
  - destruct (ascii_dec c d) as [-> | Hne].
    + rewrite IH. split; intros [post H]; exists post.
      * by rewrite sapp_cons, H.
      * rewrite sapp_cons in H. by injection H.
    + split; [ done | ]. intros [post H]. rewrite sapp_cons in H.
      injection H as H _. by destruct Hne.
Qed.

Lemma contains_cons (c : ascii) (hay needle : string) :
  Str.contains (String c hay) needle
  = String.prefix needle (String c hay) || Str.contains hay needle.
Proof.
  unfold Str.contains. cbn [index].
  destruct (String.prefix needle (String c hay)); [ done | ].
  by destruct (index 0 needle hay).
Qed.

Lemma contains_nil (needle : string) :
  Str.contains "" needle = true ↔ needle = "".
Proof. destruct needle; cbn; split; done. Qed.

(** [hay.find(needle) != npos] says that [needle] occurs in [hay] *)
Lemma contains_iff (hay needle : string) :
  Str.contains hay needle = true ↔ ∃ pre post, hay = pre ++ needle ++ post.
Proof.
  induction hay as [ | c hay IH ].
  - rewrite contains_nil. split.
    + intros ->. by exists "", "".
    + intros (pre & post & H). destruct pre; [ | done ].
      destruct needle; [ done | discriminate H ].
  - rewrite contains_cons, orb_true_iff, prefix_iff, IH. split.
    + intros [[post H] | (pre & post & H)].
      * by exists "", post.
      * exists (String c pre), post. by rewrite sapp_cons, H.
    + intros (pre & post & H). destruct pre as [ | d pre ].
      * left. by exists post.
      * right. rewrite sapp_cons in H. injection H as _ H.
        by exists pre, post.
Qed.

(** a text that contains [p ++ a ++ q] contains [a] *)
Lemma contains_inner (hay p a q : string) :
  Str.contains hay (p ++ a ++ q) = true → Str.contains hay a = true.
Proof.
  rewrite !contains_iff. intros (pre & post & ->).
  exists (pre ++ p), (q ++ post). by rewrite !sapp_assoc.
Qed.

Lemma contains_tail (hay : string) (c : ascii) (a : string) :
  Str.contains hay (String c a) = true → Str.contains hay a = true.
Proof.
  intros H. apply (contains_inner hay (String c "") a "").
  by rewrite sapp_nil_r.
Qed.

Lemma contains_self (s : string) : Str.contains s s = true.
Proof. apply contains_iff. exists "", "". by rewrite sapp_nil_r. Qed.

Lemma contains_length (hay needle : string) :
  Str.contains hay needle = true → String.length needle ≤ String.length hay.
Proof.
  rewrite contains_iff. intros (pre & post & ->). rewrite !slength_app. lia.
Qed.

End StringSearch.

(** ** The container mapper *)

(** membership in a list of literals *)
Ltac no_elem H :=
  exfalso;
  repeat (apply elem_of_cons in H as [H | H]; [ discriminate H | ]);
  by apply elem_of_nil in H.

Ltac in_list := apply list_elem_of_In; cbn; tauto.

Section Containers.
Import STLContainerMapper.

(** the names of the kind table are in the list of container names *)
Lemma kind_map_listed (name : string) (kind : TypeKind) :
  kind_map !! name = Some kind → In name containers.
Proof.
  intros Hk. apply elem_of_list_to_map_2 in Hk. unfold containers.
  repeat (apply elem_of_cons in Hk as [Hk | Hk];
          [ injection Hk as -> ->; cbn; tauto | ]).
  by apply elem_of_nil in Hk.
Qed.

Lemma isSTLContainer_intro (type_name name : string) (kind : TypeKind) :
  kind_map !! name = Some kind → Str.contains type_name name = true →
  isSTLContainer type_name = true.
Proof.
  intros Hk Hc. unfold isSTLContainer. apply existsb_exists.
  exists name. split; [ by eapply kind_map_listed | exact Hc ].
Qed.

(** X6: a type name is taken for a container exactly when one of the ten
    names of the kind table occurs somewhere in it; the [std::] entries
    of the list add nothing, and a name that only contains a container
    name, as [bitset] contains [set], is taken for a container too. *)
Theorem isSTLContainer_occurrence (type_name : string) :
  isSTLContainer type_name = true
  ↔ ∃ name, is_Some (kind_map !! name)
            ∧ Str.contains type_name name = true.
Proof.
  unfold isSTLContainer. rewrite existsb_exists. split.
  - intros (container & Hin & Hc). unfold containers in Hin.
    repeat (destruct Hin as [<- | Hin];
            [ first
                [ eexists; split; [ | exact Hc ]; by eexists
                | do 5 apply contains_tail in Hc;
                  eexists; split; [ | exact Hc ]; by eexists ] | ]).
    destruct Hin.
  - intros (name & [k Hk] & Hc). apply existsb_exists.
    by eapply isSTLContainer_intro.
Qed.

Lemma contains_uint (name width : string) :
  Str.contains name ("uint" ++ width ++ "_t") = true →
  Str.contains name ("int" ++ width ++ "_t") = true.
Proof. apply contains_tail. Qed.

(** for a name that is none of the eight spelt-out names, the Rust
    integer is decided by the first fixed-width name found in it *)
Lemma rust_integer_by_search (name : string) :
  name ∉ [ "int"; "unsigned int"; "long"; "unsigned long"; "short";
           "unsigned short"; "char"; "unsigned char" ] →
  rust_integer name
  = if Str.contains name "int8_t" then "i8"
    else if Str.contains name "int16_t" then "i16"
    else if Str.contains name "int32_t" then "i32"
    else if Str.contains name "int64_t" then "i64"
    else if Str.contains name "size_t" then "usize"
    else "i32".
Proof.
  intros Hne. unfold rust_integer.
  repeat match goal with
         | |- context [ String.eqb name ?b ] =>
             destruct (String.eqb_spec name b) as [-> | _];
             [ exfalso; apply Hne; in_list | ]
         end.
  destruct (Str.contains name "int8_t") eqn:H8; [ done | ].
  destruct (Str.contains name "int16_t") eqn:H16; [ done | ].
  destruct (Str.contains name "int32_t") eqn:H32; [ done | ].
  destruct (Str.contains name "int64_t") eqn:H64; [ done | ].
  destruct (Str.contains name "uint8_t") eqn:U8;
    [ apply contains_tail in U8; congruence | ].
  destruct (Str.contains name "uint16_t") eqn:U16;
    [ apply contains_tail in U16; congruence | ].
  destruct (Str.contains name "uint32_t") eqn:U32;
    [ apply contains_tail in U32; congruence | ].
  destruct (Str.contains name "uint64_t") eqn:U64;
    [ apply contains_tail in U64; congruence | ].
  done.
Qed.

(** X7: the Rust integer of a name is one of the unsigned types [u8],
    [u16], [u32], [u64] only for the four names spelt [unsigned ...]: a
    name with [uint8_t] in it also has [int8_t] in it, which is looked
    for first, so a fixed-width unsigned name gets a signed type. The Go
    integer is unsigned only for the same four names and for a name with
    [size_t] in it. *)
Theorem unsigned_integer_names (t : IRType) :
  ty_kind t = Integer →
  (getRustEquivalent (Some t) ∈ [ "u8"; "u16"; "u32"; "u64" ] →
   ty_name t ∈ [ "unsigned int"; "unsigned long"; "unsigned short";
                 "unsigned char" ])
  ∧ (getGoEquivalent (Some t) ∈ [ "uint8"; "uint16"; "uint32"; "uint64" ] →
     ty_name t ∈ [ "unsigned int"; "unsigned long"; "unsigned short";
                   "unsigned char" ]
     ∨ Str.contains (ty_name t) "size_t" = true)
  ∧ (∀ width, width ∈ [ "8"; "16"; "32"; "64" ] →
     Str.contains (ty_name t) ("uint" ++ width ++ "_t") = true →
     getRustEquivalent (Some t) ∈ [ "i8"; "i16"; "i32"; "i64" ]).
Proof.
  destruct t as [k name c m e a sz al]; cbn [ty_kind ty_name].
  intros ->. cbn [getRustEquivalent getGoEquivalent].
  rewrite (eq_refl :
             getRustEquivalent_type (mkType Integer name c m e a sz al)
             = rust_integer name).
  rewrite (eq_refl :
             getGoEquivalent_type (mkType Integer name c m e a sz al)
             = go_integer name).
  destruct (decide (name ∈ [ "int"; "unsigned int"; "long"; "unsigned long";
                             "short"; "unsigned short"; "char";
                             "unsigned char" ])) as [Hin | Hout].
  - repeat (apply elem_of_cons in Hin as [-> | Hin]);
      [ .. | by apply elem_of_nil in Hin ].
    all: repeat split;
      [ intros H; first [ in_list | no_elem H ]
      | intros H; first [ left; in_list | no_elem H ]
      | intros width Hw Hc;
        repeat (apply elem_of_cons in Hw as [-> | Hw]);
        [ .. | by apply elem_of_nil in Hw ]; vm_compute in Hc;
        discriminate Hc ].
  - rewrite (rust_integer_by_search name Hout).
    assert (Hgo : go_integer name
                  = if Str.contains name "size_t" then "uint64" else "int32").
    { unfold go_integer.
      repeat match goal with
             | |- context [ String.eqb name ?b ] =>
                 destruct (String.eqb_spec name b) as [-> | _];
                 [ exfalso; apply Hout; in_list | ]
             end.
      done. }
    rewrite Hgo. repeat split.
    + intros H.
      destruct (Str.contains name "int8_t"); [ no_elem H | ].
      destruct (Str.contains name "int16_t"); [ no_elem H | ].
      destruct (Str.contains name "int32_t"); [ no_elem H | ].
      destruct (Str.contains name "int64_t"); [ no_elem H | ].
      destruct (Str.contains name "size_t"); no_elem H.
    + intros H. destruct (Str.contains name "size_t"); [ by right | ].
      no_elem H.
    + intros width Hw Hc. apply contains_uint in Hc.
      repeat (apply elem_of_cons in Hw as [-> | Hw]);
        [ .. | by apply elem_of_nil in Hw ].
      * change ("int" ++ "8" ++ "_t") with "int8_t" in Hc. rewrite Hc.
        in_list.
      * change ("int" ++ "16" ++ "_t") with "int16_t" in Hc. rewrite Hc.
        destruct (Str.contains name "int8_t"); in_list.
      * change ("int" ++ "32" ++ "_t") with "int32_t" in Hc. rewrite Hc.
        destruct (Str.contains name "int8_t"); [ in_list | ].
        destruct (Str.contains name "int16_t"); in_list.
      * change ("int" ++ "64" ++ "_t") with "int64_t" in Hc. rewrite Hc.
        destruct (Str.contains name "int8_t"); [ in_list | ].
        destruct (Str.contains name "int16_t"); [ in_list | ].
        destruct (Str.contains name "int32_t"); in_list.
Qed.

Lemma unsigned_integer_names_witness :
  getRustEquivalent (Some (set_name "uint64_t" (new_Type Integer)))
  ∈ [ "i8"; "i16"; "i32"; "i64" ].
Proof.
  apply (unsigned_integer_names (set_name "uint64_t" (new_Type Integer))
           eq_refl) with (width := "64").
  - in_list.
  - reflexivity.
Defined.

End Containers.

Section ContainerTypes.
Import STLContainerMapper.

Lemma substring_length (s : string) (n m : nat) :
  String.length (substring n m s) = Nat.min m (String.length s - n).
Proof.
  revert n m. induction s as [ | c s IH ]; intros n m.
  - destruct n, m; cbn; lia.
  - destruct n as [ | n ]; cbn.
    + destruct m as [ | m ]; cbn; [ done | ]. rewrite IH. lia.
    + apply IH.
Qed.

Lemma trim_length (s : string) : String.length (trim s) ≤ String.length s.
Proof.
  unfold trim. destruct (Str.find_first_not_of trim_set s); [ | cbn; lia ].
  destruct (Str.find_last_not_of trim_set s); [ | cbn; lia ].
  rewrite substring_length. lia.
Qed.

Lemma find_char_lt (c : ascii) (s : string) (pos : nat) :
  Str.find_char c s = Some pos → pos < String.length s.
Proof.
  revert pos. induction s as [ | d s IH ]; intros pos; cbn; [ done | ].
  destruct (Ascii.eqb d c).
  - intros [= <-]. lia.
  - destruct (Str.find_char c s) as [p | ]; [ | done ].
    intros [= <-]. specialize (IH p eq_refl). lia.
Qed.

Lemma push_arg_lengths (n : nat) (arg : string) (args : list string) :
  String.length arg ≤ n →
  Forall (λ a, String.length a ≤ n) args →
  Forall (λ a, String.length a ≤ n) (push_arg arg args).
Proof.
  intros Hle Hall. unfold push_arg.
  destruct (Str.is_empty (trim arg)); [ done | ].
  apply Forall_app. split; [ done | ].
  apply Forall_singleton. pose proof (trim_length arg). lia.
Qed.

Lemma split_loop_lengths (args_str : string) :
  ∀ (rest : string) (i : nat) (depth : Z) (last : nat) (args : list string),
    Forall (λ a, String.length a ≤ String.length args_str) args →
    Forall (λ a, String.length a ≤ String.length args_str)
      (split_loop args_str rest i depth last args).
Proof.
  induction rest as [ | c rest IH ]; intros i depth last args Hall.
  - cbn. apply push_arg_lengths; [ | done ].
    unfold Str.substr_from. rewrite substring_length. lia.
  - cbn [split_loop].
    destruct (Ascii.eqb c "<"); [ by apply IH | ].
    destruct (Ascii.eqb c ">"); [ by apply IH | ].
    destruct (Ascii.eqb c "," && (depth =? 0)%Z); [ | by apply IH ].
    apply IH. apply push_arg_lengths; [ | done ].
    rewrite substring_length. lia.
Qed.

(** every template argument is shorter than the type it is taken from:
    what makes the mutual recursion of the mapper end *)
Lemma extractTemplateArgs_shorter (type_str : string) :
  Forall (λ a, String.length a < String.length type_str)
    (extractTemplateArgs type_str).
Proof.
  unfold extractTemplateArgs.
  destruct (Str.find_char "<" type_str) as [start | ] eqn:Hs; [ | done ].
  destruct (Str.rfind_char ">" type_str) as [end_ | ]; [ | done ].
  destruct (end_ <=? start); [ done | ].
  apply find_char_lt in Hs.
  eapply Forall_impl; [ by apply split_loop_lengths | ].
  cbn. intros a Ha. rewrite substring_length in Ha. lia.
Qed.

Lemma map_args_ext (f g : string → option (option IRType)) (n : nat)
    (args : list string) :
  (∀ a, String.length a < n → f a = g a) →
  Forall (λ a, String.length a < n) args →
  ∀ mapped, map_args f args mapped = map_args g args mapped.
Proof.
  intros Hfg. induction 1 as [ | a args Ha _ IH ]; intros mapped; [ done | ].
  cbn [map_args]. unfold mapTypeRecursive_with.
  destruct (isSTLContainer (trim a)).
  - rewrite Hfg by (pose proof (trim_length a); lia).
    destruct (g (trim a)) as [r | ]; [ | done ]. cbn. apply IH.
  - cbn. apply IH.
Qed.

Lemma mapSTLContainer_fuel_indep (fuel : nat) :
  ∀ (fuel' : nat) (cpp_type : string),
    String.length cpp_type < fuel → String.length cpp_type < fuel' →
    mapSTLContainer_fuel fuel cpp_type = mapSTLContainer_fuel fuel' cpp_type.
Proof.
  induction fuel as [ | fuel IH ]; intros fuel' s Hlt Hlt'; [ lia | ].
  destruct fuel' as [ | fuel' ]; [ lia | ].
  cbn [mapSTLContainer_fuel]. case_decide; [ done | ].
  rewrite (map_args_ext (mapSTLContainer_fuel fuel)
             (mapSTLContainer_fuel fuel') (String.length s));
    [ done | | apply extractTemplateArgs_shorter ].
  intros a Ha. apply IH; lia.
Qed.

(** the equation of the source: the arguments are mapped by the function
    itself *)
Lemma mapSTLContainer_eq (cpp_type : string) :
  mapSTLContainer cpp_type
  = let container_name := extractContainerName cpp_type in
    let kind := getSTLContainerKind container_name in
    if decide (kind = Template) then Some None
    else
      args ← map_args mapSTLContainer (extractTemplateArgs cpp_type) [];
      Some (Some (set_template_args args
                    (set_name container_name (new_Type kind)))).
Proof.
  unfold mapSTLContainer at 1. cbn [mapSTLContainer_fuel]. cbn zeta.
  case_decide; [ done | ].
  rewrite (map_args_ext (mapSTLContainer_fuel (String.length cpp_type))
             mapSTLContainer (String.length cpp_type));
    [ done | | apply extractTemplateArgs_shorter ].
  intros a Ha. unfold mapSTLContainer. apply mapSTLContainer_fuel_indep; lia.
Qed.

Lemma map_args_returns (f : string → option (option IRType)) (n : nat)
    (args : list string) :
  (∀ a, String.length a < n → is_Some (f a)) →
  Forall (λ a, String.length a < n) args →
  ∀ mapped,
    ∃ rs, mapM (mapTypeRecursive_with f) args = Some rs
          ∧ map_args f args mapped = Some (mapped ++ omap id rs)%list.
Proof.
  intros Hf. induction 1 as [ | a args Ha _ IH ]; intros mapped.
  - exists []. cbn. by rewrite List.app_nil_r.
  - cbn [map_args].
    assert (Hr : is_Some (mapTypeRecursive_with f a)).
    { unfold mapTypeRecursive_with. destruct (isSTLContainer (trim a)).
      - apply Hf. pose proof (trim_length a). lia.
      - by eexists. }
    destruct Hr as [r Hr]. rewrite Hr. cbn [mbind option_bind].
    destruct (IH (match r with
                  | Some t => (mapped ++ [t])%list
                  | None => mapped
                  end)) as (rs & Hrs & ->).
    exists (r :: rs). split.
    + cbn. rewrite Hr. cbn. by rewrite Hrs.
    + destruct r as [t | ]; cbn; [ | done ]. by rewrite <- List.app_assoc.
Qed.

Lemma mapSTLContainer_fuel_returns (fuel : nat) :
  ∀ cpp_type, String.length cpp_type < fuel →
              is_Some (mapSTLContainer_fuel fuel cpp_type).
Proof.
  induction fuel as [ | fuel IH ]; intros s Hlt; [ lia | ].
  cbn [mapSTLContainer_fuel]. case_decide; [ by eexists | ].
  destruct (map_args_returns (mapSTLContainer_fuel fuel) (String.length s)
              (extractTemplateArgs s)) with (mapped := @nil IRType)
    as (rs & _ & ->).
  - intros a Ha. apply IH. lia.
  - apply extractTemplateArgs_shorter.
  - by eexists.
Qed.

Lemma mapSTLContainer_is_Some (cpp_type : string) :
  is_Some (mapSTLContainer cpp_type).
Proof. apply mapSTLContainer_fuel_returns. lia. Qed.

Lemma mapTypeRecursive_is_Some (type_str : string) :
  is_Some (mapTypeRecursive type_str).
Proof.
  unfold mapTypeRecursive, mapTypeRecursive_with.
  destruct (isSTLContainer (trim type_str));
    [ apply mapSTLContainer_is_Some | by eexists ].
Qed.

Lemma kind_map_not_Template (name : string) :
  getSTLContainerKind name = Template ↔ kind_map !! name = None.
Proof.
  unfold getSTLContainerKind.
  destruct (kind_map !! name) as [k | ] eqn:Hk; [ | done ].
  split; [ | done ]. intros ->.
  apply elem_of_list_to_map_2 in Hk.
  repeat (apply elem_of_cons in Hk as [Hk | Hk]; [ discriminate Hk | ]).
  by apply elem_of_nil in Hk.
Qed.

Lemma mapSTLContainer_unknown (cpp_type : string) :
  kind_map !! extractContainerName cpp_type = None →
  mapSTLContainer cpp_type = Some None.
Proof.
  intros Hk. rewrite mapSTLContainer_eq. cbn zeta.
  case_decide as Hd; [ done | ]. destruct Hd.
  by apply kind_map_not_Template.
Qed.

Lemma mapSTLContainer_known (cpp_type : string) (kind : TypeKind) :
  kind_map !! extractContainerName cpp_type = Some kind →
  ∃ rs, mapM mapTypeRecursive (extractTemplateArgs cpp_type) = Some rs
        ∧ mapSTLContainer cpp_type
          = Some (Some (set_template_args (omap id rs)
                          (set_name (extractContainerName cpp_type)
                             (new_Type kind)))).
Proof.
  intros Hk. rewrite mapSTLContainer_eq. cbn zeta.
  pose proof (kind_map_not_Template (extractContainerName cpp_type)) as Hn.
  unfold getSTLContainerKind in *. rewrite Hk in *.
  case_decide as Hd; [ apply Hn in Hd; discriminate Hd | ].
  destruct (map_args_returns mapSTLContainer (String.length cpp_type)
              (extractTemplateArgs cpp_type))
    with (mapped := @nil IRType) as (rs & Hrs & ->).
  - intros a _. apply mapSTLContainer_is_Some.
  - apply extractTemplateArgs_shorter.
  - by exists rs.
Qed.

Lemma omap_id_length {A} (rs : list (option A)) :
  length (omap id rs) ≤ length rs.
Proof. induction rs as [ | [t | ] rs IH ]; cbn; lia. Qed.

(** X8: [mapSTLContainer] returns for every type string: each template
    argument is shorter than the string it is taken from, so the calls of
    [mapSTLContainer] and [mapTypeRecursive] on each other end. The result
    is null exactly when the container name is not in the kind table;
    otherwise it has the kind of the table, the container name as its
    name, no size, and as arguments the results of [mapTypeRecursive] on
    the template arguments, in order, those that are null left out. *)
Theorem mapSTLContainer_returns (cpp_type : string) :
  ∃ r, mapSTLContainer cpp_type = Some r
       ∧ match kind_map !! extractContainerName cpp_type with
         | None => r = None
         | Some kind =>
             ∃ t rs,
               r = Some t
               ∧ ty_kind t = kind
               ∧ ty_name t = extractContainerName cpp_type
               ∧ mapM mapTypeRecursive (extractTemplateArgs cpp_type)
                 = Some rs
               ∧ ty_template_args t = omap id rs
               ∧ length (ty_template_args t)
                 ≤ length (extractTemplateArgs cpp_type)
               ∧ ty_size_bytes t = 0%Z
               ∧ ty_element_type t = None
         end.
Proof.
  destruct (kind_map !! extractContainerName cpp_type) as [kind | ] eqn:Hk.
  - destruct (mapSTLContainer_known cpp_type kind Hk) as (rs & Hrs & ->).
    eexists. split; [ reflexivity | ].
    eexists _, rs. split; [ reflexivity | ]. cbn.
    repeat split; try done.
    rewrite (length_mapM _ _ _ Hrs). apply omap_id_length.
  - exists None. split; [ by apply mapSTLContainer_unknown | done ].
Qed.

Lemma mapBuiltinType_leaf (type_name : string) :
  isSTLContainer type_name = false → mapped_type (mapBuiltinType type_name).
Proof.
  intros Hc. apply mapped_leaf; unfold mapBuiltinType;
    destruct (builtin_map !! type_name) as [k | ] eqn:Hk;
    cbn [ty_name ty_kind ty_template_args set_name new_Type];
    rewrite ?Hk; done.
Qed.

Lemma map_args_mapped (f : string → option (option IRType))
    (args : list string) :
  (∀ a t, f a = Some (Some t) → mapped_type t) →
  ∀ mapped l,
    Forall mapped_type mapped → map_args f args mapped = Some l →
    Forall mapped_type l.
Proof.
  intros Hf. induction args as [ | a args IH ]; intros mapped l Hall; cbn.
  - by intros [= <-].
  - unfold mapTypeRecursive_with.
    destruct (isSTLContainer (trim a)) eqn:Hc.
    + destruct (f (trim a)) as [[t | ] | ] eqn:Hfa; cbn; [ | by apply IH | done ].
      apply IH. apply Forall_app. split; [ done | ].
      apply Forall_singleton. by apply (Hf (trim a)).
    + cbn. apply IH. apply Forall_app. split; [ done | ].
      apply Forall_singleton. by apply mapBuiltinType_leaf.
Qed.

Lemma mapSTLContainer_fuel_mapped (fuel : nat) :
  ∀ cpp_type t,
    mapSTLContainer_fuel fuel cpp_type = Some (Some t) → mapped_type t.
Proof.
  induction fuel as [ | fuel IH ]; intros s t; [ done | ].
  cbn [mapSTLContainer_fuel]. case_decide as Hd; [ done | ].
  destruct (map_args _ _ _) as [args | ] eqn:Hargs; [ | done ].
  cbn [mbind option_bind]. intros [= <-].
  apply mapped_container;
    cbn [ty_name ty_kind ty_template_args set_template_args set_name
         new_Type].
  - unfold getSTLContainerKind in *.
    by destruct (kind_map !! extractContainerName s).
  - by apply (map_args_mapped _ (extractTemplateArgs s) IH [] args).
Qed.

(** X9: in a type built by the container mapper every node is either a
    container whose kind is the one the kind table gives for its name,
    or a leaf without arguments whose name is not taken for a container
    and whose kind is the builtin kind of its name, [Class] if it has
    none. A template argument whose name is taken for a container without
    being one is therefore in no argument list. *)
Theorem mapTypeRecursive_mapped (type_str : string) (t : IRType) :
  mapTypeRecursive type_str = Some (Some t) → mapped_type t.
Proof.
  unfold mapTypeRecursive, mapTypeRecursive_with.
  destruct (isSTLContainer (trim type_str)) eqn:Hc.
  - apply mapSTLContainer_fuel_mapped.
  - intros [= <-]. by apply mapBuiltinType_leaf.
Qed.

Lemma mapTypeRecursive_mapped_witness :
  ∃ t, mapTypeRecursive " map<string, vector<bitset<8>>>" = Some (Some t)
       ∧ getRustEquivalent (Some t)
         = "std::collections::BTreeMap<String, Vec<()>>"
       ∧ mapped_type t.
Proof.
  eexists. split; [ vm_compute; reflexivity | ].
  split; [ vm_compute; reflexivity | ].
  apply (mapTypeRecursive_mapped " map<string, vector<bitset<8>>>").
  vm_compute. reflexivity.
Defined.

Lemma std_name_unknown (name : string) : kind_map !! ("std::" ++ name) = None.
Proof.
  apply not_elem_of_list_to_map_1. cbn. rewrite !sapp_cons, sapp_nil_l.
  intros H.
  repeat (apply elem_of_cons in H as [H | H]; [ discriminate H | ]).
  by apply elem_of_nil in H.
Qed.

Lemma kind_map_name_plain (name : string) (kind : TypeKind) :
  kind_map !! name = Some kind → Str.find_char "<" name = None.
Proof.
  intros Hk. apply elem_of_list_to_map_2 in Hk.
  repeat (apply elem_of_cons in Hk as [Hk | Hk];
          [ injection Hk as -> ->; reflexivity | ]).
  by apply elem_of_nil in Hk.
Qed.

Lemma extractContainerName_plain (name : string) :
  Str.find_char "<" name = None → extractContainerName name = name.
Proof. intros H. unfold extractContainerName. by rewrite H. Qed.

Lemma find_std (name : string) : Str.find ("std::" ++ name) "std::" = Some 0.
Proof.
  unfold Str.find.
  assert (H : String.prefix "std::" ("std::" ++ name) = true).
  { apply prefix_iff. by exists name. }
  rewrite sapp_cons in *. cbn [index]. by rewrite H.
Qed.

Lemma extractContainerName_std (name rest : string) :
  Str.find_char "<" name = None →
  extractContainerName ("std::" ++ name ++ "<" ++ rest) = name.
Proof.
  intros Hn. unfold extractContainerName.
  assert (Hstd : Str.find_char "<" ("std::" ++ name) = None).
  { rewrite !sapp_cons, sapp_nil_l. cbn. by rewrite Hn. }
  rewrite <- (sapp_assoc "std::" name), (sapp_cons "<" "" rest), sapp_nil_l.
  rewrite (find_char_app "<" _ rest Hstd), substring_0_app.
  rewrite bool_decide_eq_true_2 by apply find_std.
  apply (substr_from_app "std::").
Qed.

(** X10: the [std::] prefix is taken off a container name only where
    template arguments follow. A qualified name without them, as
    [std::string], is looked up with its prefix and maps to null, while
    the same name unqualified, or qualified and followed by an argument
    list, maps to a type of its kind. *)
Theorem mapSTLContainer_std_prefix (name rest : string) (kind : TypeKind) :
  kind_map !! name = Some kind →
  mapSTLContainer ("std::" ++ name) = Some None
  ∧ isSTLContainer ("std::" ++ name) = true
  ∧ (∃ t, mapSTLContainer name = Some (Some t)
          ∧ ty_kind t = kind ∧ ty_name t = name)
  ∧ (∃ t, mapSTLContainer ("std::" ++ name ++ "<" ++ rest) = Some (Some t)
          ∧ ty_kind t = kind ∧ ty_name t = name).
Proof.
  intros Hk. pose proof (kind_map_name_plain name kind Hk) as Hplain.
  split; [ | split; [ | split ] ].
  - apply mapSTLContainer_unknown.
    rewrite extractContainerName_plain; [ apply std_name_unknown | ].
    rewrite !sapp_cons, sapp_nil_l. cbn. by rewrite Hplain.
  - apply (isSTLContainer_intro _ name kind Hk).
    apply contains_iff. exists "std::", "". by rewrite sapp_nil_r.
  - destruct (mapSTLContainer_known name kind) as (rs & _ & ->).
    + by rewrite extractContainerName_plain.
    + rewrite extractContainerName_plain by done. by eexists.
  - destruct (mapSTLContainer_known ("std::" ++ name ++ "<" ++ rest) kind)
      as (rs & _ & ->).
    + by rewrite extractContainerName_std.
    + rewrite extractContainerName_std by done. by eexists.
Qed.

Lemma mapSTLContainer_std_prefix_witness :
  mapSTLContainer "std::string" = Some None
  ∧ isSTLContainer "std::string" = true
  ∧ (∃ t, mapSTLContainer "string" = Some (Some t)
          ∧ ty_kind t = StdString ∧ ty_name t = "string")
  ∧ (∃ t, mapSTLContainer "std::string<>" = Some (Some t)
          ∧ ty_kind t = StdString ∧ ty_name t = "string").
Proof. apply (mapSTLContainer_std_prefix "string" ">" StdString). reflexivity. Defined.

End ContainerTypes.

(** ** What a match consists of *)

Section Matches.
Import Regex RegexSpec.

Lemma star_sound {R} (cl : cclass) (s : string) (k : string → option R)
    (x : R) :
  star cl s k = Some x →
  ∃ b s', s = b ++ s' ∧ str_all (class_mem cl) b = true ∧ k s' = Some x.
Proof.
  induction s as [ | c s IH ]; cbn.
  - intros H. by exists "", "".
  - destruct (class_mem cl c) eqn:Hc.
    + destruct (star cl s k) as [y | ] eqn:Hs.
      * intros [= ->]. destruct (IH eq_refl) as (b & s' & -> & Hb & Hk).
        exists (String c b), s'. cbn. by rewrite Hc, Hb.
      * intros H. by exists "", (String c s).
    + intros H. by exists "", (String c s).
Qed.

(** a successful match is one of the matches that [derives] describes *)
Lemma rmatch_sound {R} (r : regex) :
  ∀ (s : string) (caps : captures) (k : string → captures → option R) (x : R),
    rmatch r s caps k = Some x →
    ∃ s' caps', derives r s caps s' caps' ∧ k s' caps' = Some x.
Proof.
  induction r as [ | c | cl | cl | cl | r1 IH1 r2 IH2 | r1 IH1 r2 IH2
                 | r1 IH1 | r1 IH1 | n r1 IH1 ];
    intros s caps k x; cbn [rmatch derives].
  - intros H. by exists s, caps.
  - destruct s as [ | d s ]; [ done | ].
    destruct (Ascii.eqb_spec d c) as [-> | _]; [ | done ].
    intros H. by exists s, caps.
  - destruct s as [ | d s ]; [ done | ].
    destruct (class_mem cl d) eqn:Hd; [ | done ].
    intros H. exists s, caps. split; [ by exists d | done ].
  - intros H. apply star_sound in H as (b & s' & -> & Hb & Hk).
    exists s', caps. split; [ by exists b | done ].
  - destruct s as [ | d s ]; [ done | ].
    destruct (class_mem cl d) eqn:Hd; [ | done ].
    intros H. apply star_sound in H as (b & s' & -> & Hb & Hk).
    exists s', caps. split; [ | done ].
    exists d, b. cbn. by rewrite Hd, Hb.
  - intros H. apply IH1 in H as (s1 & caps1 & H1 & H).
    apply IH2 in H as (s' & caps' & H2 & Hk).
    exists s', caps'. split; [ by exists s1, caps1 | done ].
  - destruct (rmatch r1 s caps k) as [y | ] eqn:H1.
    + intros [= ->]. apply IH1 in H1 as (s' & caps' & H1 & Hk).
      exists s', caps'. split; [ by left | done ].
    + intros H. apply IH2 in H as (s' & caps' & H2 & Hk).
      exists s', caps'. split; [ by right | done ].
  - apply IH1.
  - destruct (rmatch r1 s caps k) as [y | ] eqn:H1.
    + intros [= ->]. apply IH1 in H1 as (s' & caps' & H1 & Hk).
      exists s', caps'. split; [ by left | done ].
    + intros H. exists s, caps. split; [ by right | done ].
  - intros H. apply IH1 in H as (s' & caps1 & H1 & Hk).
    exists s', ((n, consumed s s') :: caps1). split; [ by exists caps1 | done ].
Qed.

Lemma star_complete {R} (cl : cclass) (b s' : string)
    (k : string → option R) :
  str_all (class_mem cl) b = true → is_Some (k s') →
  is_Some (star cl (b ++ s') k).
Proof.
  intros Hb Hk. induction b as [ | c b IH ].
  - rewrite sapp_nil_l. destruct s' as [ | c s' ]; cbn; [ done | ].
    destruct (class_mem cl c); [ | done ].
    by destruct (star cl s' k).
  - cbn in Hb. apply andb_true_iff in Hb as [Hc Hb].
    rewrite sapp_cons. cbn. rewrite Hc.
    destruct (IH Hb) as [x ->]. by eexists.
Qed.

(** where [derives] gives a match whose continuation succeeds, the
    backtracking search succeeds *)
Lemma rmatch_complete {R} (r : regex) :
  ∀ (s : string) (caps : captures) (s' : string) (caps' : captures)
    (k : string → captures → option R),
    derives r s caps s' caps' → is_Some (k s' caps') →
    is_Some (rmatch r s caps k).
Proof.
  induction r as [ | c | cl | cl | cl | r1 IH1 r2 IH2 | r1 IH1 r2 IH2
                 | r1 IH1 | r1 IH1 | n r1 IH1 ];
    intros s caps s' caps' k; cbn [rmatch derives].
  - by intros [-> ->].
  - intros [-> ->]. by rewrite Ascii.eqb_refl.
  - intros (d & -> & Hd & ->). by rewrite Hd.
  - intros (b & -> & Hb & ->) Hk. by apply star_complete.
  - intros (d & b & -> & Hb & ->) Hk. rewrite sapp_cons.
    cbn in Hb. apply andb_true_iff in Hb as [Hd Hb]. rewrite Hd.
    by apply star_complete.
  - intros (s1 & caps1 & H1 & H2) Hk.
    apply (IH1 _ _ _ _ _ H1). by apply (IH2 _ _ _ _ _ H2).
  - intros [H1 | H2] Hk.
    + destruct (IH1 _ _ _ _ k H1 Hk) as [x ->]. by eexists.
    + destruct (rmatch r1 s caps k); [ by eexists | ]. by eapply IH2.
  - apply IH1.
  - intros [H1 | [-> ->]] Hk.
    + destruct (IH1 _ _ _ _ k H1 Hk) as [x ->]. by eexists.
    + by destruct (rmatch r1 s caps k).
  - intros (caps1 & H1 & ->) Hk. by apply (IH1 _ _ _ _ _ H1).
Qed.

Lemma match_here_sound (r : regex) (s : string) (m : smatch) :
  match_here r s = Some m →
  derives r s [] (m_suffix m) (m_groups m) ∧ m_prefix m = "".
Proof.
  unfold match_here. intros H.
  apply rmatch_sound in H as (s' & caps' & Hd & [= <-]). by cbn.
Qed.

(** a match found by the search is a match of the pattern, somewhere in
    the text *)
Lemma regex_search_sound (r : regex) (s : string) (m : smatch) :
  regex_search r s = Some m →
  ∃ rest, s = m_prefix m ++ rest
          ∧ derives r rest [] (m_suffix m) (m_groups m).
Proof.
  revert m. induction s as [ | c s IH ]; intros m; cbn [regex_search].
  - destruct (match_here r "") as [m' | ] eqn:Hm; [ | done ].
    intros [= <-]. apply match_here_sound in Hm as [Hd ->]. by exists "".
  - destruct (match_here r (String c s)) as [m' | ] eqn:Hm.
    + intros [= <-]. apply match_here_sound in Hm as [Hd ->].
      by exists (String c s).
    + destruct (regex_search r s) as [m' | ]; [ | done ].
      intros [= <-]. destruct (IH m' eq_refl) as (rest & -> & Hd).
      by exists rest.
Qed.

(** where the pattern has a match somewhere in the text, the search
    finds one *)
Lemma regex_search_complete (r : regex) (pre rest s' : string)
    (caps' : captures) :
  derives r rest [] s' caps' → is_Some (regex_search r (pre ++ rest)).
Proof.
  intros Hd.
  assert (Hhere : is_Some (match_here r rest)).
  { unfold match_here. eapply rmatch_complete; [ exact Hd | by eexists ]. }
  induction pre as [ | c pre IH ].
  - rewrite sapp_nil_l. destruct Hhere as [m Hm].
    destruct rest; cbn [regex_search]; rewrite Hm; by eexists.
  - rewrite sapp_cons. cbn [regex_search].
    destruct (match_here r (String c (pre ++ rest))); [ by eexists | ].
    destruct IH as [m ->]. by eexists.
Qed.

Lemma derives_lit (lit s : string) (caps : captures) :
  derives (RLit lit) (lit ++ s) caps s caps.
Proof.
  induction lit as [ | c lit IH ]; cbn; [ done | ].
  exists (lit ++ s), caps. by rewrite sapp_cons.
Qed.

Lemma derives_lit_inv (lit s s' : string) (caps caps' : captures) :
  derives (RLit lit) s caps s' caps' → s = lit ++ s' ∧ caps' = caps.
Proof.
  revert s caps. induction lit as [ | c lit IH ]; intros s caps; cbn.
  - by intros [-> ->].
  - intros (s1 & caps1 & [-> ->] & H). apply IH in H as [-> ->].
    by rewrite sapp_cons.
Qed.

(** the text of a group after a match comes from a body of that group,
    unless it was there before *)
Lemma derives_group (n : nat) (r : regex) :
  ∀ (s : string) (caps : captures) (s' : string) (caps' : captures)
    (w : string),
    derives r s caps s' caps' → group n caps' = Some w →
    group n caps = Some w
    ∨ ∃ body, In body (group_bodies n r) ∧ captured_by body w.
Proof.
  induction r as [ | c | cl | cl | cl | r1 IH1 r2 IH2 | r1 IH1 r2 IH2
                 | r1 IH1 | r1 IH1 | m r1 IH1 ];
    intros s caps s' caps' w; cbn [derives group_bodies].
  - intros [_ ->]. by left.
  - intros [_ ->]. by left.
  - intros (d & _ & _ & ->). by left.
  - intros (b & _ & _ & ->). by left.
  - intros (d & b & _ & _ & ->). by left.
  - intros (s1 & caps1 & H1 & H2) Hw.
    destruct (IH2 _ _ _ _ _ H2 Hw) as [Hw1 | (body & Hin & Hc)].
    + destruct (IH1 _ _ _ _ _ H1 Hw1) as [Hw0 | (body & Hin & Hc)];
        [ by left | ].
      right. exists body. split; [ apply in_or_app; by left | done ].
    + right. exists body. split; [ apply in_or_app; by right | done ].
  - intros [H | H] Hw.
    + destruct (IH1 _ _ _ _ _ H Hw) as [Hw0 | (body & Hin & Hc)];
        [ by left | ].
      right. exists body. split; [ apply in_or_app; by left | done ].
    + destruct (IH2 _ _ _ _ _ H Hw) as [Hw0 | (body & Hin & Hc)];
        [ by left | ].
      right. exists body. split; [ apply in_or_app; by right | done ].
  - apply IH1.
  - intros [H | [_ ->]] Hw; [ by eapply IH1 | by left ].
  - intros (caps1 & H1 & ->). cbn [group].
    destruct (Nat.eqb n m).
    + intros [= <-]. right. exists r1. split; [ by left | ].
      by exists s, caps, s', caps1.
    + intros Hw.
      destruct (IH1 _ _ _ _ _ H1 Hw) as [Hw0 | (body & Hin & Hc)];
        [ by left | ].
      right. by exists body.
Qed.

Lemma derives_keeps (n : nat) (r : regex) :
  ∀ (s : string) (caps : captures) (s' : string) (caps' : captures),
    derives r s caps s' caps' → is_Some (group n caps) →
    is_Some (group n caps').
Proof.
  induction r as [ | c | cl | cl | cl | r1 IH1 r2 IH2 | r1 IH1 r2 IH2
                 | r1 IH1 | r1 IH1 | m r1 IH1 ];
    intros s caps s' caps'; cbn [derives].
  - by intros [_ ->].
  - by intros [_ ->].
  - by intros (d & _ & _ & ->).
  - by intros (b & _ & _ & ->).
  - by intros (d & b & _ & _ & ->).
  - intros (s1 & caps1 & H1 & H2) Hn. eauto.
  - intros [H | H] Hn; eauto.
  - apply IH1.
  - intros [H | [_ ->]] Hn; eauto.
  - intros (caps1 & H1 & ->) Hn. cbn [group].
    destruct (Nat.eqb n m); [ by eexists | eauto ].
Qed.

Lemma derives_sets (n : nat) (r : regex) :
  ∀ (s : string) (caps : captures) (s' : string) (caps' : captures),
    derives r s caps s' caps' → always_sets n r = true →
    is_Some (group n caps').
Proof.
  induction r as [ | c | cl | cl | cl | r1 IH1 r2 IH2 | r1 IH1 r2 IH2
                 | r1 IH1 | r1 IH1 | m r1 IH1 ];
    intros s caps s' caps'; cbn [derives always_sets]; try done.
  - intros (s1 & caps1 & H1 & H2) [Hs | Hs]%orb_true_iff.
    + eapply derives_keeps; [ exact H2 | eauto ].
    + eauto.
  - intros [H | H] [Hs1 Hs2]%andb_true_iff; eauto.
  - apply IH1.
  - intros (caps1 & H1 & ->) Hs. cbn [group].
    destruct (Nat.eqb n m); [ by eexists | eauto ].
Qed.

(** the groups of a match found by the search *)
Lemma regex_search_group (r : regex) (s : string) (m : smatch) (n : nat)
    (w : string) :
  regex_search r s = Some m → group n (m_groups m) = Some w →
  ∃ body, In body (group_bodies n r) ∧ captured_by body w.
Proof.
  intros Hm Hw. apply regex_search_sound in Hm as (rest & _ & Hd).
  destruct (derives_group n r _ _ _ _ w Hd Hw) as [H | H]; [ done | exact H ].
Qed.

Lemma regex_search_group_str (r : regex) (s : string) (m : smatch) (n : nat) :
  regex_search r s = Some m → always_sets n r = true →
  ∃ body, In body (group_bodies n r)
          ∧ captured_by body (group_str n (m_groups m)).
Proof.
  intros Hm Hs. pose proof Hm as Hm'.
  apply regex_search_sound in Hm' as (rest & _ & Hd).
  destruct (derives_sets n r _ _ _ _ Hd Hs) as [w Hw].
  unfold group_str. rewrite Hw. by eapply regex_search_group.
Qed.

Lemma captured_by_plus (cl : cclass) (w : string) :
  captured_by (RPlus cl) w →
  Str.is_empty w = false ∧ str_all (class_mem cl) w = true.
Proof.
  intros (t & caps & t' & caps' & (d & b & -> & Hb & _) & ->).
  by rewrite consumed_app.
Qed.

Lemma captured_by_star (cl : cclass) (w : string) :
  captured_by (RStar cl) w → str_all (class_mem cl) w = true.
Proof.
  intros (t & caps & t' & caps' & (b & -> & Hb & _) & ->).
  by rewrite consumed_app.
Qed.

Lemma captured_by_alts (lits : list string) (w : string) :
  lits ≠ [] → captured_by (ThreadAnalyzer.RAlts lits) w → In w lits.
Proof.
  intros Hne (t & caps & t' & caps' & Hd & ->).
  induction lits as [ | lit lits IH ]; [ done | ].
  destruct lits as [ | lit' lits ].
  - cbn in Hd. apply derives_lit_inv in Hd as [-> _].
    rewrite consumed_app. by left.
  - cbn [ThreadAnalyzer.RAlts derives] in Hd. destruct Hd as [Hd | Hd].
    + apply derives_lit_inv in Hd as [-> _]. rewrite consumed_app. by left.
    + right. by apply IH.
Qed.

(** a property of the state that every turn of the loop keeps holds when
    the loop ends *)
Lemma search_loop_invariant {A} (P : A → Prop) (r : regex)
    (body : smatch → A → A) :
  (∀ s m acc, regex_search r s = Some m → P acc → P (body m acc)) →
  ∀ (fuel : nat) (s : string) (acc acc' : A),
    P acc → search_loop fuel r body s acc = Some acc' → P acc'.
Proof.
  intros Hbody. induction fuel as [ | fuel IH ]; intros s acc acc' Hacc;
    cbn [search_loop]; [ done | ].
  destruct (regex_search r s) as [m | ] eqn:Hm.
  - apply IH. by eapply Hbody.
  - by intros [= <-].
Qed.

End Matches.

(** ** Trimming *)

Section Trimming.
Import STLContainerMapper Recorded.

Lemma ltrim_spec (s : string) :
  ∃ l, s = l ++ ltrim s ∧ is_blank l = true ∧ starts_blank (ltrim s) = false.
Proof.
  induction s as [ | c s (l & Hs & Hl & Hst) ]; cbn [ltrim].
  - by exists "".
  - destruct (Str.mem c ThreadAnalyzer.trim_set) eqn:Hc.
    + exists (String c l). rewrite sapp_cons, <- Hs.
      cbn [is_blank]. unfold trim_set. by rewrite Hc, Hl.
    + exists "". cbn [starts_blank]. by rewrite Hc.
Qed.

Lemma rtrim_spec (s : string) :
  ∃ r, s = rtrim s ++ r ∧ is_blank r = true ∧ ends_blank (rtrim s) = false.
Proof.
  induction s as [ | c s (r & Hs & Hr & He) ]; cbn [rtrim].
  - by exists "".
  - destruct (rtrim s) as [ | d t ] eqn:Ht.
    + destruct (Str.mem c ThreadAnalyzer.trim_set) eqn:Hc.
      * rewrite sapp_nil_l in Hs. subst r. exists (String c s).
        rewrite sapp_nil_l. cbn [is_blank]. unfold trim_set.
        by rewrite Hc, Hr.
      * rewrite sapp_nil_l in Hs. subst r. exists s.
        rewrite sapp_cons, sapp_nil_l. cbn [ends_blank]. by rewrite Hc.
    + exists r. rewrite sapp_cons, <- Hs. by cbn [ends_blank].
Qed.

Lemma rtrim_starts (s : string) :
  starts_blank s = false → starts_blank (rtrim s) = false.
Proof.
  destruct s as [ | c s ]; [ done | ]. cbn [rtrim starts_blank]. intros Hc.
  destruct (rtrim s); [ by rewrite Hc | done ].
Qed.

Lemma ltrim_fixed (s : string) : starts_blank s = false → ltrim s = s.
Proof. destruct s as [ | c s ]; [ done | ]. cbn. by intros ->. Qed.

Lemma rtrim_fixed (s : string) : ends_blank s = false → rtrim s = s.
Proof.
  induction s as [ | c s IH ]; [ done | ]. cbn [ends_blank rtrim].
  destruct s as [ | d s ].
  - cbn. by intros ->.
  - intros H. rewrite (IH H). done.
Qed.

(** the position [find_first_not_of] gives is where [ltrim] begins *)
Lemma substring_ltrim (s : string) (first m : nat) :
  Str.find_first_not_of ThreadAnalyzer.trim_set s = Some first →
  substring first m s = substring 0 m (ltrim s).
Proof.
  revert first. induction s as [ | c s IH ]; intros first; [ done | ].
  cbn [Str.find_first_not_of ltrim].
  destruct (Str.mem c ThreadAnalyzer.trim_set).
  - destruct (Str.find_first_not_of ThreadAnalyzer.trim_set s) as [f | ]; [ | done ].
    intros [= <-]. cbn [substring]. by apply IH.
  - by intros [= <-].
Qed.

Lemma find_first_not_of_none (s : string) :
  Str.find_first_not_of ThreadAnalyzer.trim_set s = None → ltrim s = "".
Proof.
  induction s as [ | c s IH ]; [ done | ].
  cbn [Str.find_first_not_of ltrim].
  destruct (Str.mem c ThreadAnalyzer.trim_set); [ | done ].
  destruct (Str.find_first_not_of ThreadAnalyzer.trim_set s); [ done | ]. intros _. by apply IH.
Qed.

(** the position [find_last_not_of] gives is where [rtrim] ends *)
Lemma find_last_not_of_rtrim (s : string) :
  match Str.find_last_not_of ThreadAnalyzer.trim_set s with
  | Some last => rtrim s = substring 0 (S last) s
  | None => rtrim s = ""
  end.
Proof.
  induction s as [ | c s IH ]; [ done | ].
  cbn [Str.find_last_not_of rtrim].
  destruct (Str.find_last_not_of ThreadAnalyzer.trim_set s) as [last | ] eqn:Hlast.
  - rewrite IH. cbn [substring].
    destruct (substring 0 (S last) s) eqn:Hsub; [ | done ].
    destruct s; [ discriminate Hlast | discriminate Hsub ].
  - rewrite IH.
    destruct (Str.mem c ThreadAnalyzer.trim_set); [ done | ].
    cbn. by destruct s.
Qed.

Lemma find_last_not_of_ltrim (s : string) (first : nat) :
  Str.find_first_not_of ThreadAnalyzer.trim_set s = Some first →
  Str.find_last_not_of ThreadAnalyzer.trim_set (ltrim s)
  = (λ last, last - first) <$> Str.find_last_not_of ThreadAnalyzer.trim_set s
  ∧ ∃ last, Str.find_last_not_of ThreadAnalyzer.trim_set s = Some last ∧ first ≤ last.
Proof.
  revert first. induction s as [ | c s IH ]; intros first; [ done | ].
  cbn [Str.find_first_not_of ltrim Str.find_last_not_of].
 
  destruct (Str.mem c ThreadAnalyzer.trim_set) eqn:Hc.
  - destruct (Str.find_first_not_of ThreadAnalyzer.trim_set s) as [f | ]; [ | done ].
    intros [= <-]. destruct (IH f eq_refl) as (-> & last & -> & Hle).
    cbn. split; [ done | ]. exists (S last). split; [ done | lia ].
  - intros [= <-]. cbn [Str.find_last_not_of].
    destruct (Str.find_last_not_of ThreadAnalyzer.trim_set s) as [last | ];
      cbn [fmap option_fmap option_map].
    + split; [ f_equal; lia | ]. exists (S last). split; [ done | lia ].
    + rewrite Hc. split; [ done | ].
      exists 0. split; [ done | lia ].
Qed.

(** [trim] takes off the leading and the trailing white space *)
Lemma trim_ltrim_rtrim (s : string) : trim s = rtrim (ltrim s).
Proof.
  unfold trim, trim_set.
  destruct (Str.find_first_not_of ThreadAnalyzer.trim_set s) as [first | ] eqn:Hf.
  - destruct (find_last_not_of_ltrim s first Hf) as (Hl & last & Hlast & Hle).
    rewrite Hlast in *. cbn in Hl.
    pose proof (find_last_not_of_rtrim (ltrim s)) as Hr. rewrite Hl in Hr.
    rewrite Hr, (substring_ltrim s first _ Hf). f_equal. lia.
  - by rewrite (find_first_not_of_none s Hf).
Qed.

Lemma is_blank_app (s t : string) :
  is_blank (s ++ t) = is_blank s && is_blank t.
Proof.
  induction s as [ | c s IH ]; [ done | ].
  rewrite sapp_cons. cbn [is_blank]. by rewrite IH, andb_assoc.
Qed.

Lemma is_blank_starts (s : string) :
  is_blank s = true → starts_blank s = false → s = "".
Proof.
  destruct s as [ | c s ]; [ done | ]. cbn. unfold trim_set.
  intros [Hc _]%andb_true_iff Hs. congruence.
Qed.

Lemma trim_facts (s : string) :
  (∃ l r, s = l ++ trim s ++ r ∧ is_blank l = true ∧ is_blank r = true)
  ∧ starts_blank (trim s) = false
  ∧ ends_blank (trim s) = false.
Proof.
  rewrite trim_ltrim_rtrim.
  destruct (ltrim_spec s) as (l & Hs & Hl & Hst).
  destruct (rtrim_spec (ltrim s)) as (r & Hs' & Hr & He).
  split; [ | split ].
  - exists l, r. by rewrite <- Hs', <- Hs.
  - by apply rtrim_starts.
  - exact He.
Qed.

Lemma trim_fixed (s : string) :
  starts_blank s = false → ends_blank s = false → trim s = s.
Proof.
  intros Hs He. by rewrite trim_ltrim_rtrim, (ltrim_fixed s Hs), rtrim_fixed.
Qed.

Lemma trim_is_trimmed (s : string) :
  Str.is_empty (trim s) = false → is_trimmed (trim s).
Proof.
  intros Hne. destruct (trim_facts s) as (_ & Hs & He). by split.
Qed.

(** X11: [trim] returns its argument without the white space (space,
    tab, newline, carriage return) at its two ends: the argument is the
    result between two blank texts, the result neither begins nor ends
    with white space, it is empty exactly when the argument is blank, and
    trimming it again changes nothing. The thread analyzer and the
    container mapper have the same [trim]. *)
Theorem trim_spec (str : string) :
  (∃ l r, str = l ++ trim str ++ r ∧ is_blank l = true ∧ is_blank r = true)
  ∧ starts_blank (trim str) = false
  ∧ ends_blank (trim str) = false
  ∧ (trim str = "" ↔ is_blank str = true)
  ∧ trim (trim str) = trim str
  ∧ ThreadAnalyzer.trim str = trim str.
Proof.
  destruct (trim_facts str) as ((l & r & Hs & Hl & Hr) & Hst & He).
  split; [ by exists l, r | ]. split; [ done | ]. split; [ done | ].
  split; [ | split ].
  - split.
    + intros Ht. rewrite Ht, sapp_nil_l in Hs.
      by rewrite Hs, is_blank_app, Hl, Hr.
    + intros Hb. rewrite Hs, !is_blank_app in Hb.
      apply andb_true_iff in Hb as [_ [Hb _]%andb_true_iff].
      by apply is_blank_starts.
  - by apply trim_fixed.
  - reflexivity.
Qed.

End Trimming.

Section Occurrences.
Import STLContainerMapper Recorded.

Lemma contains_trans (a b c : string) :
  Str.contains a b = true → Str.contains b c = true →
  Str.contains a c = true.
Proof.
  rewrite !contains_iff. intros (p & q & ->) (p' & q' & ->).
  exists (p ++ p'), (q' ++ q). by rewrite !sapp_assoc.
Qed.

Lemma contains_app_l (a b c : string) :
  Str.contains a c = true → Str.contains (a ++ b) c = true.
Proof.
  rewrite !contains_iff. intros (p & q & ->).
  exists p, (q ++ b). by rewrite !sapp_assoc.
Qed.

Lemma contains_app_r (a b c : string) :
  Str.contains b c = true → Str.contains (a ++ b) c = true.
Proof.
  rewrite !contains_iff. intros (p & q & ->).
  exists (a ++ p), q. by rewrite !sapp_assoc.
Qed.

Lemma substring_0_prefix (s : string) (m : nat) :
  ∃ post, s = substring 0 m s ++ post.
Proof.
  revert m. induction s as [ | c s IH ]; intros m.
  - exists "". by destruct m.
  - destruct m as [ | m ]; cbn [substring]; [ by exists (String c s) | ].
    destruct (IH m) as [post Hpost]. exists post.
    by rewrite sapp_cons, <- Hpost.
Qed.

Lemma substring_occurs (s : string) (n m : nat) :
  Str.contains s (substring n m s) = true.
Proof.
  revert n. induction s as [ | c s IH ]; intros n.
  - by destruct n, m.
  - destruct n as [ | n ].
    + apply contains_iff. exists "". apply substring_0_prefix.
    + cbn [substring]. rewrite contains_cons, IH. apply orb_true_r.
Qed.

Lemma trim_occurs (s : string) : Str.contains s (trim s) = true.
Proof.
  destruct (trim_facts s) as ((l & r & Hs & _) & _).
  apply contains_iff. by exists l, r.
Qed.

End Occurrences.

(** ** Argument lists *)

Section ArgumentLists.
Import STLContainerMapper Recorded.

Lemma trimmed_piece_of (text text' : string) (new : list string) :
  Str.contains text' text = true →
  Forall (trimmed_piece text) new → Forall (trimmed_piece text') new.
Proof.
  intros Hc Hall. eapply Forall_impl; [ exact Hall | ].
  intros arg [Ht Ha]. split; [ done | by eapply contains_trans ].
Qed.

Lemma push_arg_trimmed (arg : string) (args : list string) :
  ∃ new, push_arg arg args = (args ++ new)%list
         ∧ Forall (trimmed_piece arg) new.
Proof.
  unfold push_arg. destruct (Str.is_empty (trim arg)) eqn:He.
  - exists []. by rewrite List.app_nil_r.
  - exists [trim arg]. split; [ done | ].
    apply Forall_singleton.
    split; [ by apply trim_is_trimmed | apply trim_occurs ].
Qed.

Lemma split_loop_trimmed (args_str : string) :
  ∀ (rest : string) (i : nat) (depth : Z) (last : nat) (args : list string),
    ∃ new, split_loop args_str rest i depth last args = (args ++ new)%list
           ∧ Forall (trimmed_piece args_str) new.
Proof.
  induction rest as [ | c rest IH ]; intros i depth last args;
    cbn [split_loop].
  - destruct (push_arg_trimmed (Str.substr_from last args_str) args)
      as (new & -> & Hnew).
    exists new. split; [ done | ].
    eapply trimmed_piece_of; [ | exact Hnew ]. apply substring_occurs.
  - destruct (Ascii.eqb c "<"); [ apply IH | ].
    destruct (Ascii.eqb c ">"); [ apply IH | ].
    destruct (Ascii.eqb c "," && (depth =? 0)%Z); [ | apply IH ].
    destruct (push_arg_trimmed (substring last (i - last) args_str) args)
      as (new1 & -> & H1).
    destruct (IH (S i) depth (S i) (args ++ new1)%list) as (new2 & -> & H2).
    exists (new1 ++ new2)%list. split; [ by rewrite List.app_assoc | ].
    apply Forall_app. split; [ | done ].
    eapply trimmed_piece_of; [ | exact H1 ]. apply substring_occurs.
Qed.

Lemma extractTemplateArgs_pieces (type_str : string) :
  Forall (trimmed_piece type_str) (extractTemplateArgs type_str).
Proof.
  unfold extractTemplateArgs.
  destruct (Str.find_char "<" type_str) as [start | ]; [ | done ].
  destruct (Str.rfind_char ">" type_str) as [end_ | ]; [ | done ].
  destruct (end_ <=? start); [ done | ].
  match goal with
  | |- Forall _ (split_loop ?a ?r ?i ?d ?l ?acc) =>
      destruct (split_loop_trimmed a r i d l acc) as (new & -> & Hnew)
  end.
  eapply trimmed_piece_of; [ | exact Hnew ]. apply substring_occurs.
Qed.

(** X12: whatever the type string, balanced or not, every template
    argument that [extractTemplateArgs] returns is a piece of the type
    string, not empty, without white space at its ends and shorter than
    the type string; without a [<] in the string there is no argument. *)
Theorem extractTemplateArgs_arguments (type_str : string) :
  Forall (λ arg, is_trimmed arg ∧ trim arg = arg
                 ∧ Str.contains type_str arg = true
                 ∧ String.length arg < String.length type_str)
    (extractTemplateArgs type_str)
  ∧ (Str.find_char "<" type_str = None → extractTemplateArgs type_str = []).
Proof.
  split.
  - pose proof (extractTemplateArgs_pieces type_str) as Hp.
    pose proof (extractTemplateArgs_shorter type_str) as Hs.
    induction Hp as [ | arg args [Ht Hc] _ IH ]; [ done | ].
    apply Forall_cons in Hs as [Hlt Hs]. constructor; [ | by apply IH ].
    destruct Ht as (Hne & Hst & He).
    repeat split; try done. by apply trim_fixed.
  - intros H. unfold extractTemplateArgs. by rewrite H.
Qed.

(** *** The arguments of a thread *)

Lemma thread_push_arg (current_arg : string) (arguments : list string) :
  ThreadAnalyzer.push_arg current_arg arguments
  = push_arg current_arg arguments.
Proof. reflexivity. Qed.

Lemma parseArguments_loop_trimmed :
  ∀ (rest current_arg : string) (paren_depth bracket_depth : Z)
    (arguments : list string),
    ∃ new,
      ThreadAnalyzer.parseArguments_loop rest current_arg paren_depth
        bracket_depth arguments
      = (arguments ++ new)%list
      ∧ Forall (trimmed_piece (current_arg ++ rest)) new.
Proof.
  induction rest as [ | c rest IH ]; intros cur pd bd args;
    cbn [ThreadAnalyzer.parseArguments_loop].
  - rewrite thread_push_arg, sapp_nil_r. apply push_arg_trimmed.
  - assert (Hstep : ∀ pd' bd',
              ∃ new,
                ThreadAnalyzer.parseArguments_loop rest
                  (cur ++ String c "") pd' bd' args
                = (args ++ new)%list
                ∧ Forall (trimmed_piece (cur ++ String c rest)) new).
    { intros pd' bd'.
      destruct (IH (cur ++ String c "") pd' bd' args) as (new & -> & Hnew).
      exists new. split; [ done | ].
      by rewrite sapp_assoc, sapp_cons, sapp_nil_l in Hnew. }
    destruct (Ascii.eqb c "(" || Ascii.eqb c "{"); [ apply Hstep | ].
    destruct (Ascii.eqb c ")" || Ascii.eqb c "}"); [ apply Hstep | ].
    destruct (Ascii.eqb c "["); [ apply Hstep | ].
    destruct (Ascii.eqb c "]"); [ apply Hstep | ].
    destruct (Ascii.eqb c "," && (pd =? 0)%Z && (bd =? 0)%Z);
      [ | apply Hstep ].
    rewrite thread_push_arg.
    destruct (push_arg_trimmed cur args) as (new1 & -> & H1).
    destruct (IH "" pd bd (args ++ new1)%list) as (new2 & -> & H2).
    exists (new1 ++ new2)%list. split; [ by rewrite List.app_assoc | ].
    apply Forall_app. split.
    + eapply trimmed_piece_of; [ | exact H1 ].
      apply contains_app_l, contains_self.
    + eapply trimmed_piece_of; [ | exact H2 ]. rewrite sapp_nil_l.
      apply contains_app_r. apply (contains_inner _ (String c "") rest "").
      rewrite sapp_nil_r. apply contains_self.
Qed.

Lemma parseArguments_trimmed (args_str : string) (arguments : list string) :
  ∃ new, ThreadAnalyzer.parseArguments args_str arguments
         = (arguments ++ new)%list
         ∧ Forall (trimmed_piece args_str) new.
Proof.
  unfold ThreadAnalyzer.parseArguments.
  destruct (Str.is_empty args_str).
  - exists []. by rewrite List.app_nil_r.
  - apply (parseArguments_loop_trimmed args_str "").
Qed.

(** scanning an argument moves it to the current argument and leaves the
    arguments found alone *)
Lemma parseArguments_loop_arg (a : string) :
  ∀ (rest current_arg : string) (pd bd pd' bd' : Z)
    (arguments : list string),
    arg_scan a pd bd = Some (pd', bd') →
    ThreadAnalyzer.parseArguments_loop (a ++ rest) current_arg pd bd arguments
    = ThreadAnalyzer.parseArguments_loop rest (current_arg ++ a) pd' bd'
        arguments.
Proof.
  induction a as [ | c a IH ]; intros rest cur pd bd pd' bd' args.
  - cbn. intros [= <- <-]. by rewrite sapp_nil_l, sapp_nil_r.
  - rewrite sapp_cons. cbn [arg_scan ThreadAnalyzer.parseArguments_loop].
    replace (cur ++ String c a) with ((cur ++ String c "") ++ a)
      by (by rewrite sapp_assoc).
    destruct (Ascii.eqb c "(" || Ascii.eqb c "{"); [ apply IH | ].
    destruct (Ascii.eqb c ")" || Ascii.eqb c "}"); [ apply IH | ].
    destruct (Ascii.eqb c "["); [ apply IH | ].
    destruct (Ascii.eqb c "]"); [ apply IH | ].
    destruct (Ascii.eqb c "," && (pd =? 0)%Z && (bd =? 0)%Z); [ done | ].
    apply IH.
Qed.

Lemma parseArguments_loop_join (args : list string) :
  ∀ arguments,
    Forall is_call_arg args → args ≠ [] →
    ThreadAnalyzer.parseArguments_loop (join_args args) "" 0 0 arguments
    = (arguments ++ map trim args)%list.
Proof.
  induction args as [ | a args IH ]; intros acc Hall Hne; [ done | ].
  apply Forall_cons in Hall as [[Hscan Hblank] Hall].
  destruct args as [ | b args ].
  - cbn [join_args map].
    rewrite <- (sapp_nil_r a) at 1.
    rewrite (parseArguments_loop_arg a "" "" _ _ _ _ acc Hscan).
    cbn [ThreadAnalyzer.parseArguments_loop].
    rewrite thread_push_arg, sapp_nil_l. by apply push_arg_nonblank.
  - change (join_args (a :: b :: args))
      with (a ++ "," ++ join_args (b :: args)).
    rewrite (parseArguments_loop_arg a _ "" _ _ _ _ acc Hscan).
    rewrite (sapp_cons "," "" (join_args (b :: args))), !sapp_nil_l.
    cbn [ThreadAnalyzer.parseArguments_loop Ascii.eqb Bool.eqb andb orb
         Z.eqb].
    rewrite thread_push_arg, push_arg_nonblank by done.
    rewrite IH by done. by rewrite <- List.app_assoc.
Qed.

Lemma is_blank_nonempty (s : string) :
  is_blank s = false → Str.is_empty s = false.
Proof. by destruct s. Qed.

Lemma join_args_nonempty (a : string) (args : list string) :
  is_blank a = false → Str.is_empty (join_args (a :: args)) = false.
Proof.
  intros Ha. destruct a as [ | c a ]; [ done | ].
  destruct args; [ done | ]. cbn [join_args]. by rewrite sapp_cons.
Qed.

(** X13: [parseArguments] splits a list of call arguments at its
    top-level commas: where each argument ends at the depths at which it
    began, has its commas inside parentheses, braces or brackets and is
    not blank, the arguments written one after the other and separated
    by commas are appended, trimmed and in order, to the list handed
    over. *)
Theorem parseArguments_top_level (args : list string)
    (arguments : list string) :
  Forall is_call_arg args →
  ThreadAnalyzer.parseArguments (join_args args) arguments
  = (arguments ++ map ThreadAnalyzer.trim args)%list.
Proof.
  intros Hall. destruct args as [ | a args ].
  - cbn. by rewrite List.app_nil_r.
  - unfold ThreadAnalyzer.parseArguments.
    rewrite join_args_nonempty by (by inversion Hall as [ | ? ? [_ ?] ]).
    by apply parseArguments_loop_join.
Qed.

Lemma parseArguments_top_level_witness :
  ThreadAnalyzer.parseArguments "f(1, 2), {3, 4} ,v[i,j]" [ "x" ]
  = [ "x"; "f(1, 2)"; "{3, 4}"; "v[i,j]" ].
Proof.
  apply (parseArguments_top_level [ "f(1, 2)"; " {3, 4} "; "v[i,j]" ] [ "x" ]).
  repeat constructor.
Defined.

(** X14: whatever the text, [parseArguments] keeps the arguments handed
    over, in place, and appends only pieces of the text that are not
    empty and have no white space at their ends; on the empty text it
    appends nothing. *)
Theorem parseArguments_appends (args_str : string) (arguments : list string) :
  (∃ new, ThreadAnalyzer.parseArguments args_str arguments
          = (arguments ++ new)%list
          ∧ Forall (λ arg, is_trimmed arg ∧ ThreadAnalyzer.trim arg = arg
                           ∧ Str.contains args_str arg = true)
              new)
  ∧ ThreadAnalyzer.parseArguments "" arguments = arguments.
Proof.
  split; [ | done ].
  destruct (parseArguments_trimmed args_str arguments) as (new & -> & Hnew).
  exists new. split; [ done | ].
  eapply Forall_impl; [ exact Hnew | ].
  intros arg [(Hne & Hst & He) Hc]. repeat split; try done.
  by apply trim_fixed.
Qed.

End ArgumentLists.

(** ** What the exception analyzer records *)

Section ExceptionRecords.
Import Regex RegexSpec ExceptionAnalyzer Recorded.

Lemma analyzeFunction_shape (func : IRFunction) :
  ∃ found spec flag,
    analyzeFunction func
    = Some (set_may_throw flag
              (set_exception_spec spec
                 (set_try_catch_blocks (try_catch_blocks func ++ found)
                    func)))
    ∧ (found = [] ↔ regex_search try_catch_pattern (fn_body func) = None).
Proof.
  destruct (detectTryCatchBlocks_appends func) as (found & Hd & Hfound).
  exists found. unfold analyzeFunction. rewrite Hd. cbn [mbind option_bind].
  unfold detectThrowStatements, analyzeExceptionSpec.
  destruct func as [n rt ps body c1 c2 c3 c4 c5 c6 mp bp tb es mt tc ls ao cv ut].
  cbn [fn_body fn_name set_try_catch_blocks set_exception_spec
       set_may_throw exception_spec try_catch_blocks may_throw is_noexcept
       can_throw].
  destruct (regex_search throw_pattern body);
    cbn [fn_body fn_name set_try_catch_blocks set_exception_spec
         set_may_throw exception_spec try_catch_blocks may_throw
         is_noexcept can_throw];
    destruct (Str.contains n "noexcept");
    eexists _, _; (split; [ reflexivity | exact Hfound ]).
Qed.

Lemma analyzeFunction_frame (func func' : IRFunction) :
  analyzeFunction func = Some func' →
  fn_body func' = fn_body func ∧ fn_name func' = fn_name func.
Proof.
  destruct (analyzeFunction_shape func) as (found & spec & flag & -> & _).
  intros [= <-]. by destruct func.
Qed.

Lemma throw_pattern_finds (body : string) :
  containsThrowStatement body = true →
  is_Some (regex_search throw_pattern body).
Proof.
  unfold containsThrowStatement. rewrite contains_iff.
  intros (pre & post & ->).
  apply (regex_search_complete throw_pattern pre _ post []).
  change throw_pattern
    with (RSeq (RLit "throw") (RSeq (RPlus CSpace) REps)).
  cbn [derives]. exists (" " ++ post), []. split.
  - apply (derives_lit "throw" (" " ++ post) []).
  - exists post, []. split; [ | done ]. by exists " "%char, "".
Qed.

(** X15: a body in which the text [throw ] occurs is a body in which the
    throw pattern matches, so for a function whose name does not mention
    [noexcept] the third test of [may_throw] adds nothing to the first
    two. For a function whose name mentions [noexcept] it is the first
    test that adds nothing: [can_throw] is cleared, and [may_throw] is
    still set by a try/catch block or by the text [throw ] in the body. *)
Theorem analyzeFunction_throw (func func' : IRFunction) :
  analyzeFunction func = Some func' →
  (containsThrowStatement (fn_body func) = true →
   is_Some (regex_search throw_pattern (fn_body func)))
  ∧ (Str.contains (fn_name func) "noexcept" = false →
     may_throw func'
     = can_throw (exception_spec func')
       || nonempty (try_catch_blocks func'))
  ∧ (Str.contains (fn_name func) "noexcept" = true →
     can_throw (exception_spec func') = false
     ∧ is_noexcept (exception_spec func') = true
     ∧ may_throw func'
       = nonempty (try_catch_blocks func')
         || containsThrowStatement (fn_body func)).
Proof.
  intros Ha. pose proof (analyzeFunction_flags func func' Ha) as Hflag.
  pose proof (analyzeFunction_can_throw func func' Ha) as Hcan.
  destruct (analyzeFunction_frame func func' Ha) as [Hbody Hname].
  rewrite Hbody in Hflag.
  split; [ apply throw_pattern_finds | ]. split.
  - intros Hn. rewrite Hn in Hcan. rewrite Hflag.
    destruct (containsThrowStatement (fn_body func)) eqn:Hc;
      [ | by rewrite orb_false_r ].
    destruct (throw_pattern_finds _ Hc) as [m Hm]. rewrite Hm in Hcan.
    by rewrite Hcan.
  - intros Hn. rewrite Hn in Hcan. rewrite Hflag, Hcan.
    split; [ done | ]. split; [ | done ].
    revert Ha. unfold analyzeFunction.
    destruct (detectTryCatchBlocks_appends func) as (found & -> & _).
    cbn [mbind option_bind]. intros [= <-].
    unfold analyzeExceptionSpec, detectThrowStatements.
    destruct func
      as [n rt ps body c1 c2 c3 c4 c5 c6 mp bp tb es mt tc ls ao cv ut].
    cbn [fn_body fn_name set_try_catch_blocks set_exception_spec
         set_may_throw exception_spec try_catch_blocks may_throw
         is_noexcept can_throw] in *.
    destruct (regex_search throw_pattern body);
      cbn [fn_body fn_name set_try_catch_blocks set_exception_spec
           set_may_throw exception_spec try_catch_blocks may_throw
           is_noexcept can_throw];
      by rewrite Hn.
Qed.

Lemma analyzeFunction_throw_witness :
  ∃ func',
    analyzeFunction (plain_function "f noexcept" "throw E();") = Some func'
    ∧ can_throw (exception_spec func') = false
    ∧ is_noexcept (exception_spec func') = true
    ∧ may_throw func' = true.
Proof.
  eexists. split; [ vm_compute; reflexivity | ].
  destruct (analyzeFunction_throw
              (plain_function "f noexcept" "throw E();") _ eq_refl)
    as (_ & _ & H).
  destruct (H eq_refl) as (Hc & Hn & Hm).
  split; [ exact Hc | ]. split; [ exact Hn | ]. exact Hm.
Defined.

Lemma has_char_not (c : ascii) (w : string) :
  str_all (class_mem (CNot c)) w = true → has_char c w = false.
Proof.
  unfold has_char. intros H.
  change (str_all (λ d, negb (Ascii.eqb d c)) w = true) in H.
  by rewrite H.
Qed.

(** the block of a match depends on the match alone *)
Lemma try_catch_step_block (s : string) (m : smatch) :
  regex_search try_catch_pattern s = Some m →
  ∃ block,
    block_ok block
    ∧ ∀ blocks, try_catch_step m (Some blocks) = Some (blocks ++ [block])%list.
Proof.
  intros Hm. unfold try_catch_step.
  destruct (parseCatchParameter_terminates (group_str 2 (m_groups m)))
    as [[type var] Hp].
  eexists. split; [ | intros blocks; cbn [mbind option_bind]; rewrite Hp;
                      reflexivity ].
  split; cbn [try_body catch_clauses].
  - destruct (regex_search_group_str _ _ _ 1 Hm eq_refl)
      as (body & [<- | []] & Hcap).
    by apply has_char_not, captured_by_star.
  - eexists. split; [ reflexivity | ]. cbn [handler_body].
    destruct (regex_search_group_str _ _ _ 3 Hm eq_refl)
      as (body & [<- | []] & Hcap).
    by apply has_char_not, captured_by_star.
Qed.

(** the blocks found in a text depend on the text alone *)
Lemma try_catch_scan_found (fuel : nat) :
  ∀ s : string,
    String.length s < fuel →
    ∃ found,
      Forall block_ok found
      ∧ (found = [] ↔ regex_search try_catch_pattern s = None)
      ∧ ∀ blocks,
          search_loop fuel try_catch_pattern try_catch_step s (Some blocks)
          = Some (Some (blocks ++ found)%list).
Proof.
  induction fuel as [ | fuel IH ]; intros s Hlt; [ lia | ].
  cbn [search_loop].
  destruct (regex_search try_catch_pattern s) as [m | ] eqn:Hm.
  - destruct (try_catch_step_block s m Hm) as (block & Hok & Hstep).
    apply regex_search_shrinks in Hm as [_ Hs]. specialize (Hs eq_refl).
    destruct (IH (m_suffix m)) as (found & Hall & _ & Hscan); [ lia | ].
    exists (block :: found). split; [ by constructor | ].
    split; [ done | ].
    intros blocks. rewrite Hstep, Hscan. by rewrite <- List.app_assoc.
  - exists []. split; [ done | ]. split; [ done | ].
    intros blocks. by rewrite List.app_nil_r.
Qed.

Lemma analyzeFunction_found (body : string) :
  ∃ found,
    Forall block_ok found
    ∧ ∀ func,
        fn_body func = body →
        analyzeFunction func
        = (let func :=
             analyzeExceptionSpec
               (detectThrowStatements
                  (set_try_catch_blocks (try_catch_blocks func ++ found)
                     func)) in
           Some (set_may_throw
                   (can_throw (exception_spec func)
                    || nonempty (try_catch_blocks func)
                    || containsThrowStatement (fn_body func))
                   func)).
Proof.
  destruct (try_catch_scan_found (S (String.length body)) body)
    as (found & Hall & _ & Hscan); [ lia | ].
  exists found. split; [ done | ]. intros func <-.
  unfold analyzeFunction, detectTryCatchBlocks.
  by rewrite Hscan.
Qed.

(** X16: in a result of [analyzeFunction] the blocks recorded before are
    kept in front of those added, and every block added has exactly one
    catch clause; neither its protected text nor its handler text contains
    a closing brace. *)
Theorem analyzeFunction_blocks_one_clause (func func' : IRFunction) :
  analyzeFunction func = Some func' →
  ∃ found,
    try_catch_blocks func' = (try_catch_blocks func ++ found)%list
    ∧ Forall (λ block,
                has_char "}" (try_body block) = false
                ∧ ∃ clause, catch_clauses block = [ clause ]
                            ∧ has_char "}" (handler_body clause) = false)
        found.
Proof.
  destruct (analyzeFunction_found (fn_body func)) as (found & Hall & Ha).
  rewrite (Ha func eq_refl). intros [= <-]. exists found.
  split; [ | exact Hall ].
  cbn zeta. unfold analyzeExceptionSpec, detectThrowStatements.
  destruct func
    as [n rt ps body c1 c2 c3 c4 c5 c6 mp bp tb es mt tc ls ao cv ut].
  cbn [fn_body fn_name set_try_catch_blocks set_exception_spec
       set_may_throw exception_spec try_catch_blocks may_throw is_noexcept
       can_throw].
  destruct (regex_search throw_pattern body);
    cbn [fn_body fn_name set_try_catch_blocks set_exception_spec
         set_may_throw exception_spec try_catch_blocks may_throw
         is_noexcept can_throw];
    by destruct (Str.contains n "noexcept").
Qed.

Lemma analyzeFunction_blocks_one_clause_witness :
  ∃ func' found,
    analyzeFunction
      (plain_function "f" "try { g(); } catch (E& e) { h(); } return;")
    = Some func'
    ∧ try_catch_blocks func' = found
    ∧ Forall (λ block,
                has_char "}" (try_body block) = false
                ∧ ∃ clause, catch_clauses block = [ clause ]
                            ∧ has_char "}" (handler_body clause) = false)
        found.
Proof.
  eexists.
  destruct (analyzeFunction_blocks_one_clause
              (plain_function "f" "try { g(); } catch (E& e) { h(); } return;")
              _ eq_refl) as (found & Hb & Hall).
  exists found. split; [ vm_compute; reflexivity | ]. split; [ exact Hb | ].
  exact Hall.
Defined.

Lemma nonempty_app_twice {A} (l found : list A) :
  nonempty ((l ++ found) ++ found) = nonempty (l ++ found).
Proof. by destruct l, found. Qed.

(** X17: a second run of [analyzeFunction] on its own result changes
    nothing but the list of blocks, to which the blocks found in the body
    are appended once more: the analysis is to be run once. *)
Theorem analyzeFunction_again (func : IRFunction) :
  ∃ func' found,
    analyzeFunction func = Some func'
    ∧ try_catch_blocks func' = (try_catch_blocks func ++ found)%list
    ∧ analyzeFunction func'
      = Some (set_try_catch_blocks
                (try_catch_blocks func ++ found ++ found) func').
Proof.
  destruct (analyzeFunction_found (fn_body func)) as (found & Hall & Ha).
  pose proof (Ha func eq_refl) as H1.
  destruct (analyzeFunction func) as [func' | ] eqn:Hf; [ | done ].
  destruct (analyzeFunction_frame func func' Hf) as [Hbody Hname].
  exists func', found. split; [ done | ].
  rewrite (Ha func' Hbody). injection H1 as ->. clear Ha Hf Hbody Hname.
  cbn zeta. unfold analyzeExceptionSpec, detectThrowStatements.
  destruct func
    as [n rt ps body c1 c2 c3 c4 c5 c6 mp bp tb es mt tc ls ao cv ut].
  cbn [fn_body fn_name set_try_catch_blocks set_exception_spec
       set_may_throw exception_spec try_catch_blocks may_throw is_noexcept
       can_throw].
  destruct (regex_search throw_pattern body) eqn:Ht;
    cbn [fn_body fn_name set_try_catch_blocks set_exception_spec
         set_may_throw exception_spec try_catch_blocks may_throw
         is_noexcept can_throw];
    destruct (Str.contains n "noexcept") eqn:Hn;
    cbn [fn_body fn_name set_try_catch_blocks set_exception_spec
         set_may_throw exception_spec try_catch_blocks may_throw
         is_noexcept can_throw];
    rewrite ?Ht, ?Hn;
    cbn [fn_body fn_name set_try_catch_blocks set_exception_spec
         set_may_throw exception_spec try_catch_blocks may_throw
         is_noexcept can_throw];
    rewrite ?Hn;
    cbn [fn_body fn_name set_try_catch_blocks set_exception_spec
         set_may_throw exception_spec try_catch_blocks may_throw
         is_noexcept can_throw];
    rewrite ?nonempty_app_twice, <- ?List.app_assoc;
    (split; [ reflexivity | ]); try reflexivity.
Qed.

End ExceptionRecords.

(** ** What the thread analyzer records *)

Section ThreadRecords.
Import Regex RegexSpec ThreadAnalyzer Recorded.

Lemma search_loop_keeps {A} (P : A → Prop) (r : regex)
    (body : smatch → A → A) (s : string) (acc : A) :
  nonnull r = true →
  (∀ s m acc, regex_search r s = Some m → P acc → P (body m acc)) →
  P acc →
  ∃ acc', search_loop (S (String.length s)) r body s acc = Some acc'
          ∧ P acc'.
Proof.
  intros Hn Hbody Hacc.
  destruct (search_loop_total r body s acc Hn) as [acc' Hl].
  exists acc'. split; [ done | ].
  by eapply search_loop_invariant.
Qed.

Lemma identifier_captured (w : string) :
  captured_by (RPlus CWord) w → is_identifier w = true.
Proof.
  intros [Hne Hall]%captured_by_plus. unfold is_identifier.
  rewrite Hne. exact Hall.
Qed.

Ltac group_identifier Hm n :=
  let body := fresh "body" in
  let Hcap := fresh "Hcap" in
  destruct (regex_search_group_str _ _ _ n Hm eq_refl)
    as (body & [<- | []] & Hcap);
  apply identifier_captured in Hcap.

Lemma str_all_piece (p : ascii → bool) (text arg : string) :
  str_all p text = true → Str.contains text arg = true →
  str_all p arg = true.
Proof.
  intros Hall (pre & post & ->)%contains_iff.
  rewrite !str_all_app in Hall.
  by apply andb_true_iff in Hall as [_ [Ha _]%andb_true_iff].
Qed.

(** the arguments of a thread are cut out of a text without the closing
    bracket of the pattern *)
Lemma thread_arguments_ok (close : ascii) (a : string) :
  captured_by (RStar (CNot close)) a →
  Forall is_trimmed (parseArguments a [])
  ∧ Forall (λ arg, has_char close arg = false) (parseArguments a []).
Proof.
  intros Hcap%captured_by_star.
  destruct (parseArguments_trimmed a []) as (new & -> & Hnew).
  split; (eapply Forall_impl; [ exact Hnew | ]); intros arg [Ht Hc];
    [ done | ].
  apply has_char_not. by eapply str_all_piece.
Qed.

Lemma thread_step_ok (dd dj : bool) (r : regex) (s : string) (m : smatch)
    (threads : list ThreadInfo) :
  r = thread_pattern1 ∨ r = thread_pattern2 ∨ r = thread_pattern3 →
  regex_search r s = Some m →
  Forall thread_ok threads → Forall thread_ok (thread_step dd dj m threads).
Proof.
  intros Hr Hm Hall. unfold thread_step.
  apply Forall_app. split; [ done | ]. apply Forall_singleton.
  unfold thread_ok. cbn [thread_var_name function_name arguments].
  destruct Hr as [-> | [-> | ->]];
    group_identifier Hm 1; group_identifier Hm 2;
    (split; [ done | ]); (split; [ done | ]);
    (destruct (group 3 (m_groups m)) as [a | ] eqn:Ha;
     [ | split; [ done | by left ] ]);
    destruct (regex_search_group _ _ _ 3 a Hm Ha)
      as (body3 & [<- | []] & Hcap3);
    apply thread_arguments_ok in Hcap3 as [Ht Hc];
    (split; [ done | ]); first [ by left | by right ].
Qed.

Lemma mark_detached_ok (thread_var : string) (threads : list ThreadInfo) :
  Forall thread_ok threads → Forall thread_ok (mark_detached thread_var threads).
Proof.
  induction 1 as [ | t ts Ht Hts IH ]; cbn [mark_detached]; [ done | ].
  destruct (String.eqb (thread_var_name t) thread_var);
    constructor; first [ exact Ht | done ].
Qed.

Lemma detectThreadCreation_ok (dd dj : bool) (func : IRFunction) :
  Forall thread_ok (threads_created func) →
  ∃ ts, detectThreadCreation dd dj func = Some (set_threads_created ts func)
        ∧ Forall thread_ok ts.
Proof.
  intros H0. unfold detectThreadCreation.
  destruct (search_loop_keeps (Forall thread_ok) thread_pattern1
              (thread_step dd dj) (fn_body func) (threads_created func)
              eq_refl) as (t1 & -> & H1); [ | done | ].
  { intros s m acc. apply thread_step_ok. by left. }
  cbn [mbind option_bind].
  destruct (search_loop_keeps (Forall thread_ok) thread_pattern2
              (thread_step dd dj) (fn_body func) t1 eq_refl)
    as (t2 & -> & H2); [ | done | ].
  { intros s m acc. apply thread_step_ok. right. by left. }
  cbn [mbind option_bind].
  destruct (search_loop_keeps (Forall thread_ok) thread_pattern3
              (thread_step dd dj) (fn_body func) t2 eq_refl)
    as (t3 & -> & H3); [ | done | ].
  { intros s m acc. apply thread_step_ok. right. by right. }
  cbn [mbind option_bind].
  destruct (search_loop_keeps (Forall thread_ok) detach_pattern
              detach_step (fn_body func) t3 eq_refl)
    as (t4 & -> & H4); [ | done | ].
  { intros s m acc _. apply mark_detached_ok. }
  by exists t4.
Qed.

Lemma lock_step_ok (ty : LockType) (guard : string) (s : string)
    (m : smatch) (locks : list LockInfo) :
  regex_search (lock_pattern guard) s = Some m →
  Forall lock_ok locks → Forall lock_ok (lock_step ty m locks).
Proof.
  intros Hm Hall. unfold lock_step.
  apply Forall_app. split; [ done | ]. apply Forall_singleton.
  assert (H1 : ∃ body, In body (group_bodies 1 (lock_pattern guard))
                       ∧ captured_by body (group_str 1 (m_groups m))).
  { apply (regex_search_group_str _ s); [ done | ].
    unfold lock_pattern. cbn. by rewrite !orb_true_r. }
  assert (H2 : ∃ body, In body (group_bodies 2 (lock_pattern guard))
                       ∧ captured_by body (group_str 2 (m_groups m))).
  { apply (regex_search_group_str _ s); [ done | ].
    unfold lock_pattern. cbn. by rewrite !orb_true_r. }
  assert (Hb : ∀ n, group_bodies n (RLit guard) = []).
  { intros n. clear. induction guard as [ | c g IH ]; [ done | ]. exact IH. }
  unfold lock_pattern in H1, H2. cbn in H1, H2. rewrite Hb in H1, H2.
  destruct H1 as (b1 & [<- | []] & Hc1), H2 as (b2 & [<- | []] & Hc2).
  split; by apply identifier_captured.
Qed.

Lemma detectMutexUsage_ok (func : IRFunction) :
  Forall lock_ok (lock_scopes func) →
  ∃ ls, detectMutexUsage func = Some (set_lock_scopes ls func)
        ∧ Forall lock_ok ls.
Proof.
  intros H0. unfold detectMutexUsage.
  destruct (search_loop_keeps (Forall lock_ok) lock_guard_pattern
              (lock_step LockGuard) (fn_body func) (lock_scopes func)
              eq_refl) as (l1 & -> & H1); [ | done | ].
  { intros s m acc. apply lock_step_ok. }
  cbn [mbind option_bind].
  destruct (search_loop_keeps (Forall lock_ok) unique_lock_pattern
              (lock_step UniqueLock) (fn_body func) l1 eq_refl)
    as (l2 & -> & H2); [ | done | ].
  { intros s m acc. apply lock_step_ok. }
  cbn [mbind option_bind].
  destruct (search_loop_keeps (Forall lock_ok) shared_lock_pattern
              (lock_step SharedLock) (fn_body func) l2 eq_refl)
    as (l3 & -> & H3); [ | done | ].
  { intros s m acc. apply lock_step_ok. }
  by exists l3.
Qed.

Lemma atomic_decl_step_ok (s : string) (m : smatch)
    (atomics : list AtomicInfo) :
  regex_search atomic_pattern s = Some m →
  Forall atomic_ok atomics → Forall atomic_ok (atomic_decl_step m atomics).
Proof.
  intros Hm Hall. unfold atomic_decl_step.
  apply Forall_app. split; [ done | ]. apply Forall_singleton.
  group_identifier Hm 2.
  destruct (regex_search_group_str _ _ _ 1 Hm eq_refl)
    as (body1 & [<- | []] & [Hne _]%captured_by_plus).
  by repeat split.
Qed.

Lemma add_atomic_op_ok (var_name operation : string)
    (atomics atomics' : list AtomicInfo) :
  In operation atomic_operation_names →
  Forall atomic_ok atomics →
  add_atomic_op var_name operation atomics = Some atomics' →
  Forall atomic_ok atomics'.
Proof.
  intros Hop Hall. revert atomics'.
  induction Hall as [ | a atomics Ha Hall IH ]; intros atomics';
    cbn [add_atomic_op]; [ done | ].
  destruct (String.eqb (atomic_var_name a) var_name).
  - intros [= <-]. constructor; [ | done ].
    destruct Ha as (Hn & Hops & Hv). repeat split; cbn; [ done | | ].
    + apply Forall_app. split; [ done | by apply Forall_singleton ].
    + destruct (value_type a); [ done | ]. by destruct (operations a).
  - destruct (add_atomic_op var_name operation atomics) as [l | ];
      [ | done ].
    intros [= <-]. constructor; [ done | by apply IH ].
Qed.

Lemma atomic_op_step_ok (s : string) (m : smatch)
    (atomics : list AtomicInfo) :
  regex_search atomic_op_pattern s = Some m →
  Forall atomic_ok atomics → Forall atomic_ok (atomic_op_step m atomics).
Proof.
  intros Hm Hall. unfold atomic_op_step.
  group_identifier Hm 1.
  destruct (regex_search_group_str _ _ _ 2 Hm eq_refl)
    as (body2 & [<- | []] & Hop).
  apply (captured_by_alts atomic_operation_names) in Hop; [ | done ].
  destruct (add_atomic_op _ _ atomics) as [atomics' | ] eqn:Hadd.
  - by eapply add_atomic_op_ok.
  - apply Forall_app. split; [ done | ]. apply Forall_singleton.
    repeat split; cbn; [ done | by apply Forall_singleton | done ].
Qed.

Lemma detectAtomicOperations_ok (func : IRFunction) :
  Forall atomic_ok (atomic_operations func) →
  ∃ a, detectAtomicOperations func = Some (set_atomic_operations a func)
       ∧ Forall atomic_ok a.
Proof.
  intros H0. unfold detectAtomicOperations.
  destruct (search_loop_keeps (Forall atomic_ok) atomic_pattern
              atomic_decl_step (fn_body func) (atomic_operations func)
              eq_refl atomic_decl_step_ok H0) as (a1 & -> & H1).
  cbn [mbind option_bind].
  destruct (search_loop_keeps (Forall atomic_ok) atomic_op_pattern
              atomic_op_step (fn_body func) a1 eq_refl atomic_op_step_ok H1)
    as (a2 & -> & H2).
  by exists a2.
Qed.

Lemma cv_decl_step_ok (s : string) (m : smatch)
    (cvs : list ConditionVariableInfo) :
  regex_search cv_pattern s = Some m →
  Forall cv_ok cvs → Forall cv_ok (cv_decl_step m cvs).
Proof.
  intros Hm Hall. unfold cv_decl_step.
  apply Forall_app. split; [ done | ]. apply Forall_singleton.
  group_identifier Hm 1. by split.
Qed.

Lemma add_cv_op_ok (cv_var operation : string)
    (cvs cvs' : list ConditionVariableInfo) :
  In operation cv_operation_names →
  Forall cv_ok cvs →
  add_cv_op cv_var operation cvs = Some cvs' →
  Forall cv_ok cvs'.
Proof.
  intros Hop Hall. revert cvs'.
  induction Hall as [ | c cvs Hc Hall IH ]; intros cvs';
    cbn [add_cv_op]; [ done | ].
  destruct (String.eqb (cv_var_name c) cv_var).
  - intros [= <-]. constructor; [ | done ].
    destruct Hc as (Hn & Hops). split; cbn; [ done | ].
    apply Forall_app. split; [ done | by apply Forall_singleton ].
  - destruct (add_cv_op cv_var operation cvs) as [l | ]; [ | done ].
    intros [= <-]. constructor; [ done | by apply IH ].
Qed.

Lemma cv_op_step_ok (s : string) (m : smatch)
    (cvs : list ConditionVariableInfo) :
  regex_search cv_op_pattern s = Some m →
  Forall cv_ok cvs → Forall cv_ok (cv_op_step m cvs).
Proof.
  intros Hm Hall. unfold cv_op_step.
  group_identifier Hm 1.
  destruct (regex_search_group_str _ _ _ 2 Hm eq_refl)
    as (body2 & [<- | []] & Hop).
  apply (captured_by_alts cv_operation_names) in Hop; [ | done ].
  destruct (add_cv_op _ _ cvs) as [cvs' | ] eqn:Hadd.
  - by eapply add_cv_op_ok.
  - apply Forall_app. split; [ done | ]. apply Forall_singleton.
    split; cbn; [ done | by apply Forall_singleton ].
Qed.

Lemma detectConditionVariables_ok (func : IRFunction) :
  Forall cv_ok (condition_variables func) →
  ∃ c, detectConditionVariables func = Some (set_condition_variables c func)
       ∧ Forall cv_ok c.
Proof.
  intros H0. unfold detectConditionVariables.
  destruct (search_loop_keeps (Forall cv_ok) cv_pattern cv_decl_step
              (fn_body func) (condition_variables func) eq_refl
              cv_decl_step_ok H0) as (c1 & -> & H1).
  cbn [mbind option_bind].
  destruct (search_loop_keeps (Forall cv_ok) cv_op_pattern cv_op_step
              (fn_body func) c1 eq_refl cv_op_step_ok H1)
    as (c2 & -> & H2).
  by exists c2.
Qed.

(** the result of the analysis, pass by pass *)
Lemma analyzeFunction_passes (dd dj : bool) (func : IRFunction) :
  recorded_ok func →
  ∃ ts ls a c flag,
    analyzeFunction dd dj func
    = Some (set_uses_threading flag
              (set_condition_variables c
                 (set_atomic_operations a
                    (set_lock_scopes ls (set_threads_created ts func)))))
    ∧ Forall thread_ok ts ∧ Forall lock_ok ls
    ∧ Forall atomic_ok a ∧ Forall cv_ok c.
Proof.
  intros (Ht & Hl & Ha & Hc). unfold analyzeFunction.
  destruct (detectThreadCreation_ok dd dj func Ht) as (ts & -> & Hts).
  cbn [mbind option_bind].
  destruct (detectMutexUsage_ok (set_threads_created ts func))
    as (ls & -> & Hls); [ by destruct func | ].
  cbn [mbind option_bind].
  destruct (detectAtomicOperations_ok
              (set_lock_scopes ls (set_threads_created ts func)))
    as (a & -> & Has); [ by destruct func | ].
  cbn [mbind option_bind].
  destruct (detectConditionVariables_ok
              (set_atomic_operations a
                 (set_lock_scopes ls (set_threads_created ts func))))
    as (c & -> & Hcs); [ by destruct func | ].
  cbn [mbind option_bind].
  by eexists ts, ls, a, c, _.
Qed.

(** X18: the thread analyzer returns for every function, and everything
    it records is well formed: the variable and the function of a thread,
    the guard and the mutex of a lock scope, the name of an atomic and of
    a condition variable are identifiers (not empty, of letters, digits
    and underscores only); the arguments of a thread are not empty, have
    no white space at their ends and are cut out of a text that stops at
    the first closing bracket, so that an argument with a call in it is
    recorded without the end of the call; the operations of an atomic or a
    condition variable are among those the patterns look for; the value
    type of a declared atomic has kind [Integer] whatever its name. Body
    and name of the function are left as they are. *)
Theorem analyzeFunction_recorded (dd dj : bool) (func : IRFunction) :
  recorded_ok func →
  ∃ func', analyzeFunction dd dj func = Some func'
           ∧ recorded_ok func'
           ∧ fn_body func' = fn_body func
           ∧ fn_name func' = fn_name func.
Proof.
  intros Hok.
  destruct (analyzeFunction_passes dd dj func Hok)
    as (ts & ls & a & c & flag & -> & Hts & Hls & Ha & Hc).
  eexists. split; [ reflexivity | ]. by destruct func.
Qed.

Lemma analyzeFunction_recorded_witness :
  ∃ func',
    analyzeFunction false true
      (plain_function "run"
         "std::thread t(worker, 10, f(1, 2)); std::lock_guard<std::mutex> g(m); n.fetch_add(1); cv.notify_one(); t.detach();")
    = Some func'
    ∧ recorded_ok func'
    ∧ map arguments (threads_created func') = [ [ "10"; "f(1, 2" ] ]
    ∧ map atomic_var_name (atomic_operations func') = [ "n" ].
Proof.
  destruct (analyzeFunction_recorded false true
              (plain_function "run"
                 "std::thread t(worker, 10, f(1, 2)); std::lock_guard<std::mutex> g(m); n.fetch_add(1); cv.notify_one(); t.detach();"))
    as (func' & Hf & Hok & _).
  - by repeat split.
  - exists func'. split; [ exact Hf | ]. split; [ exact Hok | ].
    vm_compute in Hf. injection Hf as <-. by split.
Defined.

End ThreadRecords.

(** ** The two analyses of a function *)

Section TwoAnalyses.
Import Regex RegexSpec Recorded.

Lemma thread_analysis_exception_fields (dd dj : bool) (func : IRFunction)
    (blocks : list TryCatchBlock) (spec : ExceptionSpec) (flag : bool) :
  ThreadAnalyzer.analyzeFunction dd dj
    (set_may_throw flag
       (set_exception_spec spec (set_try_catch_blocks blocks func)))
  = (λ f, set_may_throw flag
            (set_exception_spec spec (set_try_catch_blocks blocks f)))
    <$> ThreadAnalyzer.analyzeFunction dd dj func.
Proof.
  destruct func
    as [n rt ps body c1 c2 c3 c4 c5 c6 mp bp tb es mt tc ls ao cv ut].
  unfold ThreadAnalyzer.analyzeFunction, ThreadAnalyzer.detectThreadCreation,
    ThreadAnalyzer.detectMutexUsage, ThreadAnalyzer.detectAtomicOperations,
    ThreadAnalyzer.detectConditionVariables.
  cbn [fn_body threads_created lock_scopes atomic_operations
       condition_variables set_may_throw set_exception_spec
       set_try_catch_blocks].
  repeat match goal with
         | |- context [ search_loop ?f ?r ?b ?s ?acc ] =>
             destruct (search_loop f r b s acc);
             cbn [mbind option_bind fmap option_fmap option_map fn_body
                  threads_created lock_scopes atomic_operations
                  condition_variables set_threads_created set_lock_scopes
                  set_atomic_operations set_condition_variables
                  set_uses_threading set_may_throw set_exception_spec
                  set_try_catch_blocks]; [ | reflexivity ]
         end.
  reflexivity.
Qed.

Lemma exception_analysis_thread_fields (func : IRFunction)
    (ts : list ThreadInfo) (ls : list LockInfo) (a : list AtomicInfo)
    (c : list ConditionVariableInfo) (flag : bool) :
  ExceptionAnalyzer.analyzeFunction
    (set_uses_threading flag
       (set_condition_variables c
          (set_atomic_operations a
             (set_lock_scopes ls (set_threads_created ts func)))))
  = (λ f, set_uses_threading flag
            (set_condition_variables c
               (set_atomic_operations a
                  (set_lock_scopes ls (set_threads_created ts f)))))
    <$> ExceptionAnalyzer.analyzeFunction func.
Proof.
  destruct func
    as [n rt ps body c1 c2 c3 c4 c5 c6 mp bp tb es mt tc lk ao cv ut].
  unfold ExceptionAnalyzer.analyzeFunction,
    ExceptionAnalyzer.detectTryCatchBlocks.
  cbn [fn_body try_catch_blocks set_threads_created set_lock_scopes
       set_atomic_operations set_condition_variables set_uses_threading].
  destruct (search_loop _ _ _ _ _) as [[blocks | ] | ]; [ | done | done ].
  cbn [mbind option_bind fmap option_fmap option_map].
  unfold ExceptionAnalyzer.analyzeExceptionSpec,
    ExceptionAnalyzer.detectThrowStatements.
  cbn [fn_body fn_name set_try_catch_blocks set_exception_spec
       exception_spec].
  destruct (regex_search ExceptionAnalyzer.throw_pattern body);
    cbn [fn_body fn_name set_try_catch_blocks set_exception_spec
         exception_spec];
    destruct (Str.contains n "noexcept"); reflexivity.
Qed.

Lemma thread_analysis_shape (dd dj : bool) (func : IRFunction) :
  ∃ ts ls a c flag,
    ThreadAnalyzer.analyzeFunction dd dj func
    = Some (set_uses_threading flag
              (set_condition_variables c
                 (set_atomic_operations a
                    (set_lock_scopes ls (set_threads_created ts func))))).
Proof.
  unfold ThreadAnalyzer.analyzeFunction, ThreadAnalyzer.detectThreadCreation.
  destruct (search_loop_total ThreadAnalyzer.thread_pattern1
              (ThreadAnalyzer.thread_step dd dj) (fn_body func)
              (threads_created func) eq_refl) as [t1 ->].
  cbn [mbind option_bind].
  destruct (search_loop_total ThreadAnalyzer.thread_pattern2
              (ThreadAnalyzer.thread_step dd dj) (fn_body func) t1 eq_refl)
    as [t2 ->].
  cbn [mbind option_bind].
  destruct (search_loop_total ThreadAnalyzer.thread_pattern3
              (ThreadAnalyzer.thread_step dd dj) (fn_body func) t2 eq_refl)
    as [t3 ->].
  cbn [mbind option_bind].
  destruct (search_loop_total ThreadAnalyzer.detach_pattern
              ThreadAnalyzer.detach_step (fn_body func) t3 eq_refl)
    as [t4 ->].
  cbn [mbind option_bind].
  destruct (detectMutexUsage_total (set_threads_created t4 func)) as [ls ->].
  cbn [mbind option_bind].
  destruct (detectAtomicOperations_total
              (set_lock_scopes ls (set_threads_created t4 func))) as [a ->].
  cbn [mbind option_bind].
  destruct (detectConditionVariables_total
              (set_atomic_operations a
                 (set_lock_scopes ls (set_threads_created t4 func))))
    as [c ->].
  cbn [mbind option_bind].
  by eexists t4, ls, a, c, _.
Qed.

(** X19: the exception analysis and the thread analysis of a function
    give the same annotated function in either order: each leaves alone
    what the other records and reads. *)
Theorem analyses_commute (dd dj : bool) (func f1 f12 f2 f21 : IRFunction) :
  ExceptionAnalyzer.analyzeFunction func = Some f1 →
  ThreadAnalyzer.analyzeFunction dd dj f1 = Some f12 →
  ThreadAnalyzer.analyzeFunction dd dj func = Some f2 →
  ExceptionAnalyzer.analyzeFunction f2 = Some f21 →
  f12 = f21.
Proof.
  destruct (thread_analysis_shape dd dj func)
    as (ts & ls & a & c & flag & Ht).
  destruct (analyzeFunction_shape func) as (found & spec & mt & He & _).
  rewrite He, Ht. intros [= <-].
  rewrite thread_analysis_exception_fields, Ht.
  cbn [fmap option_fmap option_map]. intros [= <-] [= <-].
  rewrite exception_analysis_thread_fields, He.
  cbn [fmap option_fmap option_map]. intros [= <-]. by destruct func.
Qed.

Lemma analyses_commute_witness :
  let func :=
    plain_function "f"
      "try { std::thread t(worker, 10); t.detach(); } catch (E& e) { }" in
  ∃ f12 f21,
    (f ← ExceptionAnalyzer.analyzeFunction func;
     ThreadAnalyzer.analyzeFunction false true f) = Some f12
    ∧ (f ← ThreadAnalyzer.analyzeFunction false true func;
       ExceptionAnalyzer.analyzeFunction f) = Some f21
    ∧ f12 = f21.
Proof.
  intros func. eexists _, _.
  split; [ vm_compute; reflexivity | ].
  split; [ vm_compute; reflexivity | ].
  eapply (analyses_commute false true func).
  - vm_compute. reflexivity.
  - vm_compute. reflexivity.
  - vm_compute. reflexivity.
  - vm_compute. reflexivity.
Defined.

End TwoAnalyses.

(** ** Thread records are added and flagged, never removed *)

Section ThreadFlags.
Import Regex RegexSpec ThreadAnalyzer Recorded.

Lemma mark_detached_sites (dd dj : bool) (thread_var : string)
    (threads : list ThreadInfo) :
  map thread_site (mark_detached thread_var threads) = map thread_site threads
  ∧ (Forall (flags_ok dd dj) threads →
     Forall (flags_ok dd dj) (mark_detached thread_var threads))
  ∧ (Forall (λ t, detached t = true → joinable t = false) threads →
     Forall (λ t, detached t = true → joinable t = false)
       (mark_detached thread_var threads)).
Proof.
  induction threads as [ | t ts (IH1 & IH2 & IH3) ]; [ done | ].
  cbn [mark_detached].
  destruct (String.eqb (thread_var_name t) thread_var).
  - split; [ done | ]. split.
    + intros [_ Hts]%Forall_cons. constructor; [ by right | done ].
    + intros [_ Hts]%Forall_cons. by constructor.
  - cbn [map]. rewrite IH1. split; [ done | ]. split.
    + intros [Ht Hts]%Forall_cons. constructor; [ done | by apply IH2 ].
    + intros [Ht Hts]%Forall_cons. constructor; [ done | by apply IH3 ].
Qed.

(** X20: the thread scan of [analyzeFunction] only adds records and sets
    flags: the records handed over are still there, in place, with their
    variable, function and arguments, followed by the records added; the
    flags of a record are those a new record gets, or [detached] set and
    [joinable] cleared. *)
Theorem analyzeFunction_thread_sites (dd dj : bool) (func : IRFunction) :
  Forall (flags_ok dd dj) (threads_created func) →
  ∃ func' added,
    analyzeFunction dd dj func = Some func'
    ∧ map thread_site (threads_created func')
      = (map thread_site (threads_created func) ++ added)%list
    ∧ Forall (flags_ok dd dj) (threads_created func').
Proof.
  intros H0.
  set (P := λ ts : list ThreadInfo,
         (∃ added, map thread_site ts
                   = (map thread_site (threads_created func) ++ added)%list)
         ∧ Forall (flags_ok dd dj) ts).
  assert (Hstep : ∀ (s : string) (m : smatch) (acc : list ThreadInfo),
            P acc → P (thread_step dd dj m acc)).
  { intros s m acc [[added Ha] Hf]. unfold thread_step. split.
    - eexists. rewrite map_app, Ha, <- List.app_assoc. reflexivity.
    - apply Forall_app. split; [ done | ].
      apply Forall_singleton. by left. }
  assert (Hdetach : ∀ (s : string) (m : smatch) (acc : list ThreadInfo),
            P acc → P (detach_step m acc)).
  { intros s m acc [[added Ha] Hf]. unfold detach_step.
    destruct (mark_detached_sites dd dj (group_str 1 (m_groups m)) acc)
      as (Hs & Hfl & _).
    split; [ exists added; by rewrite Hs | by apply Hfl ]. }
  assert (HP0 : P (threads_created func)).
  { split; [ exists []; by rewrite List.app_nil_r | done ]. }
  destruct (search_loop_keeps P thread_pattern1 (thread_step dd dj)
              (fn_body func) (threads_created func) eq_refl)
    as (t1 & H1 & HP1); [ intros s m acc _; apply (Hstep s) | done | ].
  destruct (search_loop_keeps P thread_pattern2 (thread_step dd dj)
              (fn_body func) t1 eq_refl)
    as (t2 & H2 & HP2); [ intros s m acc _; apply (Hstep s) | done | ].
  destruct (search_loop_keeps P thread_pattern3 (thread_step dd dj)
              (fn_body func) t2 eq_refl)
    as (t3 & H3 & HP3); [ intros s m acc _; apply (Hstep s) | done | ].
  destruct (search_loop_keeps P detach_pattern detach_step
              (fn_body func) t3 eq_refl)
    as (t4 & H4 & [[added Hadded] Hflags]);
    [ intros s m acc _; apply (Hdetach s) | done | ].
  assert (Hd : detectThreadCreation dd dj func
               = Some (set_threads_created t4 func)).
  { unfold detectThreadCreation. rewrite H1. cbn [mbind option_bind].
    rewrite H2. cbn [mbind option_bind]. rewrite H3.
    cbn [mbind option_bind]. by rewrite H4. }
  destruct (analyzeFunction_threads dd dj func _ Hd) as (func' & Hf & Ht).
  exists func', added. split; [ done | ]. rewrite Ht.
  destruct (thread_setters_fields func) as (Hset & _).
  destruct (Hset t4) as [-> _]. done.
Qed.

Lemma analyzeFunction_thread_sites_witness :
  ∃ func',
    analyzeFunction false true
      (plain_function "run" "std::thread a(f); std::thread b{g}; b.detach();")
    = Some func'
    ∧ map thread_site (threads_created func')
      = [ ("a", "f", []); ("b", "g", []) ]
    ∧ map detached (threads_created func') = [ false; true ]
    ∧ Forall (flags_ok false true) (threads_created func').
Proof.
  destruct (analyzeFunction_thread_sites false true
              (plain_function "run"
                 "std::thread a(f); std::thread b{g}; b.detach();"))
    as (func' & added & Hf & _ & Hflags); [ done | ].
  exists func'. vm_compute in Hf. injection Hf as <-.
  split; [ reflexivity | ]. split; [ reflexivity | ].
  split; [ reflexivity | exact Hflags ].
Defined.

End ThreadFlags.

(** ** The inventory of a class, in general *)

Section ClassInventoryAgain.
Import ThreadAnalyzer.

Lemma detectMutexMembers_loop_untyped (fields : list IRVariable) :
  ¬ Forall (λ field, is_Some (var_type field)) fields →
  ∀ acc, detectMutexMembers_loop fields acc = None.
Proof.
  induction fields as [ | field fields IH ]; intros Hn acc.
  - destruct Hn. constructor.
  - cbn [detectMutexMembers_loop].
    destruct (var_type field) as [ty | ] eqn:Hty; [ | done ].
    cbn [mbind option_bind].
    assert (Hn' : ¬ Forall (λ field, is_Some (var_type field)) fields).
    { intros Hall. apply Hn. constructor; [ by rewrite Hty | done ]. }
    repeat case_decide; by apply IH.
Qed.

(** the inventory found in the fields depends on the fields alone *)
Lemma detectMutexMembers_loop_found (fields : list IRVariable) :
  Forall (λ field, is_Some (var_type field)) fields →
  ∃ ms, map mutex_var_name ms
        = map var_name (List.filter (field_has_kind is_mutex_kind) fields)
        ∧ ∀ acc, detectMutexMembers_loop fields acc = Some (acc ++ ms)%list.
Proof.
  induction 1 as [ | field fields [ty Hty] _ (ms & Hms & IH) ].
  - exists []. split; [ done | ]. intros acc. by rewrite List.app_nil_r.
  - cbn [detectMutexMembers_loop List.filter].
    unfold field_has_kind at 1. rewrite Hty. cbn [mbind option_bind].
    destruct (ty_kind ty) eqn:Hk; cbn [is_mutex_kind];
      repeat case_decide; try discriminate; try congruence.
    all: first
      [ exists ms; split; [ exact Hms | exact IH ]
      | eexists (_ :: ms);
        (split;
         [ | intros acc; rewrite IH, <- List.app_assoc; reflexivity ]);
        cbn [map mutex_var_name]; rewrite Hms; reflexivity ].
Qed.

Lemma detectAtomicMembers_loop_found (fields : list IRVariable) :
  Forall (λ field, is_Some (var_type field)) fields →
  ∃ ats, map atomic_var_name ats
         = map var_name (List.filter (field_has_kind is_atomic_kind) fields)
         ∧ Forall (λ a, operations a = []) ats
         ∧ ∀ acc, detectAtomicMembers_loop fields acc = Some (acc ++ ats)%list.
Proof.
  induction 1 as [ | field fields [ty Hty] _ (ats & Hats & Hops & IH) ].
  - exists []. split; [ done | ]. split; [ done | ].
    intros acc. by rewrite List.app_nil_r.
  - cbn [detectAtomicMembers_loop List.filter].
    unfold field_has_kind at 1. rewrite Hty. cbn [mbind option_bind].
    destruct (ty_kind ty) eqn:Hk; cbn [is_atomic_kind];
      repeat case_decide; try discriminate; try congruence.
    all: first
      [ exists ats; split; [ exact Hats | split; [ exact Hops | exact IH ] ]
      | eexists (_ :: ats);
        (split;
         [ | split;
             [ | intros acc; rewrite IH, <- List.app_assoc; reflexivity ] ]);
        [ cbn [map atomic_var_name]; rewrite Hats; reflexivity
        | by constructor ] ].
Qed.

(** X21: [analyzeClass] fails exactly on a class with a field that has
    no type. On any other class it keeps the inventory handed over and
    appends to it the mutex fields and the atomic fields of the class, so
    that [thread_safe] is set for a class that came with an inventory
    even if it has no such field, and a second run on the result appends
    the same entries once more. *)
Theorem analyzeClass_appends (c : ClassDecl) :
  (analyzeClass c = None ↔ ¬ typed_fields c)
  ∧ (typed_fields c →
     ∃ ms ats,
       map mutex_var_name ms
       = map var_name
           (List.filter (field_has_kind is_mutex_kind) (cls_fields c))
       ∧ map atomic_var_name ats
         = map var_name
             (List.filter (field_has_kind is_atomic_kind) (cls_fields c))
       ∧ analyzeClass c
         = Some (set_thread_safe
                   (nonempty (mutexes c ++ ms)
                    || nonempty (atomic_fields c ++ ats))
                   (set_atomic_fields (atomic_fields c ++ ats)
                      (set_mutexes (mutexes c ++ ms) c)))
       ∧ (c' ← analyzeClass c; analyzeClass c')
         = Some (set_thread_safe
                   (nonempty (mutexes c ++ ms)
                    || nonempty (atomic_fields c ++ ats))
                   (set_atomic_fields (atomic_fields c ++ ats ++ ats)
                      (set_mutexes (mutexes c ++ ms ++ ms) c)))).
Proof.
  assert (Htyped : typed_fields c →
     ∃ ms ats,
       map mutex_var_name ms
       = map var_name
           (List.filter (field_has_kind is_mutex_kind) (cls_fields c))
       ∧ map atomic_var_name ats
         = map var_name
             (List.filter (field_has_kind is_atomic_kind) (cls_fields c))
       ∧ analyzeClass c
         = Some (set_thread_safe
                   (nonempty (mutexes c ++ ms)
                    || nonempty (atomic_fields c ++ ats))
                   (set_atomic_fields (atomic_fields c ++ ats)
                      (set_mutexes (mutexes c ++ ms) c)))
       ∧ (c' ← analyzeClass c; analyzeClass c')
         = Some (set_thread_safe
                   (nonempty (mutexes c ++ ms)
                    || nonempty (atomic_fields c ++ ats))
                   (set_atomic_fields (atomic_fields c ++ ats ++ ats)
                      (set_mutexes (mutexes c ++ ms ++ ms) c)))).
  { intros Hall.
    destruct (detectMutexMembers_loop_found (cls_fields c) Hall)
      as (ms & Hms & Hm).
    destruct (detectAtomicMembers_loop_found (cls_fields c) Hall)
      as (ats & Hats & _ & Ha).
    exists ms, ats. split; [ done | ]. split; [ done | ].
    destruct c as [n st fs me bc it tp acs mx af ts].
    unfold analyzeClass, detectMutexMembers, detectAtomicMembers.
    cbn [cls_fields mutexes atomic_fields set_mutexes set_atomic_fields
         set_thread_safe] in *.
    rewrite Hm. cbn [mbind option_bind cls_fields mutexes atomic_fields
                     set_mutexes set_atomic_fields set_thread_safe].
    rewrite Ha. cbn [mbind option_bind cls_fields mutexes atomic_fields
                     set_mutexes set_atomic_fields set_thread_safe].
    split; [ reflexivity | ].
    rewrite Hm. cbn [mbind option_bind cls_fields mutexes atomic_fields
                     set_mutexes set_atomic_fields set_thread_safe].
    rewrite Ha. cbn [mbind option_bind cls_fields mutexes atomic_fields
                     set_mutexes set_atomic_fields set_thread_safe].
    rewrite <- !List.app_assoc.
    do 2 f_equal. by destruct mx, ms, af, ats. }
  split; [ | exact Htyped ].
  split.
  - intros Hnone Hall. destruct (Htyped Hall) as (ms & ats & _ & _ & H & _).
    congruence.
  - intros Hn. unfold analyzeClass, detectMutexMembers.
    by rewrite (detectMutexMembers_loop_untyped _ Hn).
Qed.

Lemma analyzeClass_appends_witness :
  ∃ ms ats,
    map mutex_var_name ms = [ "mtx" ]
    ∧ map atomic_var_name ats = [ "count" ]
    ∧ (c' ← analyzeClass counter_class; analyzeClass c')
      = Some (set_thread_safe true
                (set_atomic_fields (ats ++ ats)
                   (set_mutexes (ms ++ ms) counter_class))).
Proof.
  destruct (proj2 (analyzeClass_appends counter_class))
    as (ms & ats & Hm & Ha & H1 & H2).
  - repeat constructor; by eexists.
  - exists ms, ats. split; [ exact Hm | ]. split; [ exact Ha | ].
    rewrite H2. cbn [counter_class mutexes atomic_fields app].
    destruct ms; [ discriminate Hm | ]. reflexivity.
Defined.

End ClassInventoryAgain.

(** ** Types of the type mapper and their ownership pattern *)

Section MappedOwnership.
Import TypeMapper MemoryPatternAnalyzer.

Lemma prefix_nil (s : string) : String.prefix "" s = true.
Proof. by destruct s. Qed.

(** a needle that does not end with [c] begins in [t ++ c] only where it
    begins in [t] *)
Lemma prefix_snoc (c : ascii) (needle t : string) :
  needle ≠ "" → (∀ pre, needle ≠ pre ++ String c "") →
  String.prefix needle (t ++ String c "") = String.prefix needle t.
Proof.
  revert needle. induction t as [ | x t IH ]; intros needle Hne Hlast.
  - destruct needle as [ | y needle ]; [ done | ].
    rewrite sapp_nil_l. cbn. destruct (ascii_dec y c) as [-> | ]; [ | done ].
    destruct needle as [ | z needle ]; [ | done ].
    by destruct (Hlast "").
  - destruct needle as [ | y needle ]; [ done | ].
    rewrite sapp_cons. cbn. destruct (ascii_dec y x) as [-> | ]; [ | done ].
    destruct needle as [ | z needle ]; [ by rewrite !prefix_nil | ].
    apply IH; [ done | ].
    intros pre Hpre. apply (Hlast (String x pre)).
    by rewrite sapp_cons, Hpre.
Qed.

Lemma contains_snoc (c : ascii) (needle s : string) :
  needle ≠ "" → (∀ pre, needle ≠ pre ++ String c "") →
  Str.contains (s ++ String c "") needle = Str.contains s needle.
Proof.
  intros Hne Hlast. induction s as [ | x s IH ].
  - pose proof (prefix_snoc c needle "" Hne Hlast) as H.
    rewrite sapp_nil_l in *. rewrite contains_cons, H.
    by destruct needle.
  - rewrite sapp_cons, !contains_cons, IH.
    by rewrite <- (prefix_snoc c needle (String x s) Hne Hlast), sapp_cons.
Qed.

Lemma no_star_end (needle : string) :
  needle = "unique_ptr" ∨ needle = "shared_ptr" →
  needle ≠ "" ∧ ∀ pre, needle ≠ pre ++ "*".
Proof.
  intros [-> | ->]; (split; [ done | ]); intros pre H;
    apply (f_equal (λ s, Str.contains s "*")) in H;
    rewrite contains_app_r in H by reflexivity; discriminate H.
Qed.

(** X22: the ownership pattern of the types the type mapper builds. A
    reference is borrowed, mutably unless it is const; an array and a
    builtin type have value semantics; a smart pointer is classified by
    the name it is given; and a plain pointer is classified by the name
    of its pointee, so that a pointer to a unique or shared pointer
    counts as owning, and a pointer to nothing as raw. *)
Theorem mapped_types_ownership (w : Z) (element : option IRType)
    (is_const : bool) (count : Z) (name : string) :
  let by_name (n : string) :=
    if Str.contains n "unique_ptr" then UniqueOwnership
    else if Str.contains n "shared_ptr" then SharedOwnership
    else RawPointer in
  analyzePointerPattern (Some (mapReferenceType w element is_const))
  = (if is_const then BorrowedReference else MutableBorrow)
  ∧ analyzePointerPattern (Some (mapArrayType element count)) = ValueSemantics
  ∧ analyzePointerPattern (mapBuiltinType name) = ValueSemantics
  ∧ analyzePointerPattern (Some (mapSmartPointer w name element))
    = by_name name
  ∧ analyzePointerPattern (Some (mapPointerType w element))
    = by_name (match element with Some p => ty_name p | None => "" end).
Proof.
  cbn zeta. split; [ | split; [ | split; [ | split ] ] ].
  - by destruct element, is_const.
  - by destruct element.
  - unfold mapBuiltinType.
    destruct (builtin_map !! name) as [k | ] eqn:Hk; [ | done ].
    apply elem_of_list_to_map_2 in Hk.
    repeat (apply elem_of_cons in Hk as [Hk | Hk];
            [ injection Hk as -> ->; reflexivity | ]).
    by apply elem_of_nil in Hk.
  - reflexivity.
  - destruct element as [p | ]; [ | reflexivity ].
    unfold mapPointerType, analyzePointerPattern.
    destruct p as [k n c m e a sz al]. cbn [ty_kind ty_name set_name
      set_size set_element_type new_Type].
    case_decide; [ | done ].
    destruct (no_star_end "unique_ptr") as [Hu1 Hu2]; [ by left | ].
    destruct (no_star_end "shared_ptr") as [Hs1 Hs2]; [ by right | ].
    by rewrite (contains_snoc "*" "unique_ptr" n Hu1 Hu2),
         (contains_snoc "*" "shared_ptr" n Hs1 Hs2).
Qed.

End MappedOwnership.

(** ** One line of output *)

Section OneLine.

Lemma write_indent_loop_spaces (n : nat) (out : string) :
  ∃ pad, write_indent_loop n out = out ++ pad
         ∧ String.length pad = 4 * n
         ∧ RegexSpec.str_all (Ascii.eqb " ") pad = true.
Proof.
  revert out. induction n as [ | n IH ]; intros out; cbn [write_indent_loop].
  - exists "". by rewrite sapp_nil_r.
  - destruct (IH (out ++ "    ")) as (pad & -> & Hlen & Hall).
    exists ("    " ++ pad). rewrite sapp_assoc. split; [ done | ].
    rewrite slength_app, str_all_app, Hall. cbn. split; [ lia | done ].
Qed.

(** X23: [writeLine] appends one line to the output and keeps the indent
    level: four spaces for each level of indentation, the text, and a
    newline. An empty line is written as the newline alone, without
    indentation, and an indent level below zero indents nothing. *)
Theorem writeLine_line (line : string) (g : CodeGenerator) :
  ∃ pad,
    output_ (writeLine line g)
    = output_ g ++ pad ++ line ++ String "010" ""
    ∧ RegexSpec.str_all (Ascii.eqb " ") pad = true
    ∧ String.length pad
      = (if Str.is_empty line then 0
         else 4 * Z.to_nat (indent_level_ g))
    ∧ ((indent_level_ g <= 0)%Z → pad = "")
    ∧ indent_level_ (writeLine line g) = indent_level_ g.
Proof.
  unfold writeLine, writeIndent. destruct line as [ | c line ].
  - exists "". cbn. repeat split; try done.
  - destruct (write_indent_loop_spaces (Z.to_nat (indent_level_ g))
                (output_ g)) as (pad & Hpad & Hlen & Hall).
    exists pad. cbn [Str.is_empty output_ indent_level_]. rewrite Hpad.
    rewrite !sapp_assoc. repeat split; try done.
    intros Hle. replace (Z.to_nat (indent_level_ g)) with 0 in Hlen by lia.
    by destruct pad.
Qed.

End OneLine.

(** ** The tables of atomic types *)

Section AtomicTables.
Import ThreadingTypeMapper.

(** X24: the Rust and the Go table of atomic types agree on the integer
    and boolean types: one gives the 32-bit signed (64-bit signed, 32-bit
    unsigned, 64-bit unsigned, boolean) atomic exactly when the other
    does, and the width of the atomic is the size the type mapper gives
    the C++ type. Every other type gets [AtomicUsize] or [AtomicIsize] in
    Rust and a pointer or a value in Go. *)
Theorem atomic_type_tables (cpp_type : string) :
  let rust := getRustAtomicType cpp_type in
  let go := getGoAtomicType cpp_type in
  (rust = "AtomicI32" ↔ go = "atomic.Int32")
  ∧ (rust = "AtomicI64" ↔ go = "atomic.Int64")
  ∧ (rust = "AtomicU32" ↔ go = "atomic.Uint32")
  ∧ (rust = "AtomicU64" ↔ go = "atomic.Uint64")
  ∧ (rust = "AtomicBool" ↔ go = "atomic.Bool")
  ∧ (rust ∈ [ "AtomicI32"; "AtomicU32" ] →
     TypeMapper.getSizeForType cpp_type = 4%Z)
  ∧ (rust ∈ [ "AtomicI64"; "AtomicU64" ] →
     TypeMapper.getSizeForType cpp_type = 8%Z)
  ∧ (rust = "AtomicBool" → TypeMapper.getSizeForType cpp_type = 1%Z)
  ∧ (rust ∈ [ "AtomicUsize"; "AtomicIsize" ]
     ↔ go ∈ [ "atomic.Pointer"; "atomic.Value" ]).
Proof.
  cbn zeta. unfold getRustAtomicType, getGoAtomicType.
  repeat match goal with
         | |- context [ String.eqb cpp_type ?b ] =>
             destruct (String.eqb_spec cpp_type b) as [-> | ?]
         end;
    cbn [orb];
    try (repeat split; intros H; try done;
         first [ no_elem H | in_list | reflexivity ]).
  all: destruct (Str.contains cpp_type "*");
    repeat split; intros H; try done; first [ no_elem H | in_list ].
Qed.

End AtomicTables.

(** ** Containers of mapped arguments *)

Section ContainerRenderings.
Import STLContainerMapper Recorded.

Lemma extractTemplateArgs_join (name tail : string) (args : list string) :
  Str.find_char "<" name = None →
  Str.find_char ">" tail = None →
  Forall is_template_arg args →
  extractTemplateArgs (name ++ "<" ++ join_args args ++ ">" ++ tail)
  = map trim args.
Proof.
  intros Hname Htail Hall. unfold extractTemplateArgs.
  rewrite (sapp_cons "<" "" _), sapp_nil_l.
  rewrite (find_char_app "<" name _ Hname).
  rewrite (sapp_cons ">" "" tail), sapp_nil_l.
  change (name ++ String "<" (join_args args ++ String ">" tail))
    with (name ++ (String "<" (join_args args)) ++ String ">" tail).
  rewrite <- sapp_assoc.
  rewrite (rfind_char_app ">" _ tail Htail).
  rewrite slength_app. cbn [String.length].
  destruct (Nat.leb_spec (String.length name + S (String.length (join_args args)))
              (String.length name)) as [Hle | _]; [ lia | ].
  rewrite sapp_assoc.
  replace (String.length name + S (String.length (join_args args))
           - String.length name - 1)
    with (String.length (join_args args)) by lia.
  rewrite substring_skip_add, sapp_cons. cbn [substring].
  rewrite substring_0_app.
  destruct args as [ | a args ]; [ done | ].
  apply (split_loop_join (a :: args) "" []); done.
Qed.

(** the type string of a container: its name, qualified or not, and its
    arguments between angle brackets *)
Lemma container_string_parts (qualified : bool) (name : string)
    (kind : TypeKind) (args : list string) :
  kind_map !! name = Some kind →
  Forall is_template_arg args →
  let cpp_type :=
    (if qualified then "std::" else "") ++ name ++ "<" ++ join_args args
    ++ ">" in
  extractContainerName cpp_type = name
  ∧ extractTemplateArgs cpp_type = map trim args.
Proof.
  intros Hk Hall. cbn zeta.
  pose proof (kind_map_name_plain name kind Hk) as Hplain. split.
  - destruct qualified.
    + by apply extractContainerName_std.
    + rewrite sapp_nil_l. unfold extractContainerName.
      rewrite (sapp_cons "<" "" _), sapp_nil_l.
      rewrite (find_char_app "<" name _ Hplain), substring_0_app.
      rewrite bool_decide_eq_false_2; [ done | ].
      apply elem_of_list_to_map_2 in Hk.
      repeat (apply elem_of_cons in Hk as [Hk | Hk];
              [ injection Hk as -> ->; by vm_compute | ]).
      by apply elem_of_nil in Hk.
  - set (pre := if qualified then "std::" else "").
    replace (pre ++ name ++ "<" ++ join_args args ++ ">")
      with ((pre ++ name) ++ "<" ++ join_args args ++ ">" ++ "")
      by (by rewrite sapp_assoc, sapp_nil_r).
    apply extractTemplateArgs_join; [ | done | done ].
    subst pre. destruct qualified; [ | by rewrite sapp_nil_l ].
    rewrite !sapp_cons, sapp_nil_l. cbn. by rewrite Hplain.
Qed.

Lemma mapTypeRecursive_trim (type_str : string) :
  mapTypeRecursive (trim type_str) = mapTypeRecursive type_str.
Proof.
  unfold mapTypeRecursive, mapTypeRecursive_with.
  destruct (trim_facts type_str) as (_ & Hs & He).
  by rewrite (trim_fixed _ Hs He).
Qed.

Lemma mapM_mapTypeRecursive (args : list string) :
  ∃ rs, mapM mapTypeRecursive (map trim args) = Some rs
        ∧ Forall2 (λ arg r, mapTypeRecursive arg = Some r) args rs.
Proof.
  induction args as [ | a args (rs & Hrs & Hall) ].
  - by exists [].
  - destruct (mapTypeRecursive_is_Some a) as [r Hr].
    exists (r :: rs). split; [ | by constructor ].
    cbn. rewrite mapTypeRecursive_trim, Hr. cbn. by rewrite Hrs.
Qed.

(** the type of a container string with arguments *)
Lemma mapSTLContainer_arguments (qualified : bool) (name : string)
    (kind : TypeKind) (args : list string) :
  kind_map !! name = Some kind →
  Forall is_template_arg args →
  ∃ rs,
    Forall2 (λ arg r, mapTypeRecursive arg = Some r) args rs
    ∧ mapSTLContainer
        ((if qualified then "std::" else "") ++ name ++ "<"
         ++ join_args args ++ ">")
      = Some (Some (set_template_args (omap id rs)
                      (set_name name (new_Type kind)))).
Proof.
  intros Hk Hall.
  destruct (container_string_parts qualified name kind args Hk Hall)
    as [Hname Hargs].
  set (cpp_type := (if qualified then "std::" else "") ++ name ++ "<"
                   ++ join_args args ++ ">") in *.
  destruct (mapSTLContainer_known cpp_type kind) as (rs & Hrs & ->);
    [ by rewrite Hname | ].
  rewrite Hargs in Hrs. rewrite Hname.
  destruct (mapM_mapTypeRecursive args) as (rs' & Hrs' & Hall').
  exists rs. split; [ | done ]. congruence.
Qed.

(** X25: the target type of a container of one argument is built from
    the target type of the argument: for every argument [T] with nested
    brackets, [vector<T>] is [Vec] of the Rust type of [T] and a slice of
    its Go type, and so on for the other containers of one argument,
    where an argument that maps to null counts as [()] and [interface{}].
    With a single argument a map or a pair has no argument at all. *)
Theorem container_of_argument (qualified : bool) (name : string)
    (kind : TypeKind) (T : string) :
  kind_map !! name = Some kind →
  is_template_arg T →
  ∃ t r,
    mapSTLContainer
      ((if qualified then "std::" else "") ++ name ++ "<" ++ T ++ ">")
    = Some (Some t)
    ∧ mapTypeRecursive T = Some r
    ∧ let R := getRustEquivalent r in
      let G := getGoEquivalent r in
      let rust := getRustEquivalent (Some t) in
      let go := getGoEquivalent (Some t) in
      match kind with
      | StdVector => rust = "Vec<" ++ R ++ ">" ∧ go = "[]" ++ G
      | StdList =>
          rust = "std::collections::LinkedList<" ++ R ++ ">"
          ∧ go = "[]" ++ G
      | StdDeque =>
          rust = "std::collections::VecDeque<" ++ R ++ ">" ∧ go = "[]" ++ G
      | StdSet =>
          rust = "std::collections::BTreeSet<" ++ R ++ ">"
          ∧ go = "map[" ++ G ++ "]bool"
      | StdUnorderedSet =>
          rust = "std::collections::HashSet<" ++ R ++ ">"
          ∧ go = "map[" ++ G ++ "]bool"
      | StdOptional => rust = "Option<" ++ R ++ ">" ∧ go = "*" ++ G
      | StdString => rust = "String" ∧ go = "string"
      | StdMap =>
          rust = "std::collections::BTreeMap<(), ()>"
          ∧ go = "map[interface{}]interface{}"
      | StdUnorderedMap =>
          rust = "std::collections::HashMap<(), ()>"
          ∧ go = "map[interface{}]interface{}"
      | StdPair =>
          rust = "((), ())"
          ∧ go = "struct { First interface{}; Second interface{} }"
      | _ => False
      end.
Proof.
  intros Hk HT.
  destruct (mapSTLContainer_arguments qualified name kind [T] Hk)
    as (rs & Hall & Hmap); [ by constructor | ].
  apply Forall2_cons_inv_l in Hall as (r & rs' & Hr & Hnil & ->).
  apply Forall2_nil_inv_l in Hnil as ->.
  cbn [join_args] in Hmap.
  eexists _, r. split; [ exact Hmap | ]. split; [ exact Hr | ].
  cbn zeta.
  apply elem_of_list_to_map_2 in Hk.
  repeat (apply elem_of_cons in Hk as [Hk | Hk];
          [ injection Hk as -> ->; by destruct r | ]).
  by apply elem_of_nil in Hk.
Qed.

Lemma container_of_argument_witness :
  ∃ t,
    mapSTLContainer "std::vector<map<string, int>>" = Some (Some t)
    ∧ getRustEquivalent (Some t)
      = "Vec<std::collections::BTreeMap<String, i32>>"
    ∧ getGoEquivalent (Some t) = "[]map[string]int32".
Proof.
  destruct (container_of_argument true "vector" StdVector "map<string, int>")
    as (t & r & Ht & Hr & Hrust & Hgo).
  - reflexivity.
  - by split.
  - exists t. split; [ exact Ht | ].
    vm_compute in Hr. injection Hr as <-. by split.
Defined.

(** X26: the target type of a container of two arguments [K] and [V]. A
    map, an unordered map and a pair are built from the target types of
    both arguments when both map to a type; when one of them maps to
    null the other is lost as well. A container of one argument takes the
    first of the two that maps to a type. *)
Theorem container_of_two_arguments (qualified : bool) (name : string)
    (kind : TypeKind) (K V : string) :
  kind_map !! name = Some kind →
  is_template_arg K → is_template_arg V →
  ∃ t k v,
    mapSTLContainer
      ((if qualified then "std::" else "") ++ name ++ "<" ++ K ++ ","
       ++ V ++ ">")
    = Some (Some t)
    ∧ mapTypeRecursive K = Some k
    ∧ mapTypeRecursive V = Some v
    ∧ let rust := getRustEquivalent (Some t) in
      let go := getGoEquivalent (Some t) in
      let both := match k, v with Some _, Some _ => true | _, _ => false end in
      let first := match k with Some _ => k | None => v end in
      match kind with
      | StdMap =>
          rust = (if both
                  then "std::collections::BTreeMap<" ++ getRustEquivalent k
                       ++ ", " ++ getRustEquivalent v ++ ">"
                  else "std::collections::BTreeMap<(), ()>")
          ∧ go = (if both
                  then "map[" ++ getGoEquivalent k ++ "]"
                       ++ getGoEquivalent v
                  else "map[interface{}]interface{}")
      | StdUnorderedMap =>
          rust = (if both
                  then "std::collections::HashMap<" ++ getRustEquivalent k
                       ++ ", " ++ getRustEquivalent v ++ ">"
                  else "std::collections::HashMap<(), ()>")
          ∧ go = (if both
                  then "map[" ++ getGoEquivalent k ++ "]"
                       ++ getGoEquivalent v
                  else "map[interface{}]interface{}")
      | StdPair =>
          rust = (if both
                  then "(" ++ getRustEquivalent k ++ ", "
                       ++ getRustEquivalent v ++ ")"
                  else "((), ())")
          ∧ go = (if both
                  then "struct { First " ++ getGoEquivalent k
                       ++ "; Second " ++ getGoEquivalent v ++ " }"
                  else "struct { First interface{}; Second interface{} }")
      | StdVector =>
          rust = "Vec<" ++ getRustEquivalent first ++ ">"
          ∧ go = "[]" ++ getGoEquivalent first
      | StdList =>
          rust = "std::collections::LinkedList<" ++ getRustEquivalent first
                 ++ ">"
          ∧ go = "[]" ++ getGoEquivalent first
      | StdDeque =>
          rust = "std::collections::VecDeque<" ++ getRustEquivalent first
                 ++ ">"
          ∧ go = "[]" ++ getGoEquivalent first
      | StdSet =>
          rust = "std::collections::BTreeSet<" ++ getRustEquivalent first
                 ++ ">"
          ∧ go = "map[" ++ getGoEquivalent first ++ "]bool"
      | StdUnorderedSet =>
          rust = "std::collections::HashSet<" ++ getRustEquivalent first
                 ++ ">"
          ∧ go = "map[" ++ getGoEquivalent first ++ "]bool"
      | StdOptional =>
          rust = "Option<" ++ getRustEquivalent first ++ ">"
          ∧ go = "*" ++ getGoEquivalent first
      | StdString => rust = "String" ∧ go = "string"
      | _ => False
      end.
Proof.
  intros Hk HK HV.
  destruct (mapSTLContainer_arguments qualified name kind [K; V] Hk)
    as (rs & Hall & Hmap);
    [ constructor; [ done | constructor; [ done | constructor ] ] | ].
  apply Forall2_cons_inv_l in Hall as (k & rs' & Hkr & Hall & ->).
  apply Forall2_cons_inv_l in Hall as (v & rs'' & Hvr & Hnil & ->).
  apply Forall2_nil_inv_l in Hnil as ->.
  cbn [join_args] in Hmap. rewrite !sapp_assoc in Hmap.
  eexists _, k, v. split; [ exact Hmap | ].
  split; [ exact Hkr | ]. split; [ exact Hvr | ].
  cbn zeta.
  apply elem_of_list_to_map_2 in Hk.
  repeat (apply elem_of_cons in Hk as [Hk | Hk];
          [ injection Hk as -> ->; by destruct k, v | ]).
  by apply elem_of_nil in Hk.
Qed.

Lemma container_of_two_arguments_witness :
  ∃ t,
    mapSTLContainer "map<bitset<8>,int>" = Some (Some t)
    ∧ getRustEquivalent (Some t) = "std::collections::BTreeMap<(), ()>"
    ∧ getGoEquivalent (Some t) = "map[interface{}]interface{}".
Proof.
  destruct (container_of_two_arguments false "map" StdMap "bitset<8>" "int")
    as (t & k & v & Ht & Hkr & Hvr & Hrust & Hgo).
  - reflexivity.
  - by split.
  - by split.
  - exists t. split; [ exact Ht | ].
    vm_compute in Hkr. injection Hkr as <-.
    vm_compute in Hvr. injection Hvr as <-. by split.
Defined.

End ContainerRenderings.

(** ** The parameter of a catch clause *)

Section CatchParameter.
Import Regex RegexSpec ExceptionAnalyzer Recorded.

Lemma derives_suffix (r : regex) :
  ∀ (s : string) (caps : captures) (s' : string) (caps' : captures),
    derives r s caps s' caps' → ∃ mid, s = mid ++ s'.
Proof.
  induction r as [ | c | cl | cl | cl | r1 IH1 r2 IH2 | r1 IH1 r2 IH2
                 | r1 IH1 | r1 IH1 | n r1 IH1 ];
    intros s caps s' caps'; cbn [derives].
  - intros [-> _]. by exists "".
  - intros [-> _]. by exists (String c "").
  - intros (d & -> & _). by exists (String d "").
  - intros (b & -> & _). by exists b.
  - intros (d & b & -> & _). by exists (String d b).
  - intros (s1 & caps1 & H1 & H2).
    destruct (IH1 _ _ _ _ H1) as [m1 ->], (IH2 _ _ _ _ H2) as [m2 ->].
    exists (m1 ++ m2). by rewrite sapp_assoc.
  - intros [H | H]; eauto.
  - eauto.
  - intros [H | [-> _]]; [ eauto | by exists "" ].
  - intros (caps1 & H1 & _). eauto.
Qed.

(** the text is the prefix, the match and the suffix *)
Lemma regex_search_parts (r : regex) (s : string) (m : smatch) :
  regex_search r s = Some m → ∃ mid, s = m_prefix m ++ mid ++ m_suffix m.
Proof.
  intros (rest & -> & Hd)%regex_search_sound.
  apply derives_suffix in Hd as [mid ->]. by exists mid.
Qed.

(** a replacement keeps what holds of every character of the text and of
    the replacement *)
Lemma regex_replace_loop_chars (p : ascii → bool) (r : regex)
    (fmt : string) :
  str_all p fmt = true →
  ∀ (fuel : nat) (s out : string),
    str_all p s = true → regex_replace_loop fuel r fmt s = Some out →
    str_all p out = true.
Proof.
  intros Hfmt. induction fuel as [ | fuel IH ]; intros s out Hs;
    cbn [regex_replace_loop]; [ done | ].
  destruct (regex_search r s) as [m | ] eqn:Hm; [ | by intros [= <-] ].
  destruct (regex_search_parts r s m Hm) as [mid Hparts].
  rewrite Hparts, !str_all_app in Hs.
  apply andb_true_iff in Hs as [Hpre [_ Hsuf]%andb_true_iff].
  destruct (regex_replace_loop fuel r fmt (m_suffix m)) as [rest | ] eqn:Hr;
    [ | done ].
  cbn. intros [= <-]. rewrite !str_all_app, Hpre, Hfmt. cbn.
  by apply (IH (m_suffix m)).
Qed.

(** where the pattern matches at every character outside [p], the text
    before the leftmost match, and a text without a match, are within
    [p] *)
Lemma regex_search_avoids (p : ascii → bool) (r : regex) :
  (∀ c t, p c = false → is_Some (match_here r (String c t))) →
  ∀ s, match regex_search r s with
       | Some m => str_all p (m_prefix m) = true
       | None => str_all p s = true
       end.
Proof.
  intros Hstart. induction s as [ | c s IH ]; cbn [regex_search].
  - destruct (match_here r "") as [m | ] eqn:Hm; [ | done ].
    by apply match_here_sound in Hm as [_ ->].
  - destruct (match_here r (String c s)) as [m | ] eqn:Hm.
    + by apply match_here_sound in Hm as [_ ->].
    + assert (Hc : p c = true).
      { destruct (p c) eqn:Hc; [ done | ].
        destruct (Hstart c s Hc) as [m' Hm']. congruence. }
      destruct (regex_search r s) as [m | ]; cbn; by rewrite Hc.
Qed.

Lemma regex_replace_loop_avoids (p q : ascii → bool) (r : regex)
    (fmt : string) :
  (∀ c t, p c = false → is_Some (match_here r (String c t))) →
  (∀ c, p c = true → q c = true) →
  str_all q fmt = true →
  ∀ (fuel : nat) (s out : string),
    regex_replace_loop fuel r fmt s = Some out → str_all q out = true.
Proof.
  intros Hstart Hpq Hfmt.
  induction fuel as [ | fuel IH ]; intros s out; cbn [regex_replace_loop];
    [ done | ].
  pose proof (regex_search_avoids p r Hstart s) as Hav.
  destruct (regex_search r s) as [m | ].
  - destruct (regex_replace_loop fuel r fmt (m_suffix m)) as [rest | ] eqn:Hr;
      [ | done ].
    cbn. intros [= <-]. rewrite !str_all_app, Hfmt.
    rewrite (str_all_impl p q _ Hpq Hav). cbn. by apply (IH (m_suffix m)).
  - intros [= <-]. by apply (str_all_impl p q).
Qed.

Lemma amp_pattern_starts (c : ascii) (t : string) :
  not_amp c = false → is_Some (match_here amp_pattern (String c t)).
Proof.
  unfold not_amp. intros Hc. apply negb_false_iff in Hc.
  apply Ascii.eqb_eq in Hc as ->.
  unfold match_here. eapply (rmatch_complete _ _ _ t []); [ | by eexists ].
  change amp_pattern
    with (RSeq (RStar CSpace) (RSeq (RChar "&") (RSeq (RStar CSpace) REps))).
  cbn [derives]. exists (String "&" t), []. split; [ by exists "" | ].
  exists t, []. split; [ done | ]. exists t, []. split; [ by exists "" | done ].
Qed.

Lemma spaces_pattern_starts (c : ascii) (t : string) :
  negb (is_space c) = false →
  is_Some (match_here spaces_pattern (String c t)).
Proof.
  intros Hc. apply negb_false_iff in Hc.
  unfold match_here. eapply (rmatch_complete _ _ _ t []); [ | by eexists ].
  cbn [spaces_pattern derives]. exists c, "". cbn. by rewrite Hc.
Qed.

Lemma rfind_char_none_all (c : ascii) (s : string) :
  Str.rfind_char c s = None →
  str_all (λ d, negb (Ascii.eqb d c)) s = true.
Proof.
  induction s as [ | d s IH ]; [ done | ]. cbn.
  destruct (Str.rfind_char c s); [ done | ].
  destruct (Ascii.eqb d c); [ done | ]. intros _. by apply IH.
Qed.

Lemma substr_from_cons (n : nat) (d : ascii) (s : string) :
  Str.substr_from (S n) (String d s) = Str.substr_from n s.
Proof. reflexivity. Qed.

(** the text after the last [c] has no [c] *)
Lemma rfind_char_after (c : ascii) (s : string) (n : nat) :
  Str.rfind_char c s = Some n →
  str_all (λ d, negb (Ascii.eqb d c)) (Str.substr_from (S n) s) = true.
Proof.
  revert n. induction s as [ | d s IH ]; intros n; [ done | ].
  cbn [Str.rfind_char].
  destruct (Str.rfind_char c s) as [i | ] eqn:Hr.
  - intros [= <-]. rewrite substr_from_cons. by apply IH.
  - destruct (Ascii.eqb d c); [ | done ]. intros [= <-].
    rewrite substr_from_cons. unfold Str.substr_from.
    rewrite Nat.sub_0_r, substring_all. by apply rfind_char_none_all.
Qed.

Lemma erase_occurs (s : string) :
  Str.contains s (erase_trailing (erase_leading s)) = true.
Proof.
  apply (contains_trans s (erase_leading s)).
  - unfold erase_leading.
    destruct (Str.find_first_not_of trim_set s);
      [ apply substring_occurs | apply contains_iff; by exists "", s ].
  - unfold erase_trailing.
    destruct (Str.find_last_not_of trim_set (erase_leading s));
      [ apply substring_occurs
      | apply contains_iff; by exists "", (erase_leading s) ].
Qed.

(** X27: [parseCatchParameter] returns for every parameter. The
    ellipsis gives the type [...] and no variable. For any other
    parameter the type and the variable contain no [&], the only white
    space left in the type is the space character, and the variable
    contains no white space at all. *)
Theorem parseCatchParameter_clean (param : string) :
  ∃ type var,
    parseCatchParameter param = Some (type, var)
    ∧ (param = "..." → type = "..." ∧ var = "")
    ∧ (param ≠ "..." →
       has_char "&" type = false
       ∧ has_char "&" var = false
       ∧ str_all plain_space type = true
       ∧ str_all (λ c, negb (is_space c)) var = true).
Proof.
  unfold parseCatchParameter.
  destruct (String.eqb_spec param "...") as [-> | Hne].
  { eexists _, _. split; [ reflexivity | ]. split; done. }
  destruct (regex_replace_terminates const_pattern " " param eq_refl)
    as [c1 H1]. rewrite H1. cbn [mbind option_bind].
  destruct (regex_replace_terminates amp_pattern " " c1 eq_refl)
    as [c2 H2]. rewrite H2. cbn [mbind option_bind].
  destruct (regex_replace_terminates spaces_pattern " " c2 eq_refl)
    as [c3 H3]. rewrite H3. cbn [mbind option_bind].
  assert (Hamp2 : str_all not_amp c2 = true).
  { eapply (regex_replace_loop_avoids not_amp not_amp amp_pattern " "
              amp_pattern_starts (λ c H, H) eq_refl). exact H2. }
  assert (Hamp3 : str_all not_amp c3 = true).
  { eapply (regex_replace_loop_chars not_amp spaces_pattern " " eq_refl);
      [ exact Hamp2 | exact H3 ]. }
  assert (Hsp3 : str_all plain_space c3 = true).
  { eapply (regex_replace_loop_avoids (λ c, negb (is_space c)) plain_space
              spaces_pattern " " spaces_pattern_starts);
      [ | done | exact H3 ].
    intros c Hc. unfold plain_space. by rewrite Hc. }
  assert (Hpiece : ∀ (p : ascii → bool) (t : string),
            str_all p t = true →
            str_all p (erase_trailing (erase_leading t)) = true).
  { intros p t Ht. eapply str_all_piece; [ exact Ht | apply erase_occurs ]. }
  assert (Hsub : ∀ (p : ascii → bool) (n k : nat),
            str_all p c3 = true → str_all p (substring n k c3) = true).
  { intros p n k Ht.
    eapply str_all_piece; [ exact Ht | apply substring_occurs ]. }
  unfold Str.find_last_of.
  destruct (Str.rfind_char " " c3) as [last_space | ] eqn:Hlast.
  - eexists _, _. split; [ reflexivity | ]. split; [ done | ]. intros _.
    pose proof (rfind_char_after " " c3 last_space Hlast) as Hafter.
    split; [ | split; [ | split ] ].
    + apply has_char_not, Hpiece, Hsub, Hamp3.
    + apply has_char_not, Hpiece, Hsub, Hamp3.
    + apply Hpiece, Hsub, Hsp3.
    + apply Hpiece.
      assert (Hv : str_all plain_space (Str.substr_from (S last_space) c3)
                   = true) by apply Hsub, Hsp3.
      revert Hafter Hv. generalize (Str.substr_from (S last_space) c3).
      clear. induction s as [ | c s IH ]; [ done | ]. cbn.
      intros [Hc Hs]%andb_true_iff [Hp Hps]%andb_true_iff.
      rewrite (IH Hs Hps), andb_true_r. unfold plain_space in Hp.
      apply orb_true_iff in Hp as [Hp | Hp]; [ done | ].
      by rewrite Hp in Hc.
  - eexists _, _. split; [ reflexivity | ]. split; [ done | ]. intros _.
    split; [ | split; [ | split ] ].
    + apply has_char_not, Hpiece, Hamp3.
    + reflexivity.
    + apply Hpiece, Hsp3.
    + reflexivity.
Qed.

End CatchParameter.

(** ** The parameter of a catch clause, well formed *)

Section CatchParameterTokens.
Import Regex RegexSpec ExceptionAnalyzer Recorded.

(** *** Replacing, one match at a time *)

Lemma regex_replace_loop_fuel (r : regex) (fmt : string) :
  nonnull r = true →
  ∀ (fuel fuel' : nat) (s : string),
    String.length s < fuel → String.length s < fuel' →
    regex_replace_loop fuel r fmt s = regex_replace_loop fuel' r fmt s.
Proof.
  intros Hn. induction fuel as [ | fuel IH ]; intros fuel' s Hlt Hlt';
    [ lia | ].
  destruct fuel' as [ | fuel' ]; [ lia | ]. cbn [regex_replace_loop].
  destruct (regex_search r s) as [m | ] eqn:Hm; [ | done ].
  apply regex_search_shrinks in Hm as [_ Hs]. specialize (Hs Hn).
  rewrite (IH fuel' (m_suffix m)) by lia. done.
Qed.

Lemma regex_replace_found (r : regex) (fmt s : string) (m : smatch) :
  nonnull r = true → regex_search r s = Some m →
  regex_replace r fmt s
  = (rest ← regex_replace r fmt (m_suffix m);
     Some (m_prefix m ++ fmt ++ rest)).
Proof.
  intros Hn Hm. unfold regex_replace at 1. cbn [regex_replace_loop].
  rewrite Hm. apply regex_search_shrinks in Hm as [_ Hs]. specialize (Hs Hn).
  unfold regex_replace.
  by rewrite (regex_replace_loop_fuel r fmt Hn (String.length s)
                (S (String.length (m_suffix m))) (m_suffix m)) by lia.
Qed.

Lemma regex_replace_none (r : regex) (fmt s : string) :
  regex_search r s = None → regex_replace r fmt s = Some s.
Proof. intros Hm. unfold regex_replace. cbn. by rewrite Hm. Qed.

(** *** Where the three patterns match *)

Lemma derives_const (s s' : string) (caps caps' : captures) :
  derives const_pattern s caps s' caps' → Str.contains s "const" = true.
Proof.
  change const_pattern
    with (RSeq (RStar CSpace)
            (RSeq (RLit "const") (RSeq (RStar CSpace) REps))).
  cbn [derives].
  intros (s1 & c1 & (b & -> & _) & s2 & c2 & Hlit & _).
  apply derives_lit_inv in Hlit as [-> _].
  apply contains_iff. by exists b, s2.
Qed.

Lemma const_pattern_nowhere (s : string) :
  Str.contains s "const" = false → regex_search const_pattern s = None.
Proof.
  intros Hc. destruct (regex_search const_pattern s) as [m | ] eqn:Hm;
    [ | done ].
  apply regex_search_sound in Hm as (rest & -> & Hd).
  apply derives_const in Hd.
  by rewrite (contains_app_r _ _ _ Hd) in Hc.
Qed.

Lemma amp_pattern_nowhere (s : string) :
  str_all not_amp s = true → regex_search amp_pattern s = None.
Proof.
  intros Hs. destruct (regex_search amp_pattern s) as [m | ] eqn:Hm;
    [ | done ].
  apply regex_search_sound in Hm as (rest & -> & Hd). revert Hd.
  change amp_pattern
    with (RSeq (RStar CSpace) (RSeq (RChar "&") (RSeq (RStar CSpace) REps))).
  cbn [derives].
  intros (s1 & c1 & (b & -> & _) & s2 & c2 & [-> _] & _).
  rewrite !str_all_app in Hs. cbn in Hs.
  by rewrite !andb_false_r in Hs.
Qed.

Lemma token_char_facts (c : ascii) :
  token_char c = true →
  can_start spaces_pattern c = false
  ∧ can_start amp_pattern c = false
  ∧ not_amp c = true
  ∧ Str.mem c trim_set = false
  ∧ Ascii.eqb c " " = false
  ∧ is_space c = false
  ∧ Ascii.eqb c "&" = false.
Proof.
  destruct c as [[] [] [] [] [] [] [] []]; vm_compute; intros H;
    first [ discriminate H | repeat split ].
Qed.

Lemma token_facts (s : string) :
  str_all token_char s = true →
  str_all (λ c, negb (can_start spaces_pattern c)) s = true
  ∧ str_all (λ c, negb (can_start amp_pattern c)) s = true
  ∧ str_all not_amp s = true
  ∧ str_all (λ c, negb (Str.mem c trim_set)) s = true
  ∧ str_all (λ c, negb (is_space c)) s = true
  ∧ Str.find_char " " s = None.
Proof.
  induction s as [ | c s IH ]; [ done | ]. cbn [str_all].
  intros [Hc Hs]%andb_true_iff.
  destruct (IH Hs) as (H1 & H2 & H3 & H4 & H5 & H6).
  destruct (token_char_facts c Hc) as (F1 & F2 & F3 & F4 & F5 & F6 & F7).
  rewrite H1, H2, H3, H4, H5, F1, F2, F3, F4, F6.
  cbn [Str.find_char]. by rewrite H6, F5.
Qed.

Lemma prefix_app_char (c : ascii) (needle t b : string) :
  str_all (λ d, negb (Ascii.eqb d c)) needle = true →
  String.prefix needle (t ++ String c b) = String.prefix needle t.
Proof.
  revert needle. induction t as [ | x t IH ]; intros needle Hn.
  - rewrite sapp_nil_l. destruct needle as [ | y needle ]; [ done | ].
    cbn in *. apply andb_true_iff in Hn as [Hy _].
    destruct (ascii_dec y c) as [-> | ]; [ | done ].
    by rewrite Ascii.eqb_refl in Hy.
  - rewrite sapp_cons. destruct needle as [ | y needle ]; [ done | ].
    cbn in *. apply andb_true_iff in Hn as [_ Hn].
    destruct (ascii_dec y x); [ by apply IH | done ].
Qed.

(** a needle without [c] occurs in [a ++ c ++ b] only where it occurs in
    [a] or in [b] *)
Lemma contains_split (c : ascii) (needle a b : string) :
  needle ≠ "" → str_all (λ d, negb (Ascii.eqb d c)) needle = true →
  Str.contains (a ++ String c b) needle
  = Str.contains a needle || Str.contains b needle.
Proof.
  intros Hne Hn. induction a as [ | x a IH ].
  - rewrite sapp_nil_l, contains_cons.
    pose proof (prefix_app_char c needle "" b Hn) as Hp.
    rewrite sapp_nil_l in Hp. rewrite Hp.
    by destruct needle.
  - rewrite sapp_cons, !contains_cons, IH.
    rewrite <- (prefix_app_char c needle (String x a) b Hn), sapp_cons.
    by rewrite orb_assoc.
Qed.

Lemma token_stops (T rest : string) :
  Str.is_empty T = false → str_all token_char T = true →
  stops CSpace (T ++ rest) = true.
Proof.
  destruct T as [ | c T ]; [ done | ]. cbn [str_all].
  intros _ [Hc _]%andb_true_iff.
  destruct (token_char_facts c Hc) as (_ & _ & _ & _ & _ & F6 & _).
  rewrite sapp_cons. cbn. by rewrite F6.
Qed.

Lemma token_stop (v : string) :
  str_all token_char v = true → stops CSpace v = true.
Proof.
  destruct v as [ | c v ]; [ done | ]. intros Hv.
  rewrite <- (sapp_nil_r (String c v)). by apply token_stops.
Qed.

Lemma regex_search_commits_app (r : regex) (b rest : string)
    (caps : captures) :
  commits r (b ++ rest) [] rest caps →
  regex_search r (b ++ rest)
  = Some {| m_prefix := ""; m_str := b; m_groups := caps;
            m_suffix := rest |}.
Proof. intros H. by apply regex_search_here, match_here_commits. Qed.

Lemma const_pass (T rest : string) :
  Str.is_empty T = false → str_all token_char T = true →
  Str.contains (T ++ rest) "const" = false →
  regex_replace const_pattern " " ("const " ++ T ++ rest)
  = Some (" " ++ T ++ rest).
Proof.
  intros Hne HT Hc.
  assert (Hm : regex_search const_pattern ("const " ++ T ++ rest)
               = Some {| m_prefix := ""; m_str := "const ";
                         m_groups := []; m_suffix := T ++ rest |}).
  { apply (regex_search_commits_app const_pattern "const " (T ++ rest)).
    change ("const " ++ T ++ rest)
      with ("" ++ "const" ++ " " ++ T ++ rest).
    unfold const_pattern. cbn [RSeqs].
    eapply commits_seq; [ by apply commits_star | ].
    eapply commits_seq; [ apply commits_lit | ].
    eapply commits_seq;
      [ apply commits_star; [ done | ] | apply commits_eps ].
    by apply token_stops. }
  rewrite (regex_replace_found const_pattern _ _ _ eq_refl Hm).
  cbn [m_suffix m_prefix].
  rewrite (regex_replace_none _ _ _ (const_pattern_nowhere _ Hc)).
  reflexivity.
Qed.

(** the [&] after a type name is found with the name in front of it,
    also where white space comes before the name *)
Lemma amp_search (lead : bool) (T ws rest : string) :
  Str.is_empty T = false → str_all token_char T = true →
  str_all is_space ws = true → stops CSpace rest = true →
  regex_search amp_pattern
    ((if lead then " " else "") ++ T ++ "&" ++ ws ++ rest)
  = Some {| m_prefix := (if lead then " " else "") ++ T;
            m_str := "&" ++ ws; m_groups := []; m_suffix := rest |}.
Proof.
  intros Hne HT Hws Hstop.
  destruct (token_facts T HT) as (_ & Hskip & _).
  assert (Hm : regex_search amp_pattern (T ++ "&" ++ ws ++ rest)
               = Some {| m_prefix := T; m_str := "&" ++ ws;
                         m_groups := []; m_suffix := rest |}).
  { rewrite (regex_search_skip amp_pattern T _ eq_refl Hskip).
    assert (H : regex_search amp_pattern ("&" ++ ws ++ rest)
                = Some {| m_prefix := ""; m_str := "&" ++ ws;
                          m_groups := []; m_suffix := rest |}).
    { rewrite <- (sapp_assoc "&" ws rest).
      apply (regex_search_commits_app amp_pattern ("&" ++ ws) rest).
      change (("&" ++ ws) ++ rest) with ("" ++ "&" ++ ws ++ rest).
      unfold amp_pattern. cbn [RSeqs].
      eapply commits_seq; [ by apply commits_star | ].
      eapply commits_seq; [ apply commits_char_app | ].
      eapply commits_seq; [ by apply commits_star | apply commits_eps ]. }
    rewrite H. cbn. unfold add_prefix. cbn. by rewrite sapp_nil_r. }
  destruct lead; [ | by rewrite !sapp_nil_l ].
  rewrite sapp_cons, sapp_nil_l. cbn [regex_search].
  assert (Hhere : match_here amp_pattern
                    (String " " (T ++ "&" ++ ws ++ rest)) = None).
  { destruct T as [ | c T ]; [ done | ].
    cbn in HT. apply andb_true_iff in HT as [Hc _].
    destruct (token_char_facts c Hc) as (_ & _ & _ & _ & _ & F6 & F7).
    unfold match_here, amp_pattern. rewrite sapp_cons.
    cbn [RSeqs rmatch star class_mem]. cbn [is_space Ascii.eqb Bool.eqb orb].
    rewrite F6. cbn [rmatch]. by rewrite F7. }
  rewrite Hhere, Hm. reflexivity.
Qed.

Lemma amp_pass (T v : string) :
  Str.is_empty T = false → str_all token_char T = true →
  str_all token_char v = true →
  regex_replace amp_pattern " " (" " ++ T ++ "& " ++ v)
  = Some (" " ++ T ++ " " ++ v).
Proof.
  intros Hne HT Hv.
  pose proof (amp_search true T " " v Hne HT eq_refl (token_stop v Hv))
    as Hm.
  change (" " ++ T ++ "& " ++ v) with (" " ++ T ++ "&" ++ " " ++ v).
  rewrite (regex_replace_found amp_pattern _ _ _ eq_refl Hm).
  cbn [m_suffix m_prefix].
  destruct (token_facts v Hv) as (_ & _ & Hamp & _).
  rewrite (regex_replace_none _ _ _ (amp_pattern_nowhere _ Hamp)).
  cbn. by rewrite !sapp_assoc.
Qed.

Lemma spaces_pass (lead : bool) (T v : string) :
  Str.is_empty T = false →
  str_all token_char T = true → str_all token_char v = true →
  regex_replace spaces_pattern " "
    ((if lead then " " else "") ++ T ++ " " ++ v)
  = Some ((if lead then " " else "") ++ T ++ " " ++ v).
Proof.
  intros Hne HT Hv.
  destruct (token_facts T HT) as (HskipT & _).
  destruct (token_facts v Hv) as (Hskipv & _).
  assert (Hone : ∀ rest,
            stops CSpace rest = true →
            regex_search spaces_pattern (" " ++ rest)
            = Some {| m_prefix := ""; m_str := " "; m_groups := [];
                      m_suffix := rest |}).
  { intros rest Hstop.
    apply (regex_search_commits_app spaces_pattern " " rest).
    unfold spaces_pattern. by apply commits_plus. }
  assert (Hv' : regex_replace spaces_pattern " " v = Some v).
  { apply regex_replace_none.
    by apply (regex_search_nowhere spaces_pattern v eq_refl). }
  assert (Htail : regex_replace spaces_pattern " " (T ++ " " ++ v)
                  = Some (T ++ " " ++ v)).
  { assert (Hm : regex_search spaces_pattern (T ++ " " ++ v)
                 = Some {| m_prefix := T; m_str := " "; m_groups := [];
                           m_suffix := v |}).
    { rewrite (regex_search_skip spaces_pattern T _ eq_refl HskipT).
      rewrite (Hone v (token_stop v Hv)).
      cbn. unfold add_prefix. cbn. by rewrite sapp_nil_r. }
    rewrite (regex_replace_found spaces_pattern _ _ _ eq_refl Hm).
    cbn [m_suffix m_prefix]. by rewrite Hv'. }
  destruct lead; [ | by rewrite !sapp_nil_l ].
  rewrite (regex_replace_found spaces_pattern _ _ _ eq_refl
             (Hone (T ++ " " ++ v) (token_stops T _ Hne HT))).
  cbn [m_suffix m_prefix]. by rewrite Htail.
Qed.

(** *** Splitting and trimming *)

Lemma find_last_not_of_token (T : string) :
  Str.is_empty T = false →
  str_all (λ c, negb (Str.mem c trim_set)) T = true →
  Str.find_last_not_of trim_set T = Some (String.length T - 1).
Proof.
  induction T as [ | c T IH ]; [ done | ]. intros _. cbn [str_all].
  intros [Hc HT]%andb_true_iff. cbn [Str.find_last_not_of String.length].
  destruct T as [ | d T ].
  - apply negb_true_iff in Hc. by rewrite Hc.
  - rewrite (IH eq_refl HT). cbn [String.length]. f_equal. lia.
Qed.

Lemma erase_token (v : string) :
  str_all token_char v = true → erase_trailing (erase_leading v) = v.
Proof.
  intros Hv. destruct (token_facts v Hv) as (_ & _ & _ & Hset & _).
  destruct v as [ | c v ]; [ done | ].
  assert (Hlead : erase_leading (String c v) = String c v).
  { unfold erase_leading. cbn [Str.find_first_not_of].
    cbn [str_all] in Hset. apply andb_true_iff in Hset as [Hc _].
    apply negb_true_iff in Hc. rewrite Hc.
    unfold Str.substr_from. rewrite Nat.sub_0_r. apply substring_all. }
  rewrite Hlead. unfold erase_trailing.
  rewrite (find_last_not_of_token (String c v) eq_refl Hset).
  replace (S (String.length (String c v) - 1))
    with (String.length (String c v)) by (cbn; lia).
  apply substring_all.
Qed.

Lemma erase_leading_space (T : string) :
  Str.is_empty T = false → str_all token_char T = true →
  erase_leading (" " ++ T) = T.
Proof.
  intros Hne HT. destruct (token_facts T HT) as (_ & _ & _ & Hset & _).
  destruct T as [ | c T ]; [ done | ].
  cbn [str_all] in Hset. apply andb_true_iff in Hset as [Hc _].
  apply negb_true_iff in Hc.
  unfold erase_leading. rewrite sapp_cons, sapp_nil_l.
  cbn [Str.find_first_not_of]. rewrite Hc.
  change (Str.mem " " trim_set) with true. cbn [option_map].
  rewrite substr_from_cons. unfold Str.substr_from.
  rewrite Nat.sub_0_r. apply substring_all.
Qed.

Lemma split_last_space (pre v : string) :
  str_all token_char v = true →
  Str.find_last_of " " (pre ++ " " ++ v) = Some (String.length pre)
  ∧ substring 0 (String.length pre) (pre ++ " " ++ v) = pre
  ∧ Str.substr_from (S (String.length pre)) (pre ++ " " ++ v) = v.
Proof.
  intros Hv. destruct (token_facts v Hv) as (_ & _ & _ & _ & _ & Hsp).
  split; [ | split ].
  - unfold Str.find_last_of. rewrite (sapp_cons " " "" v), sapp_nil_l.
    by apply rfind_char_app.
  - apply substring_0_app.
  - rewrite <- sapp_assoc.
    replace (S (String.length pre)) with (String.length (pre ++ " "))
      by (rewrite slength_app; cbn; lia).
    apply substr_from_app.
Qed.

Lemma cleaned_split (lead : bool) (T v : string) :
  Str.is_empty T = false → str_all token_char T = true →
  str_all token_char v = true →
  (let '(type, var) :=
     match Str.find_last_of " " ((if lead then " " else "") ++ T ++ " " ++ v)
     with
     | Some last_space =>
         (substring 0 last_space
            ((if lead then " " else "") ++ T ++ " " ++ v),
          Str.substr_from (S last_space)
            ((if lead then " " else "") ++ T ++ " " ++ v))
     | None => ((if lead then " " else "") ++ T ++ " " ++ v, "e")
     end in
   Some (erase_trailing (erase_leading type),
         erase_trailing (erase_leading var)))
  = Some (T, v).
Proof.
  intros Hne HT Hv.
  destruct (split_last_space ((if lead then " " else "") ++ T) v Hv)
    as (Hlast & Htype & Hvar).
  rewrite sapp_assoc in Hlast, Htype, Hvar.
  rewrite Hlast, Htype, Hvar, (erase_token v Hv).
  destruct lead.
  - rewrite (erase_leading_space T Hne HT).
    pose proof (erase_token T HT) as Ht.
    destruct (token_facts T HT) as (_ & _ & _ & Hset & _).
    unfold erase_trailing.
    rewrite (find_last_not_of_token T Hne Hset).
    replace (S (String.length T - 1)) with (String.length T)
      by (destruct T; [ done | cbn; lia ]).
    by rewrite substring_all.
  - by rewrite sapp_nil_l, (erase_token T HT).
Qed.

Lemma parseCatchParameter_passes (param c1 c2 c3 : string) :
  param ≠ "..." →
  regex_replace const_pattern " " param = Some c1 →
  regex_replace amp_pattern " " c1 = Some c2 →
  regex_replace spaces_pattern " " c2 = Some c3 →
  parseCatchParameter param
  = (let '(type, var) :=
       match Str.find_last_of " " c3 with
       | Some last_space =>
           (substring 0 last_space c3, Str.substr_from (S last_space) c3)
       | None => (c3, "e")
       end in
     Some (erase_trailing (erase_leading type),
           erase_trailing (erase_leading var))).
Proof.
  intros Hne H1 H2 H3. unfold parseCatchParameter.
  destruct (String.eqb_spec param "...") as [-> | _]; [ done | ].
  rewrite H1. cbn [mbind option_bind]. rewrite H2. cbn [mbind option_bind].
  rewrite H3. reflexivity.
Qed.

Lemma parseCatchParameter_const_ref (T v : string) :
  is_token T →
  str_all token_char v = true → Str.contains v "const" = false →
  parseCatchParameter ("const " ++ T ++ "& " ++ v) = Some (T, v).
Proof.
  intros (Hne & HT & HcT) Hv Hcv.
  assert (Hcr : Str.contains (T ++ "& " ++ v) "const" = false).
  { change (T ++ "& " ++ v) with (T ++ String "&" (" " ++ v)).
    rewrite contains_split, HcT by done.
    change (" " ++ v) with ("" ++ String " " v).
    by rewrite contains_split, Hcv. }
  assert (Hdots : "const " ++ T ++ "& " ++ v ≠ "...").
  { rewrite sapp_cons. discriminate. }
  rewrite (parseCatchParameter_passes _ _ _ _ Hdots
             (const_pass T _ Hne HT Hcr) (amp_pass T v Hne HT Hv)
             (spaces_pass true T v Hne HT Hv)).
  apply (cleaned_split true T v Hne HT Hv).
Qed.

(** X28: [parseCatchParameter] on the usual forms of a catch parameter.
    Where the type [T] and the name [v] are texts without white space
    and without [&] in which [const] does not occur, the type not empty,
    the parameters [const T& v] and [T v] give the type [T] and the
    variable [v]; the name may be missing, and is then recorded as
    empty. A type alone, other than the ellipsis, gives the variable the
    default name [e]. *)
Theorem parseCatchParameter_tokens (T v : string) :
  is_token T →
  str_all token_char v = true → Str.contains v "const" = false →
  parseCatchParameter ("const " ++ T ++ "& " ++ v) = Some (T, v)
  ∧ parseCatchParameter (T ++ " " ++ v) = Some (T, v)
  ∧ (T ≠ "..." → parseCatchParameter T = Some (T, "e")).
Proof.
  intros HTok Hv Hcv.
  split; [ by apply parseCatchParameter_const_ref | ].
  destruct HTok as (Hne & HT & HcT).
  destruct (token_facts T HT) as (HsT & _ & HaT & _ & _ & HspT).
  destruct (token_facts v Hv) as (_ & _ & Hav & _ & _ & Hspv).
  assert (Hc : Str.contains (T ++ " " ++ v) "const" = false).
  { rewrite (sapp_cons " " "" v), sapp_nil_l.
    by rewrite contains_split, HcT, Hcv. }
  split.
  - assert (Hamp : str_all not_amp (T ++ " " ++ v) = true).
    { by rewrite !str_all_app, HaT, Hav. }
    assert (Hdots : T ++ " " ++ v ≠ "...").
    { intros H. apply (f_equal (Str.find_char " ")) in H.
      rewrite (sapp_cons " " "" v), sapp_nil_l in H.
      by rewrite (find_char_app " " T v HspT) in H. }
    rewrite (parseCatchParameter_passes _ _ _ _ Hdots
               (regex_replace_none _ _ _ (const_pattern_nowhere _ Hc))
               (regex_replace_none _ _ _ (amp_pattern_nowhere _ Hamp))
               (spaces_pass false T v Hne HT Hv)).
    apply (cleaned_split false T v Hne HT Hv).
  - intros Hdots.
    rewrite (parseCatchParameter_passes T T T T Hdots
               (regex_replace_none _ _ _ (const_pattern_nowhere _ HcT))
               (regex_replace_none _ _ _ (amp_pattern_nowhere _ HaT))
               (regex_replace_none _ _ _
                  (regex_search_nowhere spaces_pattern T eq_refl HsT))).
    unfold Str.find_last_of. rewrite (rfind_char_none " " T HspT).
    by rewrite (erase_token T HT).
Qed.

Lemma parseCatchParameter_tokens_witness :
  parseCatchParameter "const std::runtime_error& err"
  = Some ("std::runtime_error", "err")
  ∧ parseCatchParameter "std::runtime_error err"
    = Some ("std::runtime_error", "err")
  ∧ parseCatchParameter "std::runtime_error"
    = Some ("std::runtime_error", "e").
Proof.
  destruct (parseCatchParameter_tokens "std::runtime_error" "err")
    as (H1 & H2 & H3).
  - by split.
  - reflexivity.
  - reflexivity.
  - split; [ exact H1 | ]. split; [ exact H2 | ]. by apply H3.
Defined.

(** a type in which [const] occurs loses it, and a reference without a
    name has the empty name, not the default one *)
Example parseCatchParameter_const_inside :
  parseCatchParameter "const_iterator it" = Some ("_iterator", "it")
  ∧ parseCatchParameter "const E&" = Some ("E", "").
Proof. vm_compute. by split. Qed.

End CatchParameterTokens.

(** ** One try/catch statement, end to end *)

Section OneTryCatch.
Import Regex RegexSpec ExceptionAnalyzer ExceptionStrategySelector Recorded.

(** X29: a try/catch statement with a handler for a const reference,
    [try { B } catch (const T& v) { H }], with any white space between
    its parts, is recorded as one block with the protected text [B] and
    one clause of type [T], variable [v] and handler text [H], after the
    blocks recorded before; the function is marked [may_throw] and gets
    the strategy [ResultType] for Rust. [B] and [H] are texts without a
    closing brace, [T] and [v] texts without white space, [&] or closing
    parenthesis in which [const] does not occur, and no other try/catch
    statement follows. *)
Theorem try_catch_recorded (func : IRFunction)
    (ws1 B ws2 ws3 T v ws4 H rest : string) :
  Forall (λ ws, str_all is_space ws = true) [ ws1; ws2; ws3; ws4 ] →
  str_all not_rbrace B = true → str_all not_rbrace H = true →
  is_token T → str_all token_char v = true →
  Str.contains v "const" = false →
  has_char ")" T = false → has_char ")" v = false →
  regex_search try_catch_pattern rest = None →
  fn_body func
  = try_catch_text ws1 B ws2 ws3 ("const " ++ T ++ "& " ++ v) ws4 H rest →
  ∃ func',
    analyzeFunction func = Some func'
    ∧ try_catch_blocks func'
      = (try_catch_blocks func
         ++ [ {| try_body := B;
                 catch_clauses :=
                   [ {| exception_type := T; exception_var := v;
                        handler_body := H |} ] |} ])%list
    ∧ may_throw func' = true
    ∧ selectStrategy func' "rust" = ResultType.
Proof.
  intros Hws HB HH HT Hv Hcv HpT Hpv Hrest Hbody.
  apply Forall_cons in Hws as [H1 Hws]. apply Forall_cons in Hws as [H2 Hws].
  apply Forall_cons in Hws as [H3 Hws]. apply Forall_cons in Hws as [H4 _].
  pose proof (parseCatchParameter_const_ref T v HT Hv Hcv) as Hparse.
  assert (Hcp : str_all (class_mem (CNot ")")) ("const " ++ T ++ "& " ++ v)
                = true).
  { unfold has_char in HpT, Hpv. apply negb_false_iff in HpT, Hpv.
    rewrite !str_all_app.
    change (str_all (class_mem (CNot ")")) T)
      with (str_all (λ d, negb (Ascii.eqb d ")")) T).
    change (str_all (class_mem (CNot ")")) v)
      with (str_all (λ d, negb (Ascii.eqb d ")")) v).
    by rewrite HpT, Hpv. }
  destruct (analyzeFunction_blocks func
              (try_catch_blocks func
               ++ [ {| try_body := B;
                       catch_clauses :=
                         [ {| exception_type := T; exception_var := v;
                              handler_body := H |} ] |} ])%list)
    as (func' & Hf & Hblocks).
  - rewrite Hbody.
    rewrite (try_catch_scan_turn _ _ _ _ _ _ _ _ T v);
      [ by apply search_loop_done | try done .. ].
    lia.
  - exists func'. split; [ done | ]. split; [ done | ].
    pose proof (analyzeFunction_flags func func' Hf) as Hflag.
    rewrite Hblocks in Hflag.
    assert (Hmay : may_throw func' = true).
    { rewrite Hflag. destruct (try_catch_blocks func); cbn;
        by rewrite orb_true_r. }
    split; [ done | ].
    unfold selectStrategy. rewrite Hmay, Hblocks. cbn [negb andb].
    by destruct (is_noexcept (exception_spec func')),
         (nonempty _).
Qed.

Lemma try_catch_recorded_witness :
  ∃ func',
    analyzeFunction
      (plain_function "load"
         "try { open(path); } catch (const std::runtime_error& err) { log(err); } return 0;")
    = Some func'
    ∧ try_catch_blocks func'
      = [ {| try_body := " open(path); ";
             catch_clauses :=
               [ {| exception_type := "std::runtime_error";
                    exception_var := "err";
                    handler_body := " log(err); " |} ] |} ]
    ∧ may_throw func' = true
    ∧ selectStrategy func' "rust" = ResultType.
Proof.
  apply (try_catch_recorded
           (plain_function "load"
              "try { open(path); } catch (const std::runtime_error& err) { log(err); } return 0;")
           " " " open(path); " " " " " "std::runtime_error" "err" " "
           " log(err); " " return 0;").
  - by repeat constructor.
  - reflexivity.
  - reflexivity.
  - by split.
  - reflexivity.
  - reflexivity.
  - reflexivity.
  - reflexivity.
  - reflexivity.
  - reflexivity.
Defined.

End OneTryCatch.

(** * Properties of whole bodies

    The statements below are about a body that contains a given text,
    whatever else it holds; they rest on the facts about matches above. *)

(** ** Matches that begin later in the text *)

Section Leftmost.
Import Regex RegexSpec.

(** the search runs over a stretch in which no match begins *)
Lemma regex_search_none_begins (r : regex) (pre s : string) :
  none_begins r pre s = true →
  regex_search r (pre ++ s) = add_prefix pre <$> regex_search r s.
Proof.
  induction pre as [ | c pre IH ]; intros Hpre.
  - rewrite sapp_nil_l. by destruct (regex_search r s) as [[] | ].
  - cbn [none_begins] in Hpre. rewrite sapp_cons in Hpre |- *.
    cbn [regex_search].
    destruct (match_here r (String c (pre ++ s))); [ done | ].
    rewrite (IH Hpre). by destruct (regex_search r s) as [[] | ].
Qed.

Lemma finds_none_begins (r : regex) (pre s rest : string) (caps : captures) :
  none_begins r pre s = true →
  finds r s caps rest → finds r (pre ++ s) caps rest.
Proof.
  intros Hpre (m & Hs & Hg & Hr). exists (add_prefix pre m).
  by rewrite regex_search_none_begins, Hs.
Qed.

Lemma regex_search_none_begins_nowhere (r : regex) (pre s : string) :
  none_begins r pre s = true → regex_search r s = None →
  regex_search r (pre ++ s) = None.
Proof. intros Hpre Hs. by rewrite regex_search_none_begins, Hs. Qed.

End Leftmost.

(** ** Nested try/catch in a body *)

Section NestedInBody.
Import Regex RegexSpec ExceptionAnalyzer.

(** after the inner handler of the nested text nothing is left for a
    second match, unless one is found further on *)
Lemma nothing_after_inner_handler (post : string) :
  regex_search try_catch_pattern post = None →
  regex_search try_catch_pattern (" } catch(...) {}" ++ post) = None.
Proof.
  intros Hpost.
  apply regex_search_none_begins_nowhere; [ | exact Hpost ].
  vm_compute. reflexivity.
Qed.

(** C1, amended: in a body that contains the nested text, with a
    protected text [B] and a handler [H] without a closing brace, where the
    try/catch pattern has no match that begins before the nested text and
    none in the text after it, the analyzer appends one block with one
    catch clause, of type [RuntimeError] and bound name [e], that of the
    inner handler; the outer catch-all clause is not recorded. In a body
    that contains, under the same conditions, a try with a catch-all
    handler alone, it appends one block with one clause, whose type is the
    ellipsis itself, with no bound name. *)
Theorem nested_try_catch_clauses (func : IRFunction) (pre B H post : string) :
  str_all not_rbrace B = true → str_all not_rbrace H = true →
  regex_search try_catch_pattern post = None →
  (none_begins try_catch_pattern pre (nested_try_catch B H ++ post) = true →
   fn_body func = pre ++ nested_try_catch B H ++ post →
   ∃ func' block,
     analyzeFunction func = Some func'
     ∧ try_catch_blocks func' = (try_catch_blocks func ++ [ block ])%list
     ∧ catch_clauses block
       = [ {| exception_type := "RuntimeError"; exception_var := "e";
              handler_body := H |} ])
  ∧ (none_begins try_catch_pattern pre (catch_all_try B H ++ post) = true →
     fn_body func = pre ++ catch_all_try B H ++ post →
     ∃ func' block,
       analyzeFunction func = Some func'
       ∧ try_catch_blocks func' = (try_catch_blocks func ++ [ block ])%list
       ∧ catch_clauses block
         = [ {| exception_type := "..."; exception_var := "";
                handler_body := H |} ]).
Proof.
  intros HB HH Hpost. split; intros Hpre Hbody.
  - pose proof
      (try_catch_pattern_commits " " (" try {" ++ B) " " "" "RuntimeError e"
         "" H (" } catch(...) {}" ++ post)) as Hc.
    assert (Hfinds :
      finds try_catch_pattern (fn_body func)
        [ (3, H); (2, "RuntimeError e"); (1, " try {" ++ B) ]
        (" } catch(...) {}" ++ post)).
    { rewrite Hbody. apply finds_none_begins; [ exact Hpre | ].
      apply finds_here.
      replace (nested_try_catch B H ++ post)
        with (try_catch_text " " (" try {" ++ B) " " "" "RuntimeError e" ""
                H (" } catch(...) {}" ++ post)).
      - by apply Hc.
      - unfold try_catch_text, nested_try_catch.
        by rewrite !sapp_assoc. }
    set (block :=
           {| try_body := " try {" ++ B;
              catch_clauses :=
                [ {| exception_type := "RuntimeError"; exception_var := "e";
                     handler_body := H |} ] |}).
    destruct (analyzeFunction_blocks func (try_catch_blocks func ++ [ block ]))
      as (func' & Hf & Hblocks).
    + rewrite (search_loop_finds try_catch_pattern try_catch_step _ _ _ _ _
                 (Some (try_catch_blocks func ++ [ block ])%list)
                 eq_refl (Nat.lt_succ_diag_r _) Hfinds).
      * apply search_loop_done. by apply nothing_after_inner_handler.
      * intros m Hm. unfold try_catch_step. cbn [mbind option_bind].
        by rewrite Hm.
    + by exists func', block.
  - pose proof
      (try_catch_pattern_commits " " B " " "" "..." " " H post) as Hc.
    assert (Hfinds :
      finds try_catch_pattern (fn_body func)
        [ (3, H); (2, "..."); (1, B) ] post).
    { rewrite Hbody. apply finds_none_begins; [ exact Hpre | ].
      apply finds_here.
      replace (catch_all_try B H ++ post)
        with (try_catch_text " " B " " "" "..." " " H post).
      - by apply Hc.
      - unfold try_catch_text, catch_all_try.
        by rewrite !sapp_assoc. }
    set (block :=
           {| try_body := B;
              catch_clauses :=
                [ {| exception_type := "..."; exception_var := "";
                     handler_body := H |} ] |}).
    destruct (analyzeFunction_blocks func (try_catch_blocks func ++ [ block ]))
      as (func' & Hf & Hblocks).
    + rewrite (search_loop_finds try_catch_pattern try_catch_step _ _ _ _ _
                 (Some (try_catch_blocks func ++ [ block ])%list)
                 eq_refl (Nat.lt_succ_diag_r _) Hfinds).
      * by apply search_loop_done.
      * intros m Hm. unfold try_catch_step. cbn [mbind option_bind].
        by rewrite Hm.
    + by exists func', block.
Qed.

Lemma nested_try_catch_clauses_witness :
  ∃ func' block,
    analyzeFunction
      (plain_function "f"
         ("int retry = 0; "
          ++ "try { try {...} catch(RuntimeError e){ rethrow } } catch(...) {}"
          ++ " return retry;"))
    = Some func'
    ∧ try_catch_blocks func' = [ block ]
    ∧ catch_clauses block
      = [ {| exception_type := "RuntimeError"; exception_var := "e";
             handler_body := " rethrow " |} ].
Proof.
  destruct (nested_try_catch_clauses
              (plain_function "f"
                 ("int retry = 0; " ++ nested_try_catch "..." " rethrow "
                  ++ " return retry;"))
              "int retry = 0; " "..." " rethrow " " return retry;")
    as [Hnested _]; [ reflexivity | reflexivity | reflexivity | ].
  exact (Hnested eq_refl eq_refl).
Defined.

End NestedInBody.

(** ** The may-fail flag, in terms of the name and the body *)

Section MayThrow.
Import Regex RegexSpec ExceptionAnalyzer Recorded Surface.

Lemma has_char_class (c : ascii) (w : string) :
  has_char c w = false ↔ str_all (class_mem (CNot c)) w = true.
Proof. unfold has_char. by rewrite negb_false_iff. Qed.

Lemma regex_search_some_app (r : regex) (pre s : string) :
  is_Some (match_here r s) → is_Some (regex_search r (pre ++ s)).
Proof.
  intros [m Hm]. induction pre as [ | c pre IH ].
  - rewrite sapp_nil_l. destruct s; cbn [regex_search]; rewrite Hm; by eexists.
  - rewrite sapp_cons. cbn [regex_search].
    destruct (match_here r (String c (pre ++ s))); [ by eexists | ].
    destruct IH as [m' ->]. by eexists.
Qed.

(** the try/catch pattern matches somewhere in a body exactly when the
    body has a try/catch statement of the shape the detector reads *)
Lemma try_catch_region_iff (body : string) :
  is_Some (regex_search try_catch_pattern body) ↔ try_catch_region body.
Proof.
  split.
  - intros [m Hm]. apply regex_search_sound in Hm as (rest & -> & Hd).
    unfold try_catch_pattern in Hd. cbn [RSeqs derives] in Hd.
    destruct Hd as (s1 & c1 & H1 & s2 & c2 & H2 & s3 & c3 & H3 & s4 & c4 & H4
                    & s5 & c5 & H5 & s6 & c6 & H6 & s7 & c7 & H7 & s8 & c8 & H8
                    & s9 & c9 & H9 & s10 & c10 & H10 & s11 & c11 & H11
                    & s12 & c12 & H12 & s13 & c13 & H13 & s14 & c14 & H14
                    & s15 & c15 & H15 & H16).
    apply derives_lit_inv in H1 as [-> _].
    destruct H2 as (ws1 & -> & Hws1 & _).
    destruct H3 as [-> _].
    destruct H4 as (? & (B & -> & HB & _) & _).
    destruct H5 as [-> _].
    destruct H6 as (ws2 & -> & Hws2 & _).
    apply derives_lit_inv in H7 as [-> _].
    destruct H8 as (ws3 & -> & Hws3 & _).
    destruct H9 as [-> _].
    destruct H10 as (? & (d & P & -> & HP & _) & _).
    destruct H11 as [-> _].
    destruct H12 as (ws4 & -> & Hws4 & _).
    destruct H13 as [-> _].
    destruct H14 as (? & (H & -> & HH & _) & _).
    destruct H15 as [-> _]. clear H16.
    exists (m_prefix m), ws1, B, ws2, ws3, (String d P), ws4, H, s15.
    split; [ reflexivity | ].
    split; [ by repeat constructor | ].
    split; [ exact HB | ]. split; [ exact HH | ].
    split; [ done | ]. by apply has_char_class.
  - intros (pre & ws1 & B & ws2 & ws3 & P & ws4 & H & rest & -> & Hws & HB
            & HH & HP & HPc).
    apply Forall_cons in Hws as [H1 Hws]. apply Forall_cons in Hws as [H2 Hws].
    apply Forall_cons in Hws as [H3 Hws]. apply Forall_cons in Hws as [H4 _].
    apply regex_search_some_app. eexists. unfold match_here.
    apply (try_catch_pattern_commits ws1 B ws2 ws3 P ws4 H rest);
      [ done .. | | | reflexivity ].
    + by apply has_char_class.
    + by destruct P.
Qed.

(** the throw pattern matches somewhere in a body exactly when the
    keyword is followed by a white-space character there *)
Lemma throw_then_space_iff (body : string) :
  is_Some (regex_search throw_pattern body) ↔ throw_then_space body.
Proof.
  split.
  - intros [m Hm]. apply regex_search_sound in Hm as (rest & -> & Hd).
    unfold throw_pattern in Hd. cbn [RSeqs derives] in Hd.
    destruct Hd as (s1 & c1 & H1 & s2 & c2 & (d & b & -> & Hb & _) & _).
    apply derives_lit_inv in H1 as [-> _].
    exists (m_prefix m), d, (b ++ s2). split; [ done | ].
    cbn in Hb. by apply andb_true_iff in Hb as [Hd _].
  - intros (a & c & b & -> & Hc).
    apply (regex_search_complete throw_pattern a _ b []).
    unfold throw_pattern. cbn [RSeqs derives].
    exists (String c b), []. split; [ apply derives_lit | ].
    exists b, []. split; [ | done ].
    exists c, "". cbn. by rewrite Hc.
Qed.

Lemma analyzeFunction_blocks_found (func func' : IRFunction) :
  analyzeFunction func = Some func' →
  ∃ found,
    try_catch_blocks func' = (try_catch_blocks func ++ found)%list
    ∧ (found = [] ↔ regex_search try_catch_pattern (fn_body func) = None).
Proof.
  destruct (analyzeFunction_shape func) as (found & spec & flag & -> & Hiff).
  intros [= <-]. exists found. split; [ by destruct func | exact Hiff ].
Qed.

(** C6, as stated, fails: a throw statement that the two tests for one
    do not see leaves the flag clear. In [throw;] the keyword is followed
    by no white space. The function is marked noexcept in its name, or
    comes with a specification that cannot throw. *)
Lemma throw_without_space_not_detected :
  Forall
    (λ func,
       ∃ func', analyzeFunction func = Some func'
                ∧ try_catch_blocks func' = []
                ∧ can_throw (exception_spec func') = false
                ∧ may_throw func' = false)
    [ plain_function "f" "throw;";
      plain_function "f noexcept" "throw;";
      set_exception_spec {| is_noexcept := false; can_throw := true |}
        (plain_function "f noexcept" "throw;") ].
Proof.
  repeat constructor; (eexists; split; [ vm_compute; reflexivity | done ]).
Qed.

(** C6, amended: for a function that [analyzeFunction] has analysed, the
    flag [may_throw] is set if and only if the exception specification
    can throw, or a try/catch block is recorded, or the text [throw]
    followed by a space occurs in the body. The specification of the
    result can throw exactly when the name of the function does not
    mention [noexcept] and either the specification handed over could
    throw or the keyword [throw] is followed by a white-space character
    somewhere in the body; a block is recorded in the result exactly when
    one was recorded before or the body has a try/catch statement of the
    shape the detector reads. *)
Theorem analyzeFunction_may_throw (func func' : IRFunction) :
  analyzeFunction func = Some func' →
  let can_raise :=
    ¬ occurs "noexcept" (fn_name func)
    ∧ (can_throw (exception_spec func) = true
       ∨ throw_then_space (fn_body func)) in
  let has_block :=
    try_catch_blocks func ≠ [] ∨ try_catch_region (fn_body func) in
  (may_throw func' = true
   ↔ can_raise ∨ has_block ∨ occurs "throw " (fn_body func))
  ∧ (can_throw (exception_spec func') = true ↔ can_raise)
  ∧ (try_catch_blocks func' ≠ [] ↔ has_block).
Proof.
  intros Ha can_raise has_block.
  pose proof (analyzeFunction_flags func func' Ha) as Hflag.
  pose proof (analyzeFunction_can_throw func func' Ha) as Hcan.
  destruct (analyzeFunction_frame func func' Ha) as [Hbody _].
  destruct (analyzeFunction_blocks_found func func' Ha)
    as (found & Hblocks & Hfound).
  assert (H1 : can_throw (exception_spec func') = true ↔ can_raise).
  { unfold can_raise. rewrite Hcan. unfold occurs.
    destruct (Str.contains (fn_name func) "noexcept") eqn:Hn.
    - apply contains_iff in Hn. split; [ done | ]. by intros [Hno _].
    - assert (Hno : ¬ ∃ a b, fn_name func = a ++ "noexcept" ++ b).
      { intros H%contains_iff. congruence. }
      rewrite <- throw_then_space_iff.
      destruct (regex_search throw_pattern (fn_body func)) as [m | ].
      + split; [ | done ]. intros _. split; [ done | ]. right. by eexists.
      + split.
        * intros Hc. split; [ done | by left ].
        * intros [_ [Hc | [m Hm]]]; done. }
  assert (H2 : try_catch_blocks func' ≠ [] ↔ has_block).
  { unfold has_block. rewrite Hblocks, <- try_catch_region_iff.
    destruct (try_catch_blocks func) as [ | b bs ]; cbn [app].
    - split.
      + intros Hne. right.
        destruct (regex_search try_catch_pattern (fn_body func)) as [m | ];
          [ by eexists | ].
        destruct Hfound as [_ Hnil]. by rewrite Hnil in Hne.
      + intros [Hne | [m Hm]]; [ done | ].
        intros Hnil%Hfound. congruence.
    - split; [ by left | done ]. }
  split; [ | by split ].
  rewrite <- H1, <- H2, Hflag, Hbody, !orb_true_iff, nonempty_true.
  unfold containsThrowStatement, occurs. rewrite contains_iff. tauto.
Qed.

Lemma analyzeFunction_may_throw_witness :
  ∃ func',
    analyzeFunction (plain_function "f noexcept" "throw E();") = Some func'
    ∧ can_throw (exception_spec func') = false
    ∧ may_throw func' = true.
Proof.
  eexists. split; [ vm_compute; reflexivity | ]. split; [ reflexivity | ].
  destruct (analyzeFunction_may_throw
              (plain_function "f noexcept" "throw E();") _ eq_refl)
    as (Hm & _ & _).
  apply Hm. right. right. by exists "", "E();".
Defined.

End MayThrow.

(** ** A spawn and its detach call in a body *)

Section SpawnInBody.
Import Regex RegexSpec ThreadAnalyzer Surface.


(** *** The character before a text *)




(** *** The text of a match of the detach pattern *)




(** *** The leftmost match *)



(** *** The detach scan *)

Section Scan.
Variables dd dj : bool.







End Scan.

(** *** The spawn *)







End SpawnInBody.
